(** * Stress response with somatic damage: the dynamic-programming engine

    A shallow embedding of [src/dynamic_programming/stress_damage_lh.cpp].

    Modelling conventions.
    - A C++ [double] that holds a fitness, a probability or a frequency is a
      rational number of [Q]: arithmetic is exact.  A division whose divisor
      is zero has no rational value; [ddiv] returns [None] for it (IEEE gives
      NaN or an infinity there, and neither ever becomes a number again).
      The binary64 run rounds every operation, so that a value of the run
      and the rational of the model differ by the rounding errors; and an
      array of the model cannot hold a NaN or an infinity.  Where a
      theorem on the size of a value is meant of the run, it names the
      entries that it needs to be numbers, with their bounds, and
      concludes what a monotone rounding keeps: the sign of a sum or
      product of numbers that are not negative, or that a sum of such
      numbers is at least each of them.  A fact that holds of the exact
      formula only is introduced as such.
    - The one place where the binary64 rounding decides an integer, the
      golden-section split [round((double(RHS)-double(LHS))*phi_inv)], is
      computed with the kernel's binary64 floats, operation by operation.
    - The global vectors are total maps from indices to values; the lattice
      bounds appear as hypotheses of the theorems.
    - A counted [for] loop is a fold over the list of its indices; the
      [while] loop of the golden-section search takes fuel, and is shown to
      need at most [gss_fuel] iterations whatever it reads.  The iteration
      of [main] and the [while] loop of [fwdCalc] take fuel as well.
    - [SimAttacks] indexes with a counter that the code lets run below
      zero; there the reads go through lookups that return [None] outside
      the bounds of the vector or array. *)

From Stdlib Require Import ZArith QArith Qround Qabs Qminmax Lia Lqa List Bool.
From Stdlib Require Import PrimFloat SpecFloat FloatOps Uint63.
Import ListNotations.

Local Open Scope Z_scope.

(** ** Constants of the source *)

Definition maxD : Z := 20.
Definition repair : Z := 1.
Definition maxI : Z := 1000000.
Definition maxT : Z := 100.
Definition maxH : Z := 500.
Definition maxTs : Z := 10.
Definition mu0 : Q := 2 # 1000.
Definition hmin : Q := 3 # 10.
Definition hslope : Q := 20 # 1.

(** [phi_inv = 1.0/((sqrt(5.0)+1.0)/2.0)], in binary64. *)
Definition phi_inv : float := (1 / ((PrimFloat.sqrt 5 + 1) / 2))%float.

(** ** Numbers *)

(** [double(z)] for an [int] [z]. *)
Definition Z2d (z : Z) : float :=
  if z <? 0 then PrimFloat.opp (of_uint63 (Uint63.of_Z (- z)))
  else of_uint63 (Uint63.of_Z z).

(** C's [round]: the nearest integer, halves away from zero.  The result is
    read back as the [int] the source assigns it to; a NaN or an infinity
    (never produced from the bounded integers of the search) reads as 0. *)
Definition round_d (x : float) : Z :=
  match Prim2SF x with
  | S754_finite s m e =>
      let mag :=
        if 0 <=? e then Z.shiftl (Zpos m) e
        else (Zpos m + Z.shiftl 1 (- e - 1)) / Z.shiftl 1 (- e) in
      if s then - mag else mag
  | _ => 0
  end.

(** [round((double(hi)-double(lo))*phi_inv)]. *)
Definition gs_round (hi lo : Z) : Z :=
  round_d ((Z2d hi - Z2d lo) * phi_inv)%float.

(** [a < b] on doubles. *)
Definition Qltb (a b : Q) : bool := negb (Qle_bool b a).

(** [std::min(a,b)] and [std::max(a,b)]. *)
Definition std_min (a b : Q) : Q := if Qltb b a then b else a.
Definition std_max (a b : Q) : Q := if Qltb a b then b else a.

(** [n / d]; [None] when the divisor is zero. *)
Definition ddiv (n d : Q) : option Q :=
  if Qeq_bool d 0 then None else Some (n / d)%Q.

(** ** Arrays and loops *)

Definition upd1 {A} (f : Z -> A) (i : Z) (v : A) : Z -> A :=
  fun i' => if i' =? i then v else f i'.

Definition upd2 {A} (f : Z -> Z -> A) (i j : Z) (v : A) : Z -> Z -> A :=
  fun i' j' => if (i' =? i) && (j' =? j) then v else f i' j'.

Definition upd3 {A} (f : Z -> Z -> Z -> A) (i j k : Z) (v : A)
  : Z -> Z -> Z -> A :=
  fun i' j' k' =>
    if (i' =? i) && (j' =? j) && (k' =? k) then v else f i' j' k'.

Definition upd4 {A} (f : Z -> Z -> Z -> Z -> A) (i j k l : Z) (v : A)
  : Z -> Z -> Z -> Z -> A :=
  fun i' j' k' l' =>
    if (i' =? i) && (j' =? j) && (k' =? k) && (l' =? l) then v
    else f i' j' k' l'.

(** The indices [lo, lo+1, ..., hi]. *)
Definition zrange (lo hi : Z) : list Z :=
  map (fun k => lo + Z.of_nat k) (seq 0 (Z.to_nat (hi + 1 - lo))).

(** [for (i=lo; i<=hi; ++i) body]. *)
Definition for_up {S} (lo hi : Z) (body : Z -> S -> S) (s : S) : S :=
  fold_left (fun s i => body i s) (zrange lo hi) s.

(** [for (i=hi; i>=lo; --i) body]. *)
Definition for_down {S} (hi lo : Z) (body : Z -> S -> S) (s : S) : S :=
  fold_left (fun s i => body i s) (rev (zrange lo hi)) s.

(** ** Golden-section search (the [while] loop of [OptDec]) *)

Record gss_state := mk_gss {
  LHS : Z; RHS : Z; x1 : Z; x2 : Z;
  fitness_x1 : Q; fitness_x2 : Q
}.

(** The state before the loop; [fx1] and [fx2] are what the two locals
    [fitness_x1], [fitness_x2] happen to hold at that point. *)
Definition gss_init (fx1 fx2 : Q) : gss_state :=
  let l := 0 in
  let r := maxH in
  mk_gss l r (r - gs_round r l) (l + gs_round r l) fx1 fx2.

(** One pass through the loop body; [f h] is
    [Wnext[std::min(maxT,t+1)][ts+1][d][h]]. *)
Definition gss_body (f : Z -> Q) (st : gss_state) : gss_state :=
  let fx1 := f (x1 st) in
  let fx2 := f (x2 st) in
  if Qltb fx1 fx2 then
    let l := x1 st in
    let a := x2 st in
    mk_gss l (RHS st) a (RHS st - gs_round (RHS st) a) fx1 fx2
  else
    let r := x2 st in
    let b := x1 st in
    mk_gss (LHS st) r (LHS st + gs_round b (LHS st)) b fx1 fx2.

(** [while (x1<x2) body], with fuel: [None] when the fuel runs out. *)
Fixpoint gss_loop (fuel : nat) (f : Z -> Q) (st : gss_state)
  : option gss_state :=
  if x1 st <? x2 st then
    match fuel with
    | O => None
    | S k => gss_loop k f (gss_body f st)
    end
  else Some st.

Definition gss_fuel : nat := 12.

(** The search as [OptDec] runs it: from [gss_init], until [x1 >= x2].
    [gss_loop_total] below shows the fuel is never exhausted. *)
Definition golden_section (f : Z -> Q) (fx1 fx2 : Q) : gss_state :=
  match gss_loop gss_fuel f (gss_init fx1 fx2) with
  | Some st => st
  | None => gss_init fx1 fx2
  end.

(** *** The runs of the search *)

(** Every run of the loop from the points [(l, r, a, b)], whichever way
    each comparison falls: [true] when all of them read [Wnext] inside
    [0..maxH] only and leave the loop within [fuel] passes with [P x1]. *)
Fixpoint gss_paths (fuel : nat) (P : Z -> bool) (l r a b : Z) : bool :=
  if a <? b then
    match fuel with
    | O => false
    | S k =>
        (0 <=? a) && (b <=? maxH)
        && gss_paths k P a r b (r - gs_round r b)
        && gss_paths k P l b (l + gs_round a l) a
    end
  else P a.

(** The runs open to a row with its strict peak at [m]: a comparison is
    forced when both interior points lie on one side of the peak. *)
Fixpoint gss_peak_paths (fuel : nat) (m l r a b : Z) : bool :=
  if a <? b then
    match fuel with
    | O => false
    | S k =>
        if (0 <=? a) && (b <=? maxH) then
          if (if m <=? a then true
              else gss_peak_paths k m a r b (r - gs_round r b))
          then (if b <=? m then true
                else gss_peak_paths k m l b (l + gs_round a l) a)
          else false
        else false
    end
  else Z.abs (a - m) <=? 1.

(** A row of fitness values with a strict peak at [m] on [0..maxH]. *)
Definition strict_peak (f : Z -> Q) (m : Z) : Prop :=
  (forall i j, 0 <= i -> i < j -> j <= m -> (f i < f j)%Q)
  /\ (forall i j, m <= i -> i < j -> j <= maxH -> (f j < f i)%Q).

(** A row that increases strictly on [0..maxH]. *)
Definition strictly_increasing (f : Z -> Q) : Prop :=
  forall i j, 0 <= i -> i < j -> j <= maxH -> (f i < f j)%Q.

(** ** Inputs and derived tables *)

(** The scalars read by [init_params] (the exponent [alpha] is used by
    [Predation] only, whose [pow] is outside exact arithmetic; its result
    [pKilled] enters the engine as a table). *)
Record Params := mk_Params {
  pLeave : Q;
  pArrive : Q;
  pAttack : Q;
  Kmort : Q;
  Kfec : Q
}.

(** The tables the engines read.  Their entries are numbers: the tables
    of a run in which [PredProb] has divided by zero, whose later [pPred]
    entries are NaN, are no value of this type. *)
Record Tables := mk_Tables {
  pPred : Z -> Q;
  pKilled : Z -> Q;
  mu : Z -> Q;
  dnew : Z -> Z -> Q;
  repro : Z -> Z -> Q
}.

Local Open Scope Q_scope.

(** [PredProb].  An entry is [None] once a division by zero has produced
    it or fed it. *)
Definition PredProb_next (p : Params) (prev : option Q) : option Q :=
  match prev with
  | Some q =>
      ddiv (q * (1 - pAttack p) * (1 - pLeave p) + (1 - q) * pArrive p)
           (1 - q * pAttack p)
  | None => None
  end.

Definition PredProb_step (p : Params) (t : Z) (pp : Z -> option Q)
  : Z -> option Q :=
  upd1 pp t (PredProb_next p (pp (t - 1)%Z)).

Definition PredProb (p : Params) (pp : Z -> option Q) : Z -> option Q :=
  let pp := upd1 pp 1%Z (Some (1 - pLeave p)) in
  for_up 2 maxT (PredProb_step p) pp.

(** [Mortality]. *)
Definition Mortality (p : Params) (m : Z -> Q) : Z -> Q :=
  for_up 0 maxD
    (fun d m => upd1 m d (std_min 1 (mu0 + Kmort p * inject_Z d))) m.

(** [Damage]. *)
Definition Damage (dn : Z -> Z -> Q) : Z -> Z -> Q :=
  for_up 0 maxD (fun d =>
    for_up 0 maxH (fun h dn =>
      upd2 dn d h
        (std_max 0
           (std_min (inject_Z maxD)
              (inject_Z d
               + hslope * (hmin - inject_Z h / inject_Z maxH)
                        * (hmin - inject_Z h / inject_Z maxH)
               - inject_Z repair))))) dn.

(** [Reproduction] (the printing of the last season's row left out). *)
Definition Reproduction (p : Params) (r : Z -> Z -> Q) : Z -> Z -> Q :=
  for_up 0 maxTs (fun ts =>
    for_up 0 maxD (fun d r =>
      upd2 r ts d
        (if (ts mod maxTs =? 0)%Z
         then std_max 0 (1 - Kfec p * inject_Z d)
         else 0))) r.

(** ** The value-iteration engine *)

(** The globals the engine writes, and [OptDec]'s locals that outlive one
    search ([locals]: the bracket, the interior points and the two fitness
    values).  The fitness entries are numbers, as those of the tables. *)
Record Fit := mk_Fit {
  hormone : Z -> Z -> Z -> Z;
  Wopt : Z -> Z -> Z -> Q;
  W : Z -> Z -> Z -> Z -> Q;
  Wnext : Z -> Z -> Z -> Z -> Q;
  V : Z -> Z -> Z -> Q;
  totfitdiff : Q;
  locals : gss_state
}.

(** [FinalFit]. *)
Definition FinalFit_cell (e : Tables) (t d h : Z) (s : Fit) : Fit :=
  let wn := upd4 (Wnext s) t maxTs d h (repro e maxTs d) in
  mk_Fit (hormone s) (Wopt s) (W s) wn
         (upd3 (V s) t d h (wn t maxTs d h))
         (totfitdiff s) (locals s).

Definition FinalFit (e : Tables) (s : Fit) : Fit :=
  for_up 1 maxT (fun t =>
    for_up 0 maxD (fun d =>
      for_up 0 maxH (fun h => FinalFit_cell e t d h))) s.

(** [OptDec], first loop nest: the search at one [(t, ts, d)]. *)
Definition OptDec_search (ts t d : Z) (s : Fit) : Fit :=
  let st :=
    golden_section (fun h => Wnext s (Z.min maxT (t + 1)) (ts + 1)%Z d h)
                   (fitness_x1 (locals s)) (fitness_x2 (locals s)) in
  mk_Fit (upd3 (hormone s) t ts d (x1 st))
         (upd3 (Wopt s) t ts d (fitness_x1 st))
         (W s) (Wnext s) (V s) (totfitdiff s) st.

(** [OptDec], second loop nest: the value written to [W[t][ts][d][h]]. *)
Definition W_value (p : Params) (e : Tables) (wopt : Z -> Z -> Z -> Q)
  (t ts d h : Z) : Q :=
  let d1 := Qfloor (dnew e d h) in
  let d2 := Qceiling (dnew e d h) in
  let ddec := dnew e d h - inject_Z d1 in
  pPred e t * pAttack p * (1 - pKilled e h) * (1 - mu e d)
    * (repro e ts d + (1 - ddec) * wopt 0%Z ts d1 + ddec * wopt 0%Z ts d2)
  + (1 - pPred e t * pAttack p) * (1 - mu e d)
    * (repro e ts d + (1 - ddec) * wopt t ts d1 + ddec * wopt t ts d2).

Definition OptDec_fitness_cell (p : Params) (e : Tables) (ts t d h : Z)
  (s : Fit) : Fit :=
  let w := upd4 (W s) t ts d h (W_value p e (Wopt s) t ts d h) in
  mk_Fit (hormone s) (Wopt s) w
         (upd4 (Wnext s) t ts d h (w t ts d h))
         (V s) (totfitdiff s) (locals s).

Definition OptDec_decide (ts : Z) (s : Fit) : Fit :=
  for_up 0 maxT (fun t => for_up 0 maxD (fun d => OptDec_search ts t d)) s.

Definition OptDec_fitness (p : Params) (e : Tables) (ts : Z) (s : Fit)
  : Fit :=
  for_up 1 maxT (fun t =>
    for_up 0 maxD (fun d =>
      for_up 0 maxH (fun h => OptDec_fitness_cell p e ts t d h))) s.

Definition OptDec (p : Params) (e : Tables) (s : Fit) : Fit :=
  for_down (maxTs - 1) 0
    (fun ts s => OptDec_fitness p e ts (OptDec_decide ts s)) s.

(** [ReplaceFit]; the loops carry the local [fitdiff]. *)
Definition ReplaceFit_cell (t d h : Z) (sf : Fit * Q) : Fit * Q :=
  let (s, fitdiff) := sf in
  let fitdiff := fitdiff + Qabs (V s t d h - W s t 0%Z d h) in
  let wn := upd4 (Wnext s) t maxTs d h (W s t 0%Z d h) in
  let ho := upd3 (hormone s) t maxTs d (hormone s t 0%Z d) in
  let v := upd3 (V s) t d h (W s t 0%Z d h) in
  (mk_Fit ho (Wopt s) (W s) wn v (totfitdiff s) (locals s), fitdiff).

Definition ReplaceFit_loops (s : Fit) : Fit * Q :=
  for_up 1 maxT (fun t =>
    for_up 0 maxD (fun d =>
      for_up 0 maxH (fun h => ReplaceFit_cell t d h))) (s, 0).

Definition ReplaceFit (s : Fit) : Fit :=
  let (s', fitdiff) := ReplaceFit_loops s in
  mk_Fit (hormone s') (Wopt s') (W s') (Wnext s') (V s') fitdiff (locals s').

(** ** The forward propagation engine ([fwdCalc]) *)

(** The frequency tensor and the three death tallies.  The convergence
    measure [maxfreqdiff] only steers the enclosing [while]; it is not
    part of this record, and the loop carries it beside the state. *)
Record Fwd := mk_Fwd {
  F : Z -> Z -> Z -> Z -> Q;
  predDeaths : Q;
  damageDeaths : Q;
  bkgrndDeaths : Q
}.

(** [a[i][j][k][l] += v]. *)
Definition add4 (f : Z -> Z -> Z -> Z -> Q) (i j k l : Z) (v : Q)
  : Z -> Z -> Z -> Z -> Q :=
  upd4 f i j k l (f i j k l + v).

(** The interpolation weight [ddec] of a source state. *)
Definition ddec_of (e : Tables) (d h : Z) : Q :=
  dnew e d h - inject_Z (Qfloor (dnew e d h)).

(** The seven amounts one source state hands out, as functions of the
    source mass [m = F[t][ts][d][h]] read at each statement. *)
Definition out_attack_lo (p : Params) (e : Tables) (t d h : Z) (m : Q) : Q :=
  m * pPred e t * pAttack p * (1 - pKilled e h) * (1 - mu e d)
    * (1 - ddec_of e d h).
Definition out_attack_hi (p : Params) (e : Tables) (t d h : Z) (m : Q) : Q :=
  m * pPred e t * pAttack p * (1 - pKilled e h) * (1 - mu e d)
    * ddec_of e d h.
Definition out_quiet_lo (p : Params) (e : Tables) (t d h : Z) (m : Q) : Q :=
  m * (1 - pPred e t * pAttack p) * (1 - mu e d) * (1 - ddec_of e d h).
Definition out_quiet_hi (p : Params) (e : Tables) (t d h : Z) (m : Q) : Q :=
  m * (1 - pPred e t * pAttack p) * (1 - mu e d) * ddec_of e d h.
Definition die_pred (p : Params) (e : Tables) (t h : Z) (m : Q) : Q :=
  m * pPred e t * pAttack p * pKilled e h.
Definition die_damage (p : Params) (e : Tables) (t d h : Z) (m : Q) : Q :=
  m * (1 - pPred e t * pAttack p * pKilled e h) * (mu e d - mu e 0%Z).
Definition die_bkgrnd (p : Params) (e : Tables) (t h : Z) (m : Q) : Q :=
  m * (1 - pPred e t * pAttack p * pKilled e h) * mu e 0%Z.

(** The body of the innermost loop of the sweep, statement by statement;
    [hor] is the policy array [hormone]. *)
Definition fwd_cell (p : Params) (e : Tables) (hor : Z -> Z -> Z -> Z)
  (t ts d h : Z) (s : Fwd) : Fwd :=
  let d1 := Qfloor (dnew e d h) in
  let d2 := Qceiling (dnew e d h) in
  let tn := Z.min (maxT - 1) (t + 1) in
  let f1 := add4 (F s) 1%Z (ts + 1)%Z d1 (hor 0%Z ts d1)
                 (out_attack_lo p e t d h (F s t ts d h)) in
  let f2 := add4 f1 1%Z (ts + 1)%Z d2 (hor 0%Z ts d2)
                 (out_attack_hi p e t d h (f1 t ts d h)) in
  let f3 := add4 f2 tn (ts + 1)%Z d1 (hor tn ts d1)
                 (out_quiet_lo p e t d h (f2 t ts d h)) in
  let f4 := add4 f3 tn (ts + 1)%Z d2 (hor tn ts d2)
                 (out_quiet_hi p e t d h (f3 t ts d h)) in
  mk_Fwd f4
         (predDeaths s + die_pred p e t h (f4 t ts d h))
         (damageDeaths s + die_damage p e t d h (f4 t ts d h))
         (bkgrndDeaths s + die_bkgrnd p e t h (f4 t ts d h)).

(** The initialisation: every entry with [t >= 1] zeroed, then all mass at
    [(maxT, 0, 0, 0)]. *)
Definition fwd_init (s : Fwd) : Fwd :=
  let s :=
    for_up 1 maxT (fun t =>
      for_up 0 maxTs (fun ts =>
        for_up 0 maxD (fun d =>
          for_up 0 maxH (fun h s =>
            mk_Fwd (upd4 (F s) t ts d h 0) (predDeaths s) (damageDeaths s)
                   (bkgrndDeaths s))))) s in
  mk_Fwd (upd4 (F s) maxT 0%Z 0%Z 0%Z 1) (predDeaths s) (damageDeaths s)
         (bkgrndDeaths s).

(** One pass of the [while] body up to the normalisation: the tallies are
    reset and every source state with [ts < maxTs] is visited. *)
Definition fwd_sweep (p : Params) (e : Tables) (hor : Z -> Z -> Z -> Z)
  (s : Fwd) : Fwd :=
  for_up 1 maxT (fun t =>
    for_up 0 (maxTs - 1) (fun ts =>
      for_up 0 maxD (fun d =>
        for_up 0 maxH (fun h => fwd_cell p e hor t ts d h))))
    (mk_Fwd (F s) 0 0 0).

(** A counted loop whose body can fail. *)
Definition for_up_opt {S} (lo hi : Z) (body : Z -> S -> option S) (s : S)
  : option S :=
  fold_left
    (fun os i => match os with Some s => body i s | None => None end)
    (zrange lo hi) (Some s).

(** The normalisation at the breeding point. *)
Definition fwd_norm_cell (t d h : Z) (s : Fwd) : option Fwd :=
  match ddiv (F s t maxTs d h) (1 - predDeaths s - damageDeaths s) with
  | None => None
  | Some q =>
      let f1 := upd4 (F s) t maxTs d h q in
      let f2 := upd4 f1 t 0%Z d h (f1 t maxTs d h) in
      let f3 := for_up 1 maxTs (fun ts f => upd4 f t ts d h 0) f2 in
      Some (mk_Fwd f3 (predDeaths s) (damageDeaths s) (bkgrndDeaths s))
  end.

Definition fwd_norm_h (t d : Z) (s : Fwd) : option Fwd :=
  for_up_opt 0 maxH (fun h => fwd_norm_cell t d h) s.

Definition fwd_norm_d (t : Z) (s : Fwd) : option Fwd :=
  for_up_opt 0 maxD (fun d => fwd_norm_h t d) s.

Definition fwd_normalise (s : Fwd) : option Fwd :=
  match ddiv (F s 1%Z maxTs 0%Z 0%Z)
             (1 - predDeaths s - damageDeaths s - bkgrndDeaths s) with
  | None => None
  | Some q =>
      for_up_opt 1 maxT (fun t => fwd_norm_d t)
        (mk_Fwd (upd4 (F s) 1%Z maxTs 0%Z 0%Z q) (predDeaths s)
                (damageDeaths s) (bkgrndDeaths s))
  end.

(** One full pass of the [while] body. *)
Definition fwd_pass (p : Params) (e : Tables) (hor : Z -> Z -> Z -> Z)
  (s : Fwd) : option Fwd :=
  fwd_normalise (fwd_sweep p e hor s).

(** Sums over the lattice. *)
Definition sum_range (lo hi : Z) (g : Z -> Q) : Q :=
  fold_left (fun acc i => acc + g i) (zrange lo hi) 0.

Definition lattice_sum (g : Z -> Z -> Z -> Q) : Q :=
  sum_range 1 maxT (fun t =>
    sum_range 0 maxD (fun d => sum_range 0 maxH (fun h => g t d h))).

(** The lattice of [F] that [fwdCalc] initialises. *)
Definition on_F_lattice (t ts d h : Z) : Prop :=
  (1 <= t <= maxT /\ 0 <= ts <= maxTs /\ 0 <= d <= maxD /\ 0 <= h <= maxH)%Z.

(** Two frequency tensors that hold equal numbers everywhere. *)
Definition same_F (f g : Z -> Z -> Z -> Z -> Q) : Prop :=
  forall t ts d h, f t ts d h == g t ts d h.

(** ** The program's own inputs *)

(** The parameter set of the spec's end-to-end scenario. *)
Definition params_default : Params :=
  mk_Params (1 # 2) (1 # 10) (1 # 2) 0 (1 # 20).

(** [Predation] for [alpha = 1], where [pow(x, 1.0) = x]. *)
Definition Predation_alpha1 (pk : Z -> Q) : Z -> Q :=
  for_up 0 maxH
    (fun h pk => upd1 pk h (std_max 0 (1 - inject_Z h / inject_Z maxH))) pk.

(** The number an entry of [pPred] holds.  An undefined entry reads as 0,
    which is no image of the NaN of the run: what is proved of [pPred]
    through [number] is proved at [t = 1] or at rates for which
    [PredProb] is defined. *)
Definition number (o : option Q) : Q :=
  match o with Some q => q | None => 0 end.

(** The tables as [main] fills them from zero-initialised arrays. *)
Definition tables_of (p : Params) : Tables :=
  mk_Tables (fun t => number (PredProb p (fun _ => Some 0) t))
            (Predation_alpha1 (fun _ => 0))
            (Mortality p (fun _ => 0))
            (Damage (fun _ _ => 0))
            (Reproduction p (fun _ _ => 0)).

(** The engine's globals at program start: zero-initialised vectors. *)
Definition fit_start : Fit :=
  mk_Fit (fun _ _ _ => 0%Z) (fun _ _ _ => 0) (fun _ _ _ _ => 0)
         (fun _ _ _ _ => 0) (fun _ _ _ => 0) 0
         (mk_gss 0 0 0 0 0 0).

(** The default rates with no cost of damage: [Kmort = 0], [Kfec = 0]. *)
Definition params_flat : Params := mk_Params (1 # 2) (1 # 10) (1 # 2) 0 0.

(** The entries of the tables in closed form, as each loop writes them
    ([pPred] as at [t = 1]). *)
Definition tables_closed (p : Params) : Tables :=
  mk_Tables
    (fun _ => 1 - pLeave p)
    (fun h => std_max 0 (1 - inject_Z h / inject_Z maxH))
    (fun d => std_min 1 (mu0 + Kmort p * inject_Z d))
    (fun d h =>
       std_max 0
         (std_min (inject_Z maxD)
            (inject_Z d
             + hslope * (hmin - inject_Z h / inject_Z maxH)
                      * (hmin - inject_Z h / inject_Z maxH)
             - inject_Z repair)))
    (fun ts d =>
       if (ts mod maxTs =? 0)%Z
       then std_max 0 (1 - Kfec p * inject_Z d) else 0).


(** A negative slope, which [init_params] accepts as it accepts any
    number. *)
Definition params_negative_slope : Params :=
  mk_Params (1 # 2) (1 # 10) (1 # 2) (-1) (1 # 20).

(** ** The claim C1 as worded *)

(** The value the claim C1 words: the no-attack branch weighted by the
    complement of the survived-attack weight, and continued from the
    [Wopt] row [min(maxT, t+1)]. *)
Definition W_claimed (p : Params) (e : Tables) (wopt : Z -> Z -> Z -> Q)
  (t ts d h : Z) : Q :=
  let d1 := Qfloor (dnew e d h) in
  let d2 := Qceiling (dnew e d h) in
  let ddec := dnew e d h - inject_Z d1 in
  let w := pPred e t * pAttack p * (1 - pKilled e h) in
  let tn := Z.min maxT (t + 1) in
  w * ((1 - mu e d)
       * (repro e ts d + ((1 - ddec) * wopt 0%Z ts d1 + ddec * wopt 0%Z ts d2)))
  + (1 - w) * ((1 - mu e d)
       * (repro e ts d + ((1 - ddec) * wopt tn ts d1 + ddec * wopt tn ts d2))).

(** With [Kfec = 0] and [Kmort = 0]: the fitness of epoch [maxTs-1] at
    [t = 1], [d = 0], as a function of the hormone level. *)
Definition W_flat (h : Z) : Q :=
  W_value params_flat (tables_closed params_flat)
          (fun _ _ d' => repro (tables_closed params_flat) maxTs d')
          1 (maxTs - 1) 0 h.

(** ** [Predation] for an integral exponent *)

(** [pow(x, alpha)] when [alpha] holds a natural number [n]: the product
    of [n] factors [x], with [pow(x, 0) = 1] also at [x = 0]. *)
Fixpoint pow_nat (x : Q) (n : nat) : Q :=
  match n with
  | O => 1
  | S k => x * pow_nat x k
  end.

Definition Predation (alpha : nat) (pk : Z -> Q) : Z -> Q :=
  for_up 0 maxH
    (fun h pk =>
       upd1 pk h (std_max 0 (1 - pow_nat (inject_Z h / inject_Z maxH) alpha)))
    pk.

(** ** The iteration of [main] and the strategy table *)

(** The convergence threshold [0.000001]. *)
Definition eps : Q := 1 # 1000000.

(** What the iteration leaves: the engine's globals, the global counter
    [i], and whether the line [*** DID NOT CONVERGE ...] was written. *)
Record Run := mk_Run {
  run_fit : Fit;
  run_i : Z;
  run_warned : bool
}.

(** [for (i=1;i<=maxI;++i) { OptDec(); ReplaceFit(); ... }], entered at the
    loop test with the current [i]; one unit of fuel per pass. *)
Fixpoint main_loop (fuel : nat) (p : Params) (e : Tables) (i : Z) (s : Fit)
  (warned : bool) : option Run :=
  if (i <=? maxI)%Z then
    match fuel with
    | O => None
    | S k =>
        let s' := ReplaceFit (OptDec p e s) in
        if Qltb (totfitdiff s') eps then Some (mk_Run s' i warned)
        else main_loop k p e (i + 1)%Z s'
               (if (i =? maxI)%Z then true else warned)
    end
  else Some (mk_Run s i warned).

(** The calls of [main] up to the end of the iteration, on tables [e]
    filled beforehand. *)
Definition main_iteration (p : Params) (e : Tables) (s : Fit) : option Run :=
  main_loop (Z.to_nat maxI) p e 1%Z (FinalFit e s) false.

(** A line of the strategy table: [t], [d], [ts], [hormone[t][ts][d]]. *)
Record StratRow := mk_StratRow {
  row_t : Z;
  row_d : Z;
  row_ts : Z;
  row_hormone : Z
}.

(** [PrintStrat]: the lines appended to the output, in order, and the
    number written after [nIterations]. *)
Definition PrintStrat (hor : Z -> Z -> Z -> Z) (i : Z) (out : list StratRow)
  : list StratRow * Z :=
  (for_up 0 maxT (fun t =>
     for_up 0 (maxTs - 1) (fun ts =>
       for_up 0 maxD (fun d out =>
         out ++ [mk_StratRow t d ts (hor t ts d)]))) out, i).

(** ** The [while] loop of [fwdCalc] *)

(** The conversion of a [double] to [int]: truncation toward zero. *)
Definition Qtrunc (x : Q) : Z := if Qltb x 0 then Qceiling x else Qfloor x.

(** The unqualified call [abs(x)] on a [double] in the first statement of
    the normalisation.  With [<cstdlib>] and [<cmath>] included and no
    [using], the headers decide whether it names C's [int abs(int)]
    ([int_abs = true]: the argument is converted to [int] first) or the
    [double] overload ([int_abs = false]). *)
Definition abs_call (int_abs : bool) (x : Q) : Q :=
  if int_abs then inject_Z (Z.abs (Qtrunc x)) else Qabs x.

(** The normalisation of one state, with the running [maxfreqdiff]. *)
Definition fwd_norm_cell_diff (t d h : Z) (sm : Fwd * Q) : option (Fwd * Q) :=
  let (s, maxfreqdiff) := sm in
  match ddiv (F s t maxTs d h) (1 - predDeaths s - damageDeaths s) with
  | None => None
  | Some q =>
      let f1 := upd4 (F s) t maxTs d h q in
      let maxfreqdiff :=
        std_max maxfreqdiff (Qabs (f1 t maxTs d h - f1 t 0%Z d h)) in
      let f2 := upd4 f1 t 0%Z d h (f1 t maxTs d h) in
      let f3 := for_up 1 maxTs (fun ts f => upd4 f t ts d h 0) f2 in
      Some (mk_Fwd f3 (predDeaths s) (damageDeaths s) (bkgrndDeaths s),
            maxfreqdiff)
  end.

(** The normalisation at the breeding point and the new [maxfreqdiff]. *)
Definition fwd_normalise_diff (int_abs : bool) (s : Fwd) : option (Fwd * Q) :=
  match ddiv (F s 1%Z maxTs 0%Z 0%Z)
             (1 - predDeaths s - damageDeaths s - bkgrndDeaths s) with
  | None => None
  | Some q =>
      let f := upd4 (F s) 1%Z maxTs 0%Z 0%Z q in
      let maxfreqdiff :=
        abs_call int_abs (f 1%Z maxTs 0%Z 0%Z - f 1%Z 0%Z 0%Z 0%Z) in
      for_up_opt 1 maxT (fun t =>
        for_up_opt 0 maxD (fun d =>
          for_up_opt 0 maxH (fun h => fwd_norm_cell_diff t d h)))
        (mk_Fwd f (predDeaths s) (damageDeaths s) (bkgrndDeaths s),
         maxfreqdiff)
  end.

(** How [fwdCalc]'s loop ends: it leaves with the pass counter [i], the
    state and the last [maxfreqdiff]; or a division had a zero divisor; or
    the fuel of the model ran out. *)
Inductive fwd_outcome : Type :=
| fwd_done (i : Z) (s : Fwd) (maxfreqdiff : Q)
| fwd_undefined
| fwd_out_of_fuel.

(** One full pass of the [while] body, with the new [maxfreqdiff]. *)
Definition fwd_pass_diff (int_abs : bool) (p : Params) (e : Tables)
  (hor : Z -> Z -> Z -> Z) (s : Fwd) : option (Fwd * Q) :=
  fwd_normalise_diff int_abs (fwd_sweep p e hor s).

(** [while (maxfreqdiff > 0.000001) { i++; pass }], one unit of fuel per
    pass. *)
Fixpoint fwdCalc_loop (fuel : nat) (pass : Fwd -> option (Fwd * Q)) (i : Z)
  (maxfreqdiff : Q) (s : Fwd) : fwd_outcome :=
  if Qltb eps maxfreqdiff then
    match fuel with
    | O => fwd_out_of_fuel
    | S k =>
        match pass s with
        | None => fwd_undefined
        | Some (s', maxfreqdiff') =>
            fwdCalc_loop k pass (i + 1)%Z maxfreqdiff' s'
        end
    end
  else fwd_done i s maxfreqdiff.

(** [fwdCalc] up to the end of its loop. *)
Definition fwdCalc (fuel : nat) (int_abs : bool) (p : Params) (e : Tables)
  (hor : Z -> Z -> Z -> Z) (s0 : Fwd) : fwd_outcome :=
  fwdCalc_loop fuel (fwd_pass_diff int_abs p e hor) 0%Z 1 (fwd_init s0).

(** ** [SimAttacks] *)

(** An element read from [hormone], a vector of [maxT+1] by [maxTs+1] by
    [maxD+1] entries, or from the array [dnew] of [maxD+1] by [maxH+1]
    entries: [None] outside these bounds, where [operator[]] and the
    array subscript have no defined result. *)
Definition hormone_at (hor : Z -> Z -> Z -> Z) (t ts d : Z) : option Z :=
  if ((0 <=? t) && (t <=? maxT) && (0 <=? ts) && (ts <=? maxTs)
      && (0 <=? d) && (d <=? maxD))%Z
  then Some (hor t ts d) else None.

Definition dnew_at (e : Tables) (d h : Z) : option Q :=
  if ((0 <=? d) && (d <=? maxD) && (0 <=? h) && (h <=? maxH))%Z
  then Some (dnew e d h) else None.

(** A line of the simulation's output. *)
Record SimRow := mk_SimRow {
  sim_time : Z;
  sim_t : Z;
  sim_ts : Z;
  sim_d : Z;
  sim_h : Z;
  sim_attack : bool;
  sim_reproduce : Z
}.

(** The locals that live across the passes of the loop, and the lines
    written so far. *)
Record Sim := mk_Sim {
  cur_t : Z;
  cur_ts : Z;
  cur_d : Z;
  cur_h : Z;
  sim_out : list SimRow
}.

Definition time_sim_max : Z := maxTs * 3.
Definition treproduce : Z := 40.

(** One pass of the loop at [time_i]; [u time_i] is the number
    [Uniform(mt)] returns in that pass, and [%] on [int] is [Z.rem], the
    remainder of the division truncated toward zero. *)
Definition SimAttacks_step (hor : Z -> Z -> Z -> Z) (e : Tables)
  (u : Z -> Q) (time_i : Z) (st : Sim) : option Sim :=
  let attack := ((16 <? time_i) && (time_i <? 33))%Z in
  let t := if attack then 0%Z else (cur_t st + 1)%Z in
  let t := if (maxT <=? t)%Z then maxT else t in
  match hormone_at hor t (Z.rem (cur_ts st) maxTs) (cur_d st) with
  | None => None
  | Some h =>
      match dnew_at e (cur_d st) h with
      | None => None
      | Some x =>
          let d1 := Qfloor x in
          let d2 := Qceiling x in
          let ddec := x - inject_Z d1 in
          let reproduce := Z.rem (cur_ts st) maxTs in
          let d := if Qltb (u time_i) ddec then d2 else d1 in
          Some (mk_Sim t (cur_ts st + 1)%Z d h
                  (sim_out st
                   ++ [mk_SimRow time_i t (cur_ts st) d h attack reproduce]))
      end
  end.

Definition SimAttacks_loop (hor : Z -> Z -> Z -> Z) (e : Tables)
  (u : Z -> Q) (st : Sim) : option Sim :=
  for_up_opt 0 (time_sim_max - 1) (SimAttacks_step hor e u) st.

(** [SimAttacks]: the lines written, or [None] when a read falls outside
    its vector or array. *)
Definition SimAttacks (hor : Z -> Z -> Z -> Z) (e : Tables) (u : Z -> Q)
  : option (list SimRow) :=
  let t := maxT in
  let ts := (maxTs - treproduce)%Z in
  let d := 0%Z in
  match hormone_at hor t ts d with
  | None => None
  | Some h =>
      match SimAttacks_loop hor e u (mk_Sim t ts d h []) with
      | Some st => Some (sim_out st)
      | None => None
      end
  end.

(** * Verification *)

(** ** Loops and arrays *)

Local Open Scope Z_scope.

Lemma in_zrange (i lo hi : Z) : In i (zrange lo hi) <-> lo <= i <= hi.
Proof.
  unfold zrange. rewrite in_map_iff. split.
  - intros [k [Hk Hin]]. apply in_seq in Hin. lia.
  - intros Hi. exists (Z.to_nat (i - lo)). split; [lia|].
    apply in_seq. lia.
Qed.

Section FoldFacts.
Context {S : Type} (body : Z -> S -> S).

Lemma fold_keeps (I : S -> Prop) (l : list Z) :
  (forall i s, In i l -> I s -> I (body i s)) ->
  forall s, I s -> I (fold_left (fun s i => body i s) l s).
Proof.
  induction l as [|a l IH]; intros Hstep s Hs; simpl; [exact Hs|].
  apply IH.
  - intros i s' Hi. apply Hstep. now right.
  - apply Hstep; [now left|exact Hs].
Qed.

Lemma fold_reaches (I : S -> Prop) (c : Z) (l : list Z) :
  In c l ->
  (forall s, I (body c s)) ->
  (forall i s, In i l -> I s -> I (body i s)) ->
  forall s, I (fold_left (fun s i => body i s) l s).
Proof.
  induction l as [|a l IH]; intros Hc Hset Hkeep s; simpl; [contradiction|].
  destruct (Z.eq_dec a c) as [->|Hne].
  - apply fold_keeps; [|apply Hset].
    intros i s' Hi. apply Hkeep. now right.
  - apply IH; [|exact Hset|].
    + destruct Hc as [Hc|Hc]; [contradiction|exact Hc].
    + intros i s' Hi. apply Hkeep. now right.
Qed.

(** A property kept by every pass holds after the loop. *)
Lemma for_up_keeps (I : S -> Prop) (lo hi : Z) (s : S) :
  (forall i s, lo <= i <= hi -> I s -> I (body i s)) ->
  I s -> I (for_up lo hi body s).
Proof.
  intros Hstep Hs. unfold for_up. apply fold_keeps; [|exact Hs].
  intros i s' Hi. apply Hstep. now apply in_zrange.
Qed.

(** A property set by pass [c] and kept by every pass holds after the
    loop, whatever held before. *)
Lemma for_up_reaches (I : S -> Prop) (c lo hi : Z) (s : S) :
  lo <= c <= hi ->
  (forall s, I (body c s)) ->
  (forall i s, lo <= i <= hi -> I s -> I (body i s)) ->
  I (for_up lo hi body s).
Proof.
  intros Hc Hset Hkeep. unfold for_up. apply fold_reaches with (c := c).
  - now apply in_zrange.
  - exact Hset.
  - intros i s' Hi. apply Hkeep. now apply in_zrange.
Qed.

Lemma for_down_keeps (I : S -> Prop) (hi lo : Z) (s : S) :
  (forall i s, lo <= i <= hi -> I s -> I (body i s)) ->
  I s -> I (for_down hi lo body s).
Proof.
  intros Hstep Hs. unfold for_down. apply fold_keeps; [|exact Hs].
  intros i s' Hi. apply Hstep. apply in_zrange. now apply in_rev.
Qed.

Lemma for_down_reaches (I : S -> Prop) (c hi lo : Z) (s : S) :
  lo <= c <= hi ->
  (forall s, I (body c s)) ->
  (forall i s, lo <= i <= hi -> I s -> I (body i s)) ->
  I (for_down hi lo body s).
Proof.
  intros Hc Hset Hkeep. unfold for_down. apply fold_reaches with (c := c).
  - apply in_rev. rewrite rev_involutive. now apply in_zrange.
  - exact Hset.
  - intros i s' Hi. apply Hkeep. apply in_zrange. now apply in_rev.
Qed.
(** An invariant that depends on the loop counter. *)
Lemma fold_counts (I : Z -> S -> Prop) (lo : Z) (s : S) (n : nat) :
  I lo s ->
  (forall i s, lo <= i < lo + Z.of_nat n -> I i s -> I (i + 1) (body i s)) ->
  I (lo + Z.of_nat n)
    (fold_left (fun s i => body i s)
       (map (fun k => lo + Z.of_nat k) (seq 0 n)) s).
Proof.
  intros H0. induction n as [|n IH]; intros Hstep.
  - simpl. now rewrite Z.add_0_r.
  - rewrite seq_S, map_app, fold_left_app, Nat2Z.inj_succ.
    cbn [map fold_left Nat.add].
    replace (lo + Z.succ (Z.of_nat n)) with (lo + Z.of_nat n + 1) by lia.
    apply Hstep; [lia|]. apply IH.
    intros i s' Hi. apply Hstep. lia.
Qed.

Lemma for_up_counts (I : Z -> S -> Prop) (lo hi : Z) (s : S) :
  lo <= hi + 1 ->
  I lo s ->
  (forall i s, lo <= i <= hi -> I i s -> I (i + 1) (body i s)) ->
  I (hi + 1) (for_up lo hi body s).
Proof.
  intros Hle H0 Hstep. unfold for_up, zrange.
  pose proof (fold_counts I lo s (Z.to_nat (hi + 1 - lo)) H0) as H.
  replace (lo + Z.of_nat (Z.to_nat (hi + 1 - lo))) with (hi + 1) in H
    by lia.
  apply H. intros i s' Hi. apply Hstep. lia.
Qed.

(** A loop over an empty range does nothing. *)
Lemma for_up_empty (lo hi : Z) (s : S) : hi < lo -> for_up lo hi body s = s.
Proof.
  intros Hlt. unfold for_up, zrange.
  replace (Z.to_nat (hi + 1 - lo)) with O by lia. reflexivity.
Qed.

(** An ascending loop ends with its last pass. *)
Lemma for_up_last (lo hi : Z) (s : S) :
  lo <= hi ->
  for_up lo hi body s = body hi (for_up lo (hi - 1) body s).
Proof.
  intros Hle. unfold for_up, zrange.
  replace (Z.to_nat (hi + 1 - lo)) with (Datatypes.S (Z.to_nat (hi - lo)))
    by lia.
  replace (hi - 1 + 1 - lo) with (hi - lo) by lia.
  rewrite seq_S, map_app, fold_left_app. simpl.
  replace (lo + Z.of_nat (Z.to_nat (hi - lo))) with hi by lia.
  reflexivity.
Qed.

(** A descending loop runs its first pass on the incoming state. *)
Lemma for_down_first (hi lo : Z) (s : S) :
  lo <= hi ->
  for_down hi lo body s = for_down (hi - 1) lo body (body hi s).
Proof.
  intros Hle. unfold for_down, zrange.
  replace (Z.to_nat (hi + 1 - lo)) with (Datatypes.S (Z.to_nat (hi - lo)))
    by lia.
  replace (hi - 1 + 1 - lo) with (hi - lo) by lia.
  rewrite seq_S, map_app, rev_app_distr. simpl.
  replace (lo + Z.of_nat (Z.to_nat (hi - lo))) with hi by lia.
  reflexivity.
Qed.

(** A descending loop can be cut after the pass [k+1]. *)
Lemma for_down_split (hi k lo : Z) (s : S) :
  lo <= k + 1 -> k <= hi ->
  for_down hi lo body s = for_down k lo body (for_down hi (k + 1) body s).
Proof.
  intros Hlo Hhi. unfold for_down.
  rewrite <- fold_left_app, <- rev_app_distr. f_equal. f_equal.
  unfold zrange.
  replace (Z.to_nat (hi + 1 - lo))
    with (Z.to_nat (k + 1 - lo) + Z.to_nat (hi + 1 - (k + 1)))%nat by lia.
  rewrite seq_app, map_app. f_equal.
  rewrite Nat.add_0_l.
  generalize (Z.to_nat (hi + 1 - (k + 1))). intros n.
  assert (H : forall m a,
            map (fun j => lo + Z.of_nat j) (seq (a + Z.to_nat (k + 1 - lo)) m)
            = map (fun j => k + 1 + Z.of_nat j) (seq a m)).
  { induction m as [|m IH]; intros a; simpl; [reflexivity|].
    f_equal; [lia|]. apply (IH (Datatypes.S a)). }
  apply (H n O).
Qed.

(** The same, under an invariant [J] of the loop. *)
Lemma fold_reaches_under (J I : S -> Prop) (c : Z) (l : list Z) :
  In c l ->
  (forall i s, In i l -> J s -> J (body i s)) ->
  (forall s, J s -> I (body c s)) ->
  (forall i s, In i l -> J s -> I s -> I (body i s)) ->
  forall s, J s -> I (fold_left (fun s i => body i s) l s).
Proof.
  induction l as [|a l IH]; intros Hc HJ Hset Hkeep s Hs; simpl;
    [contradiction|].
  assert (HJa : J (body a s)) by (apply HJ; [now left|exact Hs]).
  destruct (Z.eq_dec a c) as [->|Hne].
  - apply (fold_keeps (fun s => J s /\ I s)).
    + intros i s' Hi [H1 H2]. split.
      * apply HJ; [now right|exact H1].
      * apply Hkeep; [now right|exact H1|exact H2].
    + split; [exact HJa|]. now apply Hset.
  - apply IH; try assumption.
    + destruct Hc as [Hc|Hc]; [contradiction|exact Hc].
    + intros i s' Hi. apply HJ. now right.
    + intros i s' Hi. apply Hkeep. now right.
Qed.

Lemma for_up_keeps_under (J I : S -> Prop) (lo hi : Z) (s : S) :
  (forall i s, lo <= i <= hi -> J s -> J (body i s)) ->
  (forall i s, lo <= i <= hi -> J s -> I s -> I (body i s)) ->
  J s -> I s -> I (for_up lo hi body s).
Proof.
  intros HJ HI Hs1 Hs2.
  assert (H : J (for_up lo hi body s) /\ I (for_up lo hi body s)).
  { apply (for_up_keeps (fun s => J s /\ I s)); [|auto].
    intros i s' Hi [H1 H2]. split; [now apply HJ|now apply HI]. }
  apply H.
Qed.

Lemma for_up_reaches_under (J I : S -> Prop) (c lo hi : Z) (s : S) :
  lo <= c <= hi ->
  (forall i s, lo <= i <= hi -> J s -> J (body i s)) ->
  (forall s, J s -> I (body c s)) ->
  (forall i s, lo <= i <= hi -> J s -> I s -> I (body i s)) ->
  J s -> I (for_up lo hi body s).
Proof.
  intros Hc HJ Hset Hkeep Hs. unfold for_up.
  apply fold_reaches_under with (J := J) (c := c); try assumption.
  - now apply in_zrange.
  - intros i s' Hi. apply HJ. now apply in_zrange.
  - intros i s' Hi. apply Hkeep. now apply in_zrange.
Qed.
End FoldFacts.

(** From here on the loops are used through the lemmas above. *)
Opaque for_up for_down.

Lemma upd1_same {A} (f : Z -> A) i v : upd1 f i v i = v.
Proof. unfold upd1. now rewrite Z.eqb_refl. Qed.

Lemma upd1_other {A} (f : Z -> A) i v i' : i' <> i -> upd1 f i v i' = f i'.
Proof. intros H. unfold upd1. now apply Z.eqb_neq in H as ->. Qed.

Lemma upd3_same {A} (f : Z -> Z -> Z -> A) i j k v : upd3 f i j k v i j k = v.
Proof. unfold upd3. now rewrite !Z.eqb_refl. Qed.

Lemma upd3_other {A} (f : Z -> Z -> Z -> A) i j k v i' j' k' :
  i' <> i \/ j' <> j \/ k' <> k -> upd3 f i j k v i' j' k' = f i' j' k'.
Proof.
  intros H. unfold upd3.
  destruct (Z.eqb_spec i' i), (Z.eqb_spec j' j), (Z.eqb_spec k' k);
    simpl; try reflexivity.
  exfalso. destruct H as [H|[H|H]]; contradiction.
Qed.

Lemma upd4_same {A} (f : Z -> Z -> Z -> Z -> A) i j k l v :
  upd4 f i j k l v i j k l = v.
Proof. unfold upd4. now rewrite !Z.eqb_refl. Qed.

Lemma upd4_other {A} (f : Z -> Z -> Z -> Z -> A) i j k l v i' j' k' l' :
  i' <> i \/ j' <> j \/ k' <> k \/ l' <> l ->
  upd4 f i j k l v i' j' k' l' = f i' j' k' l'.
Proof.
  intros H. unfold upd4.
  destruct (Z.eqb_spec i' i), (Z.eqb_spec j' j), (Z.eqb_spec k' k),
    (Z.eqb_spec l' l); simpl; try reflexivity.
  exfalso. destruct H as [H|[H|[H|H]]]; contradiction.
Qed.

(** An update either hits the cell read or leaves it alone. *)
Lemma upd3_cases {A} (f : Z -> Z -> Z -> A) i j k v i' j' k' :
  (i' = i /\ j' = j /\ k' = k /\ upd3 f i j k v i' j' k' = v)
  \/ ((i' <> i \/ j' <> j \/ k' <> k)
      /\ upd3 f i j k v i' j' k' = f i' j' k').
Proof.
  destruct (Z.eq_dec i' i) as [->|Hi];
    [destruct (Z.eq_dec j' j) as [->|Hj];
       [destruct (Z.eq_dec k' k) as [->|Hk]|]|].
  - left. now rewrite upd3_same.
  - right. split; [auto|]. apply upd3_other; auto.
  - right. split; [auto|]. apply upd3_other; auto.
  - right. split; [auto|]. apply upd3_other; auto.
Qed.

Lemma upd4_cases {A} (f : Z -> Z -> Z -> Z -> A) i j k l v i' j' k' l' :
  (i' = i /\ j' = j /\ k' = k /\ l' = l
   /\ upd4 f i j k l v i' j' k' l' = v)
  \/ ((i' <> i \/ j' <> j \/ k' <> k \/ l' <> l)
      /\ upd4 f i j k l v i' j' k' l' = f i' j' k' l').
Proof.
  destruct (Z.eq_dec i' i) as [->|Hi];
    [destruct (Z.eq_dec j' j) as [->|Hj];
       [destruct (Z.eq_dec k' k) as [->|Hk];
          [destruct (Z.eq_dec l' l) as [->|Hl]|]|]|].
  - left. now rewrite upd4_same.
  - right. split; [auto|]. apply upd4_other; auto.
  - right. split; [auto|]. apply upd4_other; auto.
  - right. split; [auto|]. apply upd4_other; auto.
  - right. split; [auto|]. apply upd4_other; auto.
Qed.

(** ** Golden-section search *)

Arguments gs_round : simpl never.

Lemma Qltb_lt (a b : Q) : Qltb a b = true <-> (a < b)%Q.
Proof.
  unfold Qltb. rewrite negb_true_iff. split.
  - intros H. apply Qnot_le_lt. intros Hle.
    apply Qle_bool_iff in Hle. congruence.
  - intros H. destruct (Qle_bool b a) eqn:E; [|reflexivity].
    apply Qle_bool_iff in E. exfalso. exact (Qlt_not_le _ _ H E).
Qed.

Lemma gss_paths_sound (P : Z -> bool) (f : Z -> Q) :
  forall fuel st,
    gss_paths fuel P (LHS st) (RHS st) (x1 st) (x2 st) = true ->
    exists st', gss_loop fuel f st = Some st'
                /\ P (x1 st') = true /\ x2 st' <= x1 st'.
Proof.
  induction fuel as [|k IH]; intros st H; simpl in *;
    destruct (Z.ltb_spec (x1 st) (x2 st)) as [Hlt|Hge];
    try discriminate; try (exists st; repeat split; [exact H|lia]).
  apply andb_true_iff in H as [H H2].
  apply andb_true_iff in H as [_ H1].
  unfold gss_body. destruct (Qltb (f (x1 st)) (f (x2 st)));
    apply IH; simpl; assumption.
Qed.

Lemma gss_peak_paths_sound (f : Z -> Q) (m : Z) :
  strict_peak f m ->
  forall fuel st,
    gss_peak_paths fuel m (LHS st) (RHS st) (x1 st) (x2 st) = true ->
    exists st', gss_loop fuel f st = Some st' /\ Z.abs (x1 st' - m) <= 1.
Proof.
  intros [Hup Hdown].
  induction fuel as [|k IH]; intros st H; simpl in *;
    destruct (Z.ltb_spec (x1 st) (x2 st)) as [Hlt|Hge];
    try discriminate; try (exists st; split; [reflexivity|lia]).
  destruct (Z.leb_spec 0 (x1 st)) as [Ha|]; [|discriminate].
  destruct (Z.leb_spec (x2 st) maxH) as [Hb|]; [|discriminate].
  simpl in H. unfold gss_body.
  destruct (Qltb (f (x1 st)) (f (x2 st))) eqn:E.
  - apply Qltb_lt in E.
    destruct (Z.leb_spec m (x1 st)) as [H1|H1].
    + exfalso. apply (Qlt_irrefl (f (x1 st))).
      eapply Qlt_trans; [exact E|]. apply Hdown; lia.
    + apply IH. simpl.
      destruct (gss_peak_paths k m (x1 st) (RHS st) (x2 st) _);
        [reflexivity|discriminate].
  - destruct (Z.leb_spec (x2 st) m) as [H2|H2].
    + assert (Hlt' : (f (x1 st) < f (x2 st))%Q) by (apply Hup; lia).
      apply Qltb_lt in Hlt'. congruence.
    + apply IH. simpl.
      destruct (if m <=? x1 st then true else _); [exact H|discriminate].
Qed.

Lemma gss_all_paths_leave :
  gss_paths gss_fuel (fun a => (1 <=? a) && (a <=? maxH - 1))
            0 maxH (maxH - gs_round maxH 0) (0 + gs_round maxH 0) = true.
Proof. vm_compute. reflexivity. Qed.

Lemma gss_all_peaks_found :
  forallb (fun m => gss_peak_paths gss_fuel m 0 maxH (maxH - gs_round maxH 0)
                                   (0 + gs_round maxH 0))
          (zrange 0 maxH) = true.
Proof. vm_compute. reflexivity. Qed.

(** The loop leaves within [gss_fuel] passes, with [1 <= x1 <= maxH-1]. *)
Lemma gss_loop_total (f : Z -> Q) (fx1 fx2 : Q) :
  exists st, gss_loop gss_fuel f (gss_init fx1 fx2) = Some st
             /\ 1 <= x1 st <= maxH - 1 /\ x2 st <= x1 st.
Proof.
  destruct (gss_paths_sound _ f gss_fuel (gss_init fx1 fx2)
              gss_all_paths_leave) as [st [Hrun [HP Hx]]].
  exists st. split; [exact Hrun|]. split; [|exact Hx].
  apply andb_true_iff in HP as [H1 H2].
  apply Z.leb_le in H1, H2. lia.
Qed.

Lemma golden_section_run (f : Z -> Q) (fx1 fx2 : Q) :
  gss_loop gss_fuel f (gss_init fx1 fx2) = Some (golden_section f fx1 fx2).
Proof.
  unfold golden_section.
  destruct (gss_loop_total f fx1 fx2) as [st [-> _]]. reflexivity.
Qed.

Lemma golden_section_range (f : Z -> Q) (fx1 fx2 : Q) :
  1 <= x1 (golden_section f fx1 fx2) <= maxH - 1.
Proof.
  destruct (gss_loop_total f fx1 fx2) as [st [Hrun [Hr _]]].
  rewrite golden_section_run in Hrun.
  injection Hrun as <-. exact Hr.
Qed.

(** The locals [fitness_x1], [fitness_x2] are overwritten by the first
    pass, and the first pass always runs: what they held does not matter. *)
Lemma gs_round_maxH : gs_round maxH 0 = 309.
Proof. vm_compute. reflexivity. Qed.

Lemma golden_section_locals (f : Z -> Q) (a b a' b' : Q) :
  golden_section f a b = golden_section f a' b'.
Proof.
  assert (E : gss_loop gss_fuel f (gss_init a b)
              = gss_loop gss_fuel f (gss_init a' b')).
  { unfold gss_fuel, gss_init. rewrite gs_round_maxH. reflexivity. }
  rewrite !golden_section_run in E. now injection E.
Qed.

(** Two rows that agree on [0..maxH] drive the same search. *)
Lemma gss_loop_ext (f g : Z -> Q) (P : Z -> bool) :
  (forall h, 0 <= h <= maxH -> f h = g h) ->
  forall fuel st,
    gss_paths fuel P (LHS st) (RHS st) (x1 st) (x2 st) = true ->
    gss_loop fuel f st = gss_loop fuel g st.
Proof.
  intros Hfg. induction fuel as [|k IH]; intros st H; simpl in *;
    destruct (Z.ltb_spec (x1 st) (x2 st)) as [Hlt|Hge];
    try discriminate; try reflexivity.
  apply andb_true_iff in H as [H H2].
  apply andb_true_iff in H as [H H1].
  apply andb_true_iff in H as [Ha Hb].
  apply Z.leb_le in Ha, Hb.
  assert (E : gss_body f st = gss_body g st).
  { unfold gss_body. rewrite !Hfg by lia. reflexivity. }
  rewrite <- E. apply IH.
  unfold gss_body. destruct (Qltb (f (x1 st)) (f (x2 st))); simpl; assumption.
Qed.

Lemma golden_section_ext (f g : Z -> Q) (a b : Q) :
  (forall h, 0 <= h <= maxH -> f h = g h) ->
  golden_section f a b = golden_section g a b.
Proof.
  intros Hfg. unfold golden_section.
  rewrite (gss_loop_ext f g _ Hfg gss_fuel (gss_init a b) gss_all_paths_leave).
  reflexivity.
Qed.

(** The fitness value the search keeps is a value of the row it read. *)
Lemma gss_loop_reads (f : Z -> Q) (P : Z -> bool) :
  forall fuel st st',
    gss_paths fuel P (LHS st) (RHS st) (x1 st) (x2 st) = true ->
    gss_loop fuel f st = Some st' ->
    (exists k, (0 <= k <= maxH)%Z /\ fitness_x1 st = f k) ->
    exists k, (0 <= k <= maxH)%Z /\ fitness_x1 st' = f k.
Proof.
  induction fuel as [|n IH]; intros st st' H Hrun Hk; simpl in *;
    destruct (Z.ltb_spec (x1 st) (x2 st)) as [Hlt|Hge];
    try discriminate; try (injection Hrun as <-; exact Hk).
  apply andb_true_iff in H as [H H2].
  apply andb_true_iff in H as [H H1].
  apply andb_true_iff in H as [Ha Hb].
  apply Z.leb_le in Ha, Hb.
  apply (IH (gss_body f st) st'); [|exact Hrun|].
  - unfold gss_body. destruct (Qltb (f (x1 st)) (f (x2 st))); simpl;
      assumption.
  - exists (x1 st). split; [lia|].
    unfold gss_body. destruct (Qltb (f (x1 st)) (f (x2 st))); reflexivity.
Qed.

Lemma golden_section_reads (f : Z -> Q) (a b : Q) :
  exists k, (0 <= k <= maxH)%Z /\ fitness_x1 (golden_section f a b) = f k.
Proof.
  rewrite (golden_section_locals f a b (f 0%Z) (f 0%Z)).
  apply (gss_loop_reads f _ gss_fuel (gss_init (f 0%Z) (f 0%Z)) _
           gss_all_paths_leave (golden_section_run f _ _)).
  exists 0%Z. split; [unfold maxH; lia|reflexivity].
Qed.

Definition same_run (f : Z -> Q) (sf sz : gss_state) : Prop :=
  LHS sf = LHS sz /\ RHS sf = RHS sz /\ x1 sf = x1 sz /\ x2 sf = x2 sz
  /\ (forall k, fitness_x1 sz = inject_Z k -> fitness_x1 sf = f k).

Lemma inject_Z_eq (a b : Z) : inject_Z a = inject_Z b -> a = b.
Proof. unfold inject_Z. now intros [= ->]. Qed.

Lemma gss_loop_increasing (f : Z -> Q) (P : Z -> bool) :
  strictly_increasing f ->
  forall fuel sf sz,
    gss_paths fuel P (LHS sz) (RHS sz) (x1 sz) (x2 sz) = true ->
    same_run f sf sz ->
    exists sf' sz',
      gss_loop fuel f sf = Some sf'
      /\ gss_loop fuel inject_Z sz = Some sz'
      /\ same_run f sf' sz'.
Proof.
  intros Hinc. induction fuel as [|k IH]; intros sf sz H HR;
    pose proof HR as (HL & HRr & Hx1 & Hx2 & Hfx); simpl in *;
    rewrite Hx1, Hx2;
    destruct (Z.ltb_spec (x1 sz) (x2 sz)) as [Hlt|Hge];
    try discriminate;
    try (exists sf, sz; split; [reflexivity|split; [reflexivity|exact HR]]).
  apply andb_true_iff in H as [H H2].
  apply andb_true_iff in H as [H H1].
  apply andb_true_iff in H as [Ha Hb].
  apply Z.leb_le in Ha, Hb.
  assert (Ef : Qltb (f (x1 sz)) (f (x2 sz)) = true)
    by (apply Qltb_lt, Hinc; lia).
  assert (Ez : Qltb (inject_Z (x1 sz)) (inject_Z (x2 sz)) = true)
    by (apply Qltb_lt; rewrite <- Zlt_Qlt; exact Hlt).
  apply IH.
  - unfold gss_body. rewrite Ez. simpl. exact H1.
  - unfold gss_body, same_run. rewrite Hx1, Hx2, HRr, Ef, Ez. simpl.
    repeat split; try reflexivity.
    intros k' Hk'. apply inject_Z_eq in Hk'. now subst.
Qed.

Lemma gss_identity_row :
  gss_loop gss_fuel inject_Z (gss_init (inject_Z 0) (inject_Z 0))
  = Some (mk_gss 498 500 499 499 (inject_Z 498) (inject_Z 499)).
Proof. vm_compute. reflexivity. Qed.

(** On a strictly increasing row the search stops at [maxH-1] and keeps
    as [fitness_x1] the value read at [maxH-2]. *)
Lemma golden_section_increasing (f : Z -> Q) (a b : Q) :
  strictly_increasing f ->
  x1 (golden_section f a b) = maxH - 1
  /\ fitness_x1 (golden_section f a b) = f (maxH - 2).
Proof.
  intros Hinc. rewrite (golden_section_locals f a b (f 0) (f 0)).
  destruct (gss_loop_increasing f _ Hinc gss_fuel
              (gss_init (f 0) (f 0)) (gss_init (inject_Z 0) (inject_Z 0))
              gss_all_paths_leave)
    as (sf' & sz' & Hf & Hz & HR).
  { unfold same_run, gss_init. simpl. repeat split.
    intros k Hk. apply inject_Z_eq in Hk. now subst. }
  rewrite golden_section_run in Hf. injection Hf as <-.
  rewrite gss_identity_row in Hz. injection Hz as <-.
  destruct HR as (_ & _ & Hx1 & _ & Hfx). simpl in *.
  split; [exact Hx1|]. apply Hfx. reflexivity.
Qed.

(** C9.  The [while] loop of the golden-section search terminates for
    every content of [Wnext]: started as [OptDec] starts it, on the row
    [Wnext[min(maxT,t+1)][ts+1][d][.]] of any array [wn] and with any
    values in the two fitness locals, it leaves within [gss_fuel = 12]
    passes, in a state where [x1 < x2] fails. *)
Theorem gss_while_terminates (wn : Z -> Z -> Z -> Z -> Q) (t ts d : Z)
  (fx1 fx2 : Q) :
  exists st,
    gss_loop gss_fuel (fun h => wn (Z.min maxT (t + 1)) (ts + 1) d h)
             (gss_init fx1 fx2) = Some st
    /\ ~ x1 st < x2 st.
Proof.
  destruct (gss_loop_total (fun h => wn (Z.min maxT (t + 1)) (ts + 1) d h)
              fx1 fx2) as [st [Hrun [_ Hx]]].
  exists st. split; [exact Hrun|lia].
Qed.

Lemma gss_peak_within_one (f : Z -> Q) (m : Z) (fx1 fx2 : Q) :
  0 <= m <= maxH ->
  strict_peak f m ->
  Z.abs (x1 (golden_section f fx1 fx2) - m) <= 1.
Proof.
  intros Hm Hpeak.
  pose proof gss_all_peaks_found as Hall.
  rewrite forallb_forall in Hall.
  specialize (Hall m (proj2 (in_zrange m 0 maxH) Hm)).
  destruct (gss_peak_paths_sound f m Hpeak gss_fuel (gss_init fx1 fx2) Hall)
    as [st [Hrun Hst]].
  rewrite golden_section_run in Hrun. injection Hrun as <-. exact Hst.
Qed.

(** On a row with a strict peak at [m] the search stops within one
    lattice unit of [m], whatever the two fitness locals held. *)
Theorem golden_section_near_peak (f : Z -> Q) (m : Z) (fx1 fx2 : Q) :
  0 <= m <= maxH ->
  strict_peak f m ->
  gss_loop gss_fuel f (gss_init fx1 fx2) = Some (golden_section f fx1 fx2)
  /\ Z.abs (x1 (golden_section f fx1 fx2) - m) <= 1.
Proof.
  intros Hm Hpeak. split.
  - apply golden_section_run.
  - now apply gss_peak_within_one.
Qed.

Lemma golden_section_near_peak_witness :
  Z.abs (x1 (golden_section
               (fun h => inject_Z (if h <=? 200 then h else 400 - h)) 0 0)
         - 200) <= 1.
Proof.
  refine (proj2 (golden_section_near_peak _ 200 0 0 _ _)).
  - unfold maxH. lia.
  - split; intros i j Hi Hij Hj; unfold maxH in *;
      rewrite <- Zlt_Qlt;
      destruct (Z.leb_spec i 200), (Z.leb_spec j 200); lia.
Defined.

(** ** [OptDec]: what each loop nest writes and what it leaves alone *)

Section OptDecFacts.
Variables (p : Params) (e : Tables).

(** The search writes [hormone], [Wopt] and the locals only. *)
Lemma OptDec_decide_frame (ts : Z) (s : Fit) :
  W (OptDec_decide ts s) = W s
  /\ Wnext (OptDec_decide ts s) = Wnext s
  /\ V (OptDec_decide ts s) = V s.
Proof.
  unfold OptDec_decide.
  apply for_up_keeps; [|auto]. intros t s1 _ H1.
  apply for_up_keeps; [|exact H1]. intros d s2 _ H2.
  exact H2.
Qed.

(** ... and, of these, only entries of its own epoch [ts]. *)
Lemma OptDec_decide_other_epoch (ts ts' : Z) (s : Fit) :
  ts' <> ts ->
  forall t d,
    hormone (OptDec_decide ts s) t ts' d = hormone s t ts' d
    /\ Wopt (OptDec_decide ts s) t ts' d = Wopt s t ts' d.
Proof.
  intros Hne. unfold OptDec_decide.
  apply for_up_keeps; [|auto]. intros t1 s1 _ H1.
  apply for_up_keeps; [|exact H1]. intros d1 s2 _ H2 t d.
  simpl. rewrite !upd3_other by auto. apply H2.
Qed.

(** The fitness step writes [W] and [Wnext] only. *)
Lemma OptDec_fitness_frame (ts : Z) (s : Fit) :
  hormone (OptDec_fitness p e ts s) = hormone s
  /\ Wopt (OptDec_fitness p e ts s) = Wopt s
  /\ V (OptDec_fitness p e ts s) = V s.
Proof.
  unfold OptDec_fitness.
  apply for_up_keeps; [|auto]. intros t s1 _ H1.
  apply for_up_keeps; [|exact H1]. intros d s2 _ H2.
  apply for_up_keeps; [|exact H2]. intros h s3 _ H3.
  exact H3.
Qed.

(** ... and, of these, only entries of its own epoch [ts]. *)
Lemma OptDec_fitness_other_epoch (ts ts' : Z) (s : Fit) :
  ts' <> ts ->
  forall t d h,
    W (OptDec_fitness p e ts s) t ts' d h = W s t ts' d h
    /\ Wnext (OptDec_fitness p e ts s) t ts' d h = Wnext s t ts' d h.
Proof.
  intros Hne. unfold OptDec_fitness.
  apply for_up_keeps; [|auto]. intros t1 s1 _ H1.
  apply for_up_keeps; [|exact H1]. intros d1 s2 _ H2.
  apply for_up_keeps; [|exact H2]. intros h1 s3 _ H3 t d h.
  simpl. rewrite !upd4_other by auto. apply H3.
Qed.

(** The value [W_value] reads [Wopt] in epoch [ts] only. *)
Lemma W_value_ext (w w' : Z -> Z -> Z -> Q) (t ts d h : Z) :
  (forall a b, w a ts b = w' a ts b) ->
  W_value p e w t ts d h = W_value p e w' t ts d h.
Proof. intros H. unfold W_value. rewrite !H. reflexivity. Qed.

(** What the fitness step leaves at one cell of its epoch. *)
Definition W_written (t ts d h : Z) (s : Fit) : Prop :=
  W s t ts d h = W_value p e (Wopt s) t ts d h
  /\ Wnext s t ts d h = W s t ts d h.

Lemma OptDec_fitness_cell_sets (t ts d h : Z) (s : Fit) :
  W_written t ts d h (OptDec_fitness_cell p e ts t d h s).
Proof. unfold W_written. simpl. rewrite !upd4_same. auto. Qed.

Lemma OptDec_fitness_cell_keeps (t ts d h ts' t' d' h' : Z) (s : Fit) :
  W_written t ts d h s ->
  W_written t ts d h (OptDec_fitness_cell p e ts' t' d' h' s).
Proof.
  intros [HW HWn]. unfold W_written. simpl.
  destruct (upd4_cases (W s) t' ts' d' h'
              (W_value p e (Wopt s) t' ts' d' h') t ts d h)
    as [(-> & -> & -> & -> & E)|[Hne E]].
  - rewrite !upd4_same. auto.
  - rewrite (upd4_other (Wnext s)) by exact Hne.
    rewrite E. auto.
Qed.

Lemma OptDec_fitness_sets (t ts d h : Z) (s : Fit) :
  1 <= t <= maxT -> 0 <= d <= maxD -> 0 <= h <= maxH ->
  W_written t ts d h (OptDec_fitness p e ts s).
Proof.
  intros Ht Hd Hh. unfold OptDec_fitness.
  apply for_up_reaches with (c := t); [exact Ht| |].
  - intros s1. apply for_up_reaches with (c := d); [exact Hd| |].
    + intros s2. apply for_up_reaches with (c := h); [exact Hh| |].
      * intros s3. apply OptDec_fitness_cell_sets.
      * intros h' s3 _. apply OptDec_fitness_cell_keeps.
    + intros d' s2 _ H2. apply for_up_keeps; [|exact H2].
      intros h' s3 _. apply OptDec_fitness_cell_keeps.
  - intros t' s1 _ H1. apply for_up_keeps; [|exact H1].
    intros d' s2 _ H2. apply for_up_keeps; [|exact H2].
    intros h' s3 _. apply OptDec_fitness_cell_keeps.
Qed.

Lemma OptDec_pass_keeps_W (t ts d h ts' : Z) (s : Fit) :
  ts' <> ts ->
  W_written t ts d h s ->
  W_written t ts d h (OptDec_fitness p e ts' (OptDec_decide ts' s)).
Proof.
  intros Hne [HW HWn]. unfold W_written.
  destruct (OptDec_fitness_other_epoch ts' ts (OptDec_decide ts' s)
              ltac:(auto) t d h) as [-> ->].
  destruct (OptDec_decide_frame ts' s) as (-> & -> & _).
  destruct (OptDec_fitness_frame ts' (OptDec_decide ts' s)) as (_ & -> & _).
  split; [|exact HWn]. rewrite HW. apply W_value_ext.
  intros a b. symmetry. now apply OptDec_decide_other_epoch.
Qed.

(** After [OptDec], every cell [(t, ts, d, h)] with [t >= 1] holds the
    value computed from the final [Wopt]. *)
Lemma OptDec_W_written (t ts d h : Z) (s : Fit) :
  1 <= t <= maxT -> 0 <= ts <= maxTs - 1 -> 0 <= d <= maxD ->
  0 <= h <= maxH ->
  W_written t ts d h (OptDec p e s).
Proof.
  intros Ht Hts Hd Hh. unfold OptDec.
  apply for_down_reaches with (c := ts); [exact Hts| |].
  - intros s1. now apply OptDec_fitness_sets.
  - intros ts' s1 _ H1. destruct (Z.eq_dec ts' ts) as [->|Hne].
    + now apply OptDec_fitness_sets.
    + now apply OptDec_pass_keeps_W.
Qed.

(** The policy entries stay on the lattice, and off its two ends. *)
Definition on_lattice (t ts d : Z) (s : Fit) : Prop :=
  1 <= hormone s t ts d <= maxH - 1.

Lemma OptDec_search_sets (t ts d : Z) (s : Fit) :
  on_lattice t ts d (OptDec_search ts t d s).
Proof.
  unfold on_lattice, OptDec_search. cbn [hormone]. rewrite upd3_same.
  apply golden_section_range.
Qed.

Lemma OptDec_search_keeps (t ts d ts' t' d' : Z) (s : Fit) :
  on_lattice t ts d s -> on_lattice t ts d (OptDec_search ts' t' d' s).
Proof.
  intros H. unfold on_lattice, OptDec_search. cbn [hormone].
  destruct (upd3_cases (hormone s) t' ts' d'
    (x1 (golden_section
           (fun h => Wnext s (Z.min maxT (t' + 1)) (ts' + 1) d' h)
           (fitness_x1 (locals s)) (fitness_x2 (locals s)))) t ts d)
    as [(-> & -> & -> & E)|[_ E]].
  - apply (OptDec_search_sets t' ts' d' s).
  - rewrite E. exact H.
Qed.

Lemma OptDec_decide_keeps (t ts d ts' : Z) (s : Fit) :
  on_lattice t ts d s -> on_lattice t ts d (OptDec_decide ts' s).
Proof.
  intros H. unfold OptDec_decide.
  apply for_up_keeps; [|exact H]. intros t' s1 _ H1.
  apply for_up_keeps; [|exact H1]. intros d' s2 _.
  apply OptDec_search_keeps.
Qed.

Lemma OptDec_decide_sets (t ts d : Z) (s : Fit) :
  0 <= t <= maxT -> 0 <= d <= maxD ->
  on_lattice t ts d (OptDec_decide ts s).
Proof.
  intros Ht Hd. unfold OptDec_decide.
  apply for_up_reaches with (c := t); [exact Ht| |].
  - intros s1. apply for_up_reaches with (c := d); [exact Hd| |].
    + intros s2. apply OptDec_search_sets.
    + intros d' s2 _. apply OptDec_search_keeps.
  - intros t' s1 _ H1. apply for_up_keeps; [|exact H1].
    intros d' s2 _. apply OptDec_search_keeps.
Qed.

Lemma OptDec_fitness_keeps (t ts d ts' : Z) (s : Fit) :
  on_lattice t ts d s -> on_lattice t ts d (OptDec_fitness p e ts' s).
Proof.
  unfold on_lattice.
  destruct (OptDec_fitness_frame ts' s) as (-> & _). auto.
Qed.

Lemma OptDec_on_lattice (t ts d : Z) (s : Fit) :
  0 <= t <= maxT -> 0 <= ts <= maxTs - 1 -> 0 <= d <= maxD ->
  on_lattice t ts d (OptDec p e s).
Proof.
  intros Ht Hts Hd. unfold OptDec.
  apply for_down_reaches with (c := ts); [exact Hts| |].
  - intros s1. apply OptDec_fitness_keeps. now apply OptDec_decide_sets.
  - intros ts' s1 _ H1. apply OptDec_fitness_keeps.
    now apply OptDec_decide_keeps.
Qed.
End OptDecFacts.

(** ** [ReplaceFit] *)

(** [ReplaceFit] writes the policy at [ts = maxTs] only, ... *)
Lemma ReplaceFit_hormone (s : Fit) :
  hormone (ReplaceFit s) = hormone (fst (ReplaceFit_loops s)).
Proof.
  unfold ReplaceFit.
  destruct (ReplaceFit_loops s) as [s' fd]. reflexivity.
Qed.

Definition policy_kept (s : Fit) (sf : Fit * Q) : Prop :=
  forall t ts d, ts <> maxTs -> hormone (fst sf) t ts d = hormone s t ts d.

Lemma ReplaceFit_cell_kept (s : Fit) (t d h : Z) (sf : Fit * Q) :
  policy_kept s sf -> policy_kept s (ReplaceFit_cell t d h sf).
Proof.
  intros H t' ts' d' Hne. destruct sf as [s1 fd]. simpl.
  rewrite upd3_other by auto. now apply H.
Qed.

Lemma ReplaceFit_loops_kept (s : Fit) : policy_kept s (ReplaceFit_loops s).
Proof.
  unfold ReplaceFit_loops.
  apply for_up_keeps; [|intros t ts d _; reflexivity]. intros t s1 _ H1.
  apply for_up_keeps; [|exact H1]. intros d s2 _ H2.
  apply for_up_keeps; [|exact H2]. intros h s3 _.
  apply ReplaceFit_cell_kept.
Qed.

(** ... where it copies the entry of [ts = 0]. *)
Definition policy_copied (s : Fit) (t d : Z) (sf : Fit * Q) : Prop :=
  hormone (fst sf) t maxTs d = hormone s t 0 d.

Lemma ReplaceFit_cell_copies (s : Fit) (t d h : Z) (sf : Fit * Q) :
  policy_kept s sf -> policy_copied s t d (ReplaceFit_cell t d h sf).
Proof.
  intros H. destruct sf as [s1 fd]. unfold policy_copied. simpl.
  rewrite upd3_same. apply (H t 0 d). unfold maxTs. lia.
Qed.

Lemma ReplaceFit_cell_keeps_copy (s : Fit) (t d t' d' h' : Z)
  (sf : Fit * Q) :
  policy_kept s sf -> policy_copied s t d sf ->
  policy_copied s t d (ReplaceFit_cell t' d' h' sf).
Proof.
  intros HJ H. destruct sf as [s1 fd]. unfold policy_copied in *. simpl in *.
  destruct (upd3_cases (hormone s1) t' maxTs d' (hormone s1 t' 0 d')
              t maxTs d) as [(-> & _ & -> & E)|[_ E]]; rewrite E.
  - apply (HJ t' 0 d'). unfold maxTs. lia.
  - exact H.
Qed.

Lemma ReplaceFit_loops_copy (s : Fit) (t d : Z) :
  1 <= t <= maxT -> 0 <= d <= maxD ->
  policy_copied s t d (ReplaceFit_loops s).
Proof.
  intros Ht Hd. unfold ReplaceFit_loops.
  assert (Hh : forall t' d' s2, policy_kept s s2 ->
    policy_kept s (for_up 0 maxH (fun h => ReplaceFit_cell t' d' h) s2)).
  { intros t' d' s2 H2. apply for_up_keeps; [|exact H2].
    intros h s3 _. apply ReplaceFit_cell_kept. }
  assert (Hd' : forall t' s1, policy_kept s s1 ->
    policy_kept s
      (for_up 0 maxD (fun d' =>
         for_up 0 maxH (fun h => ReplaceFit_cell t' d' h)) s1)).
  { intros t' s1 H1. apply for_up_keeps; [|exact H1].
    intros d' s2 _. apply Hh. }
  assert (Hkh : forall t' d' s2, policy_kept s s2 -> policy_copied s t d s2 ->
    policy_copied s t d
      (for_up 0 maxH (fun h => ReplaceFit_cell t' d' h) s2)).
  { intros t' d' s2 HJ H2.
    apply for_up_keeps_under with (J := policy_kept s);
      [| |exact HJ|exact H2].
    - intros h s3 _. apply ReplaceFit_cell_kept.
    - intros h s3 _. apply ReplaceFit_cell_keeps_copy. }
  apply for_up_reaches_under with (J := policy_kept s) (c := t);
    [exact Ht| | | |intros ? ? ? _; reflexivity].
  - intros t' s1 _. apply Hd'.
  - intros s1 H1.
    apply for_up_reaches_under with (J := policy_kept s) (c := d);
      [exact Hd| | | |exact H1].
    + intros d' s2 _. apply Hh.
    + intros s2 H2.
      apply for_up_reaches_under with (J := policy_kept s) (c := 0);
        [unfold maxH; lia| | | |exact H2].
      * intros h s3 _. apply ReplaceFit_cell_kept.
      * intros s3. apply ReplaceFit_cell_copies.
      * intros h s3 _. apply ReplaceFit_cell_keeps_copy.
    + intros d' s2 _. apply Hkh.
  - intros t' s1 _ HJ H1.
    apply for_up_keeps_under with (J := policy_kept s);
      [| |exact HJ|exact H1].
    + intros d' s2 _. apply Hh.
    + intros d' s2 _. apply Hkh.
Qed.

(** C10.  Every value [OptDec] stores in [hormone[t][ts][d]], for
    [t] in [0..maxT], [ts] in [0..maxTs-1] and [d] in [0..maxD], is an
    integer of [0..maxH]; [ReplaceFit] leaves these entries as they are
    and, for [t >= 1], stores in [hormone[t][maxTs][d]] a copy of
    [hormone[t][0][d]], again in [0..maxH]. *)
Theorem policy_on_lattice (p : Params) (e : Tables) (s : Fit) (t ts d : Z) :
  0 <= t <= maxT -> 0 <= ts <= maxTs - 1 -> 0 <= d <= maxD ->
  0 <= hormone (OptDec p e s) t ts d <= maxH
  /\ hormone (ReplaceFit (OptDec p e s)) t ts d
     = hormone (OptDec p e s) t ts d
  /\ (1 <= t ->
      hormone (ReplaceFit (OptDec p e s)) t maxTs d
      = hormone (OptDec p e s) t 0 d
      /\ 0 <= hormone (ReplaceFit (OptDec p e s)) t maxTs d <= maxH).
Proof.
  intros Ht Hts Hd.
  pose proof (OptDec_on_lattice p e t ts d s Ht Hts Hd) as H1.
  assert (H0 : on_lattice t 0 d (OptDec p e s))
    by (apply OptDec_on_lattice; [exact Ht|unfold maxTs; lia|exact Hd]).
  unfold on_lattice in H0, H1.
  pose proof (ReplaceFit_hormone (OptDec p e s)) as E.
  pose proof (ReplaceFit_loops_kept (OptDec p e s) t ts d) as Hk.
  pose proof (ReplaceFit_loops_copy (OptDec p e s) t d) as Hc.
  unfold policy_copied in Hc.
  generalize dependent (ReplaceFit (OptDec p e s)).
  generalize dependent (ReplaceFit_loops (OptDec p e s)).
  generalize dependent (OptDec p e s).
  intros s1 H1 H0 sf Hk Hc s2 ->.
  split; [lia|]. split.
  - apply Hk. lia.
  - intros Ht1. rewrite Hc by lia.
    split; [reflexivity|lia].
Qed.

(** The search never stops at an end of the lattice: the policy entries
    [OptDec] writes lie in [1..maxH-1]. *)
Theorem policy_interior (p : Params) (e : Tables) (s : Fit) (t ts d : Z) :
  0 <= t <= maxT -> 0 <= ts <= maxTs - 1 -> 0 <= d <= maxD ->
  1 <= hormone (OptDec p e s) t ts d <= maxH - 1.
Proof. intros Ht Hts Hd. now apply OptDec_on_lattice. Qed.

(** ** [FinalFit] *)

Section FinalFitFacts.
Variable e : Tables.

Definition seeded (t d h : Z) (s : Fit) : Prop :=
  Wnext s t maxTs d h = repro e maxTs d /\ V s t d h = repro e maxTs d.

Lemma FinalFit_cell_sets (t d h : Z) (s : Fit) :
  seeded t d h (FinalFit_cell e t d h s).
Proof. unfold seeded. simpl. rewrite upd3_same, !upd4_same. auto. Qed.

Lemma FinalFit_cell_keeps (t d h t' d' h' : Z) (s : Fit) :
  seeded t d h s -> seeded t d h (FinalFit_cell e t' d' h' s).
Proof.
  intros [H1 H2]. unfold seeded. simpl.
  destruct (upd4_cases (Wnext s) t' maxTs d' h' (repro e maxTs d')
              t maxTs d h) as [(-> & _ & -> & -> & E)|[Hne E]].
  - rewrite upd3_same, !upd4_same. auto.
  - rewrite E. split; [exact H1|].
    rewrite upd3_other; [exact H2|]. intuition congruence.
Qed.

Lemma FinalFit_seeds (t d h : Z) (s : Fit) :
  1 <= t <= maxT -> 0 <= d <= maxD -> 0 <= h <= maxH ->
  seeded t d h (FinalFit e s).
Proof.
  intros Ht Hd Hh. unfold FinalFit.
  apply for_up_reaches with (c := t); [exact Ht| |].
  - intros s1. apply for_up_reaches with (c := d); [exact Hd| |].
    + intros s2. apply for_up_reaches with (c := h); [exact Hh| |].
      * intros s3. apply FinalFit_cell_sets.
      * intros h' s3 _. apply FinalFit_cell_keeps.
    + intros d' s2 _ H2. apply for_up_keeps; [|exact H2].
      intros h' s3 _. apply FinalFit_cell_keeps.
  - intros t' s1 _ H1. apply for_up_keeps; [|exact H1].
    intros d' s2 _ H2. apply for_up_keeps; [|exact H2].
    intros h' s3 _. apply FinalFit_cell_keeps.
Qed.

(** The loop starts at [t = 1]: the entries of [t = 0] are not written. *)
Lemma FinalFit_skips_t0 (s : Fit) :
  forall ts d h,
    Wnext (FinalFit e s) 0 ts d h = Wnext s 0 ts d h
    /\ V (FinalFit e s) 0 d h = V s 0 d h.
Proof.
  unfold FinalFit.
  apply for_up_keeps; [|auto]. intros t s1 Ht H1.
  apply for_up_keeps; [|exact H1]. intros d s2 _ H2.
  apply for_up_keeps; [|exact H2]. intros h s3 _ H3 ts' d' h'.
  simpl. rewrite upd3_other, upd4_other by lia. apply H3.
Qed.
End FinalFitFacts.

(** ** The search of one epoch *)

Section EpochSearch.
Variables (p : Params) (e : Tables) (s : Fit) (hi : Z).

(** What the search of epoch [hi] records at [(t, d)] when it reads the
    [Wnext] of [s]: the result of the search over
    [Wnext[min(maxT,t+1)][hi+1][d][.]]. *)
Definition searched (t d : Z) (s' : Fit) : Prop :=
  let st := golden_section
              (fun h => Wnext s (Z.min maxT (t + 1)) (hi + 1) d h) 0 0 in
  hormone s' t hi d = x1 st /\ Wopt s' t hi d = fitness_x1 st.

Lemma OptDec_search_records (t d : Z) (s' : Fit) :
  Wnext s' = Wnext s -> searched t d (OptDec_search hi t d s').
Proof.
  intros HW. unfold searched. simpl. rewrite !upd3_same, HW.
  rewrite (golden_section_locals _ _ _ 0%Q 0%Q). auto.
Qed.

Lemma OptDec_search_keeps_record (t d t' d' : Z) (s' : Fit) :
  Wnext s' = Wnext s ->
  searched t d s' -> searched t d (OptDec_search hi t' d' s').
Proof.
  intros HW H.
  destruct (Z.eq_dec t' t) as [->|Ht];
    [destruct (Z.eq_dec d' d) as [->|Hd]|].
  - now apply OptDec_search_records.
  - unfold searched in *. simpl. rewrite !upd3_other by auto. exact H.
  - unfold searched in *. simpl. rewrite !upd3_other by auto. exact H.
Qed.

Lemma OptDec_decide_records (t d : Z) :
  0 <= t <= maxT -> 0 <= d <= maxD -> searched t d (OptDec_decide hi s).
Proof.
  intros Ht Hd. unfold OptDec_decide.
  assert (HJ : forall t' s1, Wnext s1 = Wnext s ->
    Wnext (for_up 0 maxD (fun d' => OptDec_search hi t' d') s1) = Wnext s).
  { intros t' s1 H1. apply for_up_keeps; [|exact H1]. auto. }
  apply for_up_reaches_under with (J := fun s' => Wnext s' = Wnext s)
                                  (c := t); [exact Ht| | | |reflexivity].
  - intros t' s1 _. apply HJ.
  - intros s1 H1.
    apply for_up_reaches_under with (J := fun s' => Wnext s' = Wnext s)
                                    (c := d); [exact Hd| | | |exact H1].
    + auto.
    + intros s2. apply OptDec_search_records.
    + intros d' s2 _. apply OptDec_search_keeps_record.
  - intros t' s1 _ H1 H2.
    apply for_up_keeps_under with (J := fun s' => Wnext s' = Wnext s);
      [| |exact H1|exact H2].
    + auto.
    + intros d' s2 _. apply OptDec_search_keeps_record.
Qed.

(** The record survives the fitness step of the epoch and all later
    epochs. *)
Lemma OptDec_passes_record (t d : Z) :
  0 <= hi -> 0 <= t <= maxT -> 0 <= d <= maxD ->
  searched t d
    (for_down hi 0
       (fun ts s' => OptDec_fitness p e ts (OptDec_decide ts s')) s).
Proof.
  intros Hhi Ht Hd.
  rewrite for_down_first by exact Hhi.
  apply for_down_keeps.
  - intros ts' s1 Hts' H1. unfold searched in *.
    destruct (OptDec_fitness_frame p e ts' (OptDec_decide ts' s1))
      as (-> & -> & _).
    destruct (OptDec_decide_other_epoch ts' hi s1 ltac:(lia) t d)
      as [-> ->].
    exact H1.
  - unfold searched.
    destruct (OptDec_fitness_frame p e hi (OptDec_decide hi s))
      as (-> & -> & _).
    now apply OptDec_decide_records.
Qed.

(** ... which leave [Wnext] of the later epochs as it was. *)
Lemma OptDec_passes_keep_later (ts : Z) :
  hi < ts ->
  forall t d h,
    Wnext (for_down hi 0
             (fun ts s' => OptDec_fitness p e ts (OptDec_decide ts s')) s)
          t ts d h
    = Wnext s t ts d h.
Proof.
  intros Hlt.
  apply (for_down_keeps _
           (fun s' => forall t d h, Wnext s' t ts d h = Wnext s t ts d h));
    [|reflexivity].
  intros ts' s1 Hts' H1 t d h.
  destruct (OptDec_fitness_other_epoch p e ts' ts (OptDec_decide ts' s1)
              ltac:(lia) t d h) as [_ ->].
  destruct (OptDec_decide_frame ts' s1) as (_ & -> & _). apply H1.
Qed.
End EpochSearch.

(** The first epoch, [maxTs-1], reads the incoming [Wnext] at [maxTs]. *)
Lemma OptDec_records (p : Params) (e : Tables) (s : Fit) (t d : Z) :
  0 <= t <= maxT -> 0 <= d <= maxD ->
  hormone (OptDec p e s) t (maxTs - 1) d
  = x1 (golden_section
          (fun h => Wnext s (Z.min maxT (t + 1)) maxTs d h) 0 0)
  /\ Wopt (OptDec p e s) t (maxTs - 1) d
     = fitness_x1 (golden_section
                     (fun h => Wnext s (Z.min maxT (t + 1)) maxTs d h) 0 0).
Proof.
  intros Ht Hd.
  exact (OptDec_passes_record p e s (maxTs - 1) t d
           ltac:(unfold maxTs; lia) Ht Hd).
Qed.

(** [OptDec] does not write [Wnext] at [maxTs]. *)
Lemma OptDec_keeps_boundary (p : Params) (e : Tables) (s : Fit) (t d h : Z) :
  Wnext (OptDec p e s) t maxTs d h = Wnext s t maxTs d h.
Proof.
  apply (OptDec_passes_keep_later p e s (maxTs - 1) maxTs).
  unfold maxTs. lia.
Qed.

(** Every search of [OptDec], in terms of the state [OptDec] returns: the
    row it read, [Wnext[min(maxT,t+1)][ts+1][d][.]], is not written again
    after it. *)
Lemma OptDec_search_result (p : Params) (e : Tables) (s : Fit) (t ts d : Z) :
  0 <= t <= maxT -> 0 <= ts <= maxTs - 1 -> 0 <= d <= maxD ->
  hormone (OptDec p e s) t ts d
  = x1 (golden_section
          (fun h => Wnext (OptDec p e s) (Z.min maxT (t + 1)) (ts + 1) d h)
          0 0)
  /\ Wopt (OptDec p e s) t ts d
     = fitness_x1
         (golden_section
            (fun h => Wnext (OptDec p e s) (Z.min maxT (t + 1)) (ts + 1) d h)
            0 0).
Proof.
  intros Ht Hts Hd.
  assert (Hsplit :
    OptDec p e s
    = for_down ts 0
        (fun ts0 s' => OptDec_fitness p e ts0 (OptDec_decide ts0 s'))
        (for_down (maxTs - 1) (ts + 1)
           (fun ts0 s' => OptDec_fitness p e ts0 (OptDec_decide ts0 s')) s)).
  { unfold OptDec. apply for_down_split; lia. }
  rewrite Hsplit.
  generalize (for_down (maxTs - 1) (ts + 1)
                (fun ts0 s' => OptDec_fitness p e ts0 (OptDec_decide ts0 s'))
                s).
  intros s1.
  destruct (OptDec_passes_record p e s1 ts t d) as [-> ->]; try lia.
  rewrite (golden_section_ext
             (fun h => Wnext s1 (Z.min maxT (t + 1)) (ts + 1) d h)
             (fun h =>
                Wnext (for_down ts 0
                         (fun ts0 s' =>
                            OptDec_fitness p e ts0 (OptDec_decide ts0 s'))
                         s1)
                      (Z.min maxT (t + 1)) (ts + 1) d h) 0 0).
  - auto.
  - intros h _. symmetry.
    apply (OptDec_passes_keep_later p e s1 ts (ts + 1)). lia.
Qed.

(** The fitness [OptDec] keeps in [Wopt] is a value of the row searched,
    at some lattice index. *)
Lemma OptDec_Wopt_reads (p : Params) (e : Tables) (s : Fit) (t ts d : Z) :
  0 <= t <= maxT -> 0 <= ts <= maxTs - 1 -> 0 <= d <= maxD ->
  exists k, 0 <= k <= maxH
    /\ Wopt (OptDec p e s) t ts d
       = Wnext (OptDec p e s) (Z.min maxT (t + 1)) (ts + 1) d k.
Proof.
  intros Ht Hts Hd.
  destruct (OptDec_search_result p e s t ts d Ht Hts Hd) as [_ ->].
  apply (golden_section_reads
           (fun h => Wnext (OptDec p e s) (Z.min maxT (t + 1)) (ts + 1) d h)).
Qed.

(** When the row searched has a strict peak at [m], the recorded hormone
    level is within one lattice unit of [m]. *)
Theorem OptDec_hormone_near_peak (p : Params) (e : Tables) (s : Fit)
  (t ts d m : Z) :
  0 <= t <= maxT -> 0 <= ts <= maxTs - 1 -> 0 <= d <= maxD ->
  0 <= m <= maxH ->
  strict_peak
    (fun h => Wnext (OptDec p e s) (Z.min maxT (t + 1)) (ts + 1) d h) m ->
  Z.abs (hormone (OptDec p e s) t ts d - m) <= 1.
Proof.
  intros Ht Hts Hd Hm Hpeak.
  destruct (OptDec_search_result p e s t ts d Ht Hts Hd) as [-> _].
  now apply gss_peak_within_one.
Qed.

(** ** [PredProb] *)

Section PredProbFacts.
Variables (p : Params) (pp0 : Z -> option Q).

(** The loop computes the recurrence: [pPred[1] = 1 - pLeave], and each
    later entry from the one before. *)
Lemma PredProb_unfold :
  PredProb p pp0 1 = Some (1 - pLeave p)%Q
  /\ forall t, 2 <= t <= maxT ->
       PredProb p pp0 t = PredProb_next p (PredProb p pp0 (t - 1)).
Proof.
  unfold PredProb.
  assert (H : (fun i f =>
                 f 1 = Some (1 - pLeave p)%Q
                 /\ forall t, 2 <= t < i ->
                      f t = PredProb_next p (f (t - 1)))
              (maxT + 1)
              (for_up 2 maxT (PredProb_step p)
                 (upd1 pp0 1 (Some (1 - pLeave p)%Q)))).
  { apply for_up_counts.
    - unfold maxT. lia.
    - split; [apply upd1_same|]. intros t Ht. lia.
    - intros i f Hi [H1 H2]. unfold PredProb_step. split.
      + rewrite upd1_other by lia. exact H1.
      + intros t Ht. destruct (Z.eq_dec t i) as [->|Hne].
        * rewrite upd1_same, upd1_other by lia. reflexivity.
        * rewrite !upd1_other by lia. apply H2. lia. }
  destruct H as [H1 H2]. split; [exact H1|].
  intros t Ht. apply H2. lia.
Qed.

(** Induction along the entries [1, 2, ..., maxT]. *)
Lemma PredProb_entries (P : option Q -> Prop) :
  P (Some (1 - pLeave p)%Q) ->
  (forall o, P o -> P (PredProb_next p o)) ->
  forall t, 1 <= t <= maxT -> P (PredProb p pp0 t).
Proof.
  intros H1 Hnext t Ht.
  destruct PredProb_unfold as [E1 En].
  replace t with (1 + Z.of_nat (Z.to_nat (t - 1))) in * by lia.
  induction (Z.to_nat (t - 1)) as [|n IH].
  - simpl. rewrite E1. exact H1.
  - rewrite En by lia.
    replace (1 + Z.of_nat (S n) - 1) with (1 + Z.of_nat n) by lia.
    apply Hnext, IH. lia.
Qed.
End PredProbFacts.

Local Open Scope Q_scope.

Lemma ddiv_some (n d : Q) : 0 < d -> ddiv n d = Some (n / d).
Proof.
  intros Hd. unfold ddiv. destruct (Qeq_bool d 0) eqn:E; [|reflexivity].
  apply Qeq_bool_iff in E. rewrite E in Hd. now apply Qlt_irrefl in Hd.
Qed.

Lemma ddiv_zero (n d : Q) : d == 0 -> ddiv n d = None.
Proof.
  intros Hd. unfold ddiv. apply Qeq_bool_iff in Hd. now rewrite Hd.
Qed.

(** One step of the recurrence keeps a probability a probability, as long
    as the divisor [1 - q*pAttack] is not zero: that is, unless both
    [pAttack = 1] and [q = 1]. *)
Lemma PredProb_next_probability (p : Params) (q : Q) :
  0 <= pLeave p <= 1 -> 0 <= pArrive p <= 1 -> 0 <= pAttack p <= 1 ->
  0 <= q <= 1 ->
  pAttack p < 1 \/ q < 1 ->
  exists q', PredProb_next p (Some q) = Some q'
             /\ 0 <= q' <= 1
             /\ (pArrive p < 1 -> q < 1 -> q' < 1).
Proof.
  intros Hl Hr Ha Hq Hne. simpl.
  assert (Hd : 0 < 1 - q * pAttack p) by (destruct Hne; nra).
  rewrite (ddiv_some _ _ Hd). eexists. split; [reflexivity|].
  assert (H1 : 0 <= q * (1 - pAttack p))
    by (apply Qmult_le_0_compat; lra).
  assert (H2 : 0 <= q * (1 - pAttack p) * (1 - pLeave p))
    by (apply Qmult_le_0_compat; lra).
  assert (H3 : 0 <= (1 - q) * pArrive p)
    by (apply Qmult_le_0_compat; lra).
  assert (H4 : 0 <= q * (1 - pAttack p) * pLeave p)
    by (apply Qmult_le_0_compat; lra).
  assert (H5 : 0 <= (1 - q) * (1 - pArrive p))
    by (apply Qmult_le_0_compat; lra).
  split; [split|].
  - apply Qle_shift_div_l; [exact Hd|]. lra.
  - apply Qle_shift_div_r; [exact Hd|]. lra.
  - intros Hr1 Hq1. apply Qlt_shift_div_r; [exact Hd|].
    assert (H6 : 0 < (1 - q) * (1 - pArrive p))
      by (apply Qmult_lt_0_compat; lra).
    lra.
Qed.

(** The recurrence in exact arithmetic.  For rates [pLeave], [pArrive],
    [pAttack] in [0,1] such that not both [pAttack = 1] and ([pLeave = 0]
    or [pArrive = 1]), every quotient of the recurrence has a non-zero
    divisor and lies in [0,1].  This is a fact about the formula: the
    binary64 run rounds [1.0 - pLeave] and each product, and near
    [pAttack = 1] a rounded entry can come out above 1, or the divisor can
    round to zero. *)
Theorem PredProb_probabilities (p : Params) (pp0 : Z -> option Q) :
  0 <= pLeave p <= 1 -> 0 <= pArrive p <= 1 -> 0 <= pAttack p <= 1 ->
  pAttack p < 1 \/ (0 < pLeave p /\ pArrive p < 1) ->
  forall t, (1 <= t <= maxT)%Z ->
    exists q, PredProb p pp0 t = Some q /\ 0 <= q <= 1.
Proof.
  intros Hl Hr Ha Hne t Ht.
  assert (H : (fun o => exists q, o = Some q /\ 0 <= q <= 1
                                  /\ (pAttack p < 1 \/ q < 1))
                (PredProb p pp0 t)).
  { apply PredProb_entries; [| |exact Ht].
    - exists (1 - pLeave p). split; [reflexivity|]. split; [lra|].
      destruct Hne as [Hne|[Hne _]]; [now left|right; lra].
    - intros o (q & -> & Hq & Hq1).
      destruct (PredProb_next_probability p q Hl Hr Ha Hq Hq1)
        as (q' & E & Hq' & Hlt).
      exists q'. split; [exact E|]. split; [exact Hq'|].
      destruct Hne as [Hne|[_ Hne]]; [now left|].
      destruct Hq1 as [Hq1|Hq1]; [now left|right; now apply Hlt]. }
  destruct H as (q & E & Hq & _). now exists q.
Qed.


(** ... or one that always attacks and always arrives. *)
Lemma PredProb_certain_return_undefined (p : Params) (pp0 : Z -> option Q) :
  pAttack p == 1 -> pArrive p == 1 -> 0 < pLeave p ->
  PredProb p pp0 3 = None.
Proof.
  intros Ha Hr Hl. destruct (PredProb_unfold p pp0) as [E1 En].
  assert (E2 : exists q, PredProb p pp0 2 = Some q /\ q == 1).
  { rewrite (En 2%Z) by (unfold maxT; lia). simpl (2 - 1)%Z. rewrite E1.
    simpl.
    assert (Hd : 0 < 1 - (1 - pLeave p) * pAttack p)
      by (rewrite Ha; lra).
    rewrite (ddiv_some _ _ Hd). eexists. split; [reflexivity|].
    rewrite Ha, Hr. field. lra. }
  destruct E2 as (q & E2 & Hq).
  rewrite (En 3%Z) by (unfold maxT; lia). simpl (3 - 1)%Z. rewrite E2.
  simpl. apply ddiv_zero. rewrite Hq, Ha. reflexivity.
Qed.


Lemma PredProb_probabilities_witness :
  exists q,
    PredProb (mk_Params (1 # 2) (1 # 10) (1 # 2) 0 (1 # 20))
             (fun _ => Some 0) 2 = Some q
    /\ 0 <= q <= 1.
Proof.
  apply PredProb_probabilities; simpl; try lra.
  unfold maxT. lia.
Defined.



(** C6.  [pPred[1] = 1 - pLeave]; and when [pLeave = 1] and
    [pArrive = 0], whatever [pAttack] is, [pPred[t] = 0] for every [t] in
    [1..maxT]. *)
Theorem PredProb_never_returns (p : Params) (pp0 : Z -> option Q) :
  PredProb p pp0 1 = Some (1 - pLeave p)
  /\ (pLeave p == 1 -> pArrive p == 0 ->
      forall t, (1 <= t <= maxT)%Z ->
        exists q, PredProb p pp0 t = Some q /\ q == 0).
Proof.
  split; [apply PredProb_unfold|].
  intros Hl Hr t Ht.
  apply (PredProb_entries p pp0 (fun o => exists q, o = Some q /\ q == 0));
    [| |exact Ht].
  - exists (1 - pLeave p). split; [reflexivity|]. rewrite Hl. reflexivity.
  - intros o (q & -> & Hq). simpl.
    assert (Hd : 0 < 1 - q * pAttack p) by (rewrite Hq; reflexivity).
    rewrite (ddiv_some _ _ Hd). eexists. split; [reflexivity|].
    rewrite Hq, Hl, Hr. reflexivity.
Qed.

Lemma PredProb_never_returns_witness :
  exists q,
    PredProb (mk_Params 1 0 (1 # 2) 0 (1 # 20)) (fun _ => Some 0) maxT
    = Some q
    /\ q == 0.
Proof.
  apply (PredProb_never_returns (mk_Params 1 0 (1 # 2) 0 (1 # 20))).
  - reflexivity.
  - reflexivity.
  - unfold maxT. lia.
Defined.

Lemma policy_interior_witness :
  (1 <= hormone (OptDec params_default (tables_of params_default)
                        (FinalFit (tables_of params_default) fit_start))
                0 0 0 <= maxH - 1)%Z.
Proof.
  refine (policy_interior _ _ _ 0 0 0 _ _ _);
    unfold maxT, maxTs, maxD; lia.
Defined.

Lemma policy_on_lattice_witness :
  (0 <= hormone (OptDec params_default (tables_of params_default)
                        (FinalFit (tables_of params_default) fit_start))
                1 0 3 <= maxH)%Z.
Proof.
  refine (proj1 (policy_on_lattice _ _ _ 1 0 3 _ _ _));
    unfold maxT, maxTs, maxD; lia.
Defined.

(** C5 (amended).  [FinalFit] seeds [Wnext[t][maxTs][d][h]] and
    [V[t][d][h]] with [repro[maxTs][d]] for all [t] in [1..maxT], [d] in
    [0..maxD] and [h] in [0..maxH]; its loop starts at [t = 1] and leaves
    every entry of [t = 0] as it was. *)
Theorem FinalFit_seeds_from_t1 (e : Tables) (s : Fit) (t d h : Z) :
  (0 <= t <= maxT)%Z -> (0 <= d <= maxD)%Z -> (0 <= h <= maxH)%Z ->
  (1 <= t ->
   Wnext (FinalFit e s) t maxTs d h = repro e maxTs d
   /\ V (FinalFit e s) t d h = repro e maxTs d)%Z
  /\ (t = 0%Z ->
      Wnext (FinalFit e s) t maxTs d h = Wnext s t maxTs d h
      /\ V (FinalFit e s) t d h = V s t d h).
Proof.
  intros Ht Hd Hh. split.
  - intros Ht1. apply FinalFit_seeds; [lia|exact Hd|exact Hh].
  - intros ->. apply FinalFit_skips_t0.
Qed.

Lemma FinalFit_seeds_from_t1_witness :
  Wnext (FinalFit (tables_of params_default) fit_start) 1 maxTs 0 0
  = repro (tables_of params_default) maxTs 0
  /\ V (FinalFit (tables_of params_default) fit_start) 1 0 0
     = repro (tables_of params_default) maxTs 0.
Proof.
  refine (proj1 (FinalFit_seeds_from_t1 _ _ 1 0 0 _ _ _) _);
    unfold maxT, maxD, maxH; lia.
Defined.

(** [Reproduction] at the season boundary. *)
Lemma Reproduction_entry (p : Params) (r : Z -> Z -> Q) (ts d : Z) :
  (0 <= ts <= maxTs)%Z -> (0 <= d <= maxD)%Z ->
  Reproduction p r ts d
  = if (ts mod maxTs =? 0)%Z then std_max 0 (1 - Kfec p * inject_Z d) else 0.
Proof.
  intros Hts Hd. unfold Reproduction.
  assert (Hkeep : forall ts' d' r',
    r' ts d = (if (ts mod maxTs =? 0)%Z
               then std_max 0 (1 - Kfec p * inject_Z d) else 0) ->
    upd2 r' ts' d'
      (if (ts' mod maxTs =? 0)%Z
       then std_max 0 (1 - Kfec p * inject_Z d') else 0) ts d
    = (if (ts mod maxTs =? 0)%Z
       then std_max 0 (1 - Kfec p * inject_Z d) else 0)).
  { intros ts' d' r' H. unfold upd2.
    destruct (Z.eqb_spec ts ts') as [<-|]; [|exact H].
    destruct (Z.eqb_spec d d') as [<-|]; [reflexivity|exact H]. }
  apply for_up_reaches with (c := ts); [exact Hts| |].
  - intros r1. apply for_up_reaches with (c := d); [exact Hd| |].
    + intros r2. unfold upd2. now rewrite !Z.eqb_refl.
    + intros d' r2 _. apply Hkeep.
  - intros ts' r1 _ H1. apply for_up_keeps; [|exact H1].
    intros d' r2 _. apply Hkeep.
Qed.

(** C5 as stated fails at [t = 0]: from the zero-initialised globals and
    the tables of the default parameters, [Wnext[0][maxTs][0][0]] and
    [V[0][0][0]] are still 0 after [FinalFit], while [repro[maxTs][0]] is
    1. *)
Lemma FinalFit_leaves_t0 :
  ~ (Wnext (FinalFit (tables_of params_default) fit_start) 0 maxTs 0 0
     == repro (tables_of params_default) maxTs 0)
  /\ ~ (V (FinalFit (tables_of params_default) fit_start) 0 0 0
        == repro (tables_of params_default) maxTs 0).
Proof.
  destruct (FinalFit_skips_t0 (tables_of params_default) fit_start
              maxTs 0%Z 0%Z) as [-> ->].
  change (repro (tables_of params_default))
    with (Reproduction params_default (fun _ _ => 0)).
  rewrite Reproduction_entry by (unfold maxTs, maxD; lia).
  split; intros H; vm_compute in H; discriminate H.
Qed.


(** ** [Mortality] *)

Lemma Qltb_ge (a b : Q) : Qltb a b = false <-> b <= a.
Proof.
  unfold Qltb. rewrite negb_false_iff. apply Qle_bool_iff.
Qed.

Lemma std_min_spec (a b : Q) :
  (b < a /\ std_min a b = b) \/ (a <= b /\ std_min a b = a).
Proof.
  unfold std_min. destruct (Qltb b a) eqn:E.
  - left. split; [now apply Qltb_lt|reflexivity].
  - right. split; [now apply Qltb_ge|reflexivity].
Qed.

Lemma std_min_Qmin (a b : Q) : std_min a b == Qmin a b.
Proof.
  destruct (std_min_spec a b) as [[H ->]|[H ->]].
  - symmetry. apply Q.min_r. now apply Qlt_le_weak.
  - symmetry. now apply Q.min_l.
Qed.

Lemma Mortality_entry (p : Params) (m : Z -> Q) (d : Z) :
  (0 <= d <= maxD)%Z ->
  Mortality p m d = std_min 1 (mu0 + Kmort p * inject_Z d).
Proof.
  intros Hd. unfold Mortality.
  apply for_up_reaches with (c := d); [exact Hd| |].
  - intros m1. apply upd1_same.
  - intros d' m1 _ H1. unfold upd1.
    destruct (Z.eqb_spec d d') as [<-|]; [reflexivity|exact H1].
Qed.

(** C7 (amended).  For all [d] in [0..maxD],
    [mu[d] = min(1, mu0 + Kmort*d)] and [mu[d] <= 1] for any [Kmort];
    when [Kmort >= 0], also [mu[d] >= 0] and [mu] is non-decreasing in
    [d]. *)
Theorem Mortality_capped_linear (p : Params) (m : Z -> Q) (d : Z) :
  (0 <= d <= maxD)%Z ->
  Mortality p m d == Qmin 1 (mu0 + Kmort p * inject_Z d)
  /\ Mortality p m d <= 1
  /\ (0 <= Kmort p ->
      0 <= Mortality p m d
      /\ forall d', (d <= d' <= maxD)%Z ->
           Mortality p m d <= Mortality p m d').
Proof.
  intros Hd. rewrite Mortality_entry by exact Hd.
  split; [apply std_min_Qmin|].
  assert (Hd0 : 0 <= inject_Z d)
    by (change 0 with (inject_Z 0); rewrite <- Zle_Qle; lia).
  split.
  - destruct (std_min_spec 1 (mu0 + Kmort p * inject_Z d))
      as [[H ->]|[H ->]]; lra.
  - intros HK.
    assert (Hx : 0 <= Kmort p * inject_Z d)
      by (apply Qmult_le_0_compat; assumption).
    split.
    + destruct (std_min_spec 1 (mu0 + Kmort p * inject_Z d))
        as [[H ->]|[H ->]]; unfold mu0 in *; lra.
    + intros d' Hd'. rewrite (Mortality_entry p m d') by lia.
      assert (Hdd : inject_Z d <= inject_Z d') by (rewrite <- Zle_Qle; lia).
      assert (Hy : Kmort p * inject_Z d <= Kmort p * inject_Z d').
      { rewrite !(Qmult_comm (Kmort p)).
        apply Qmult_le_compat_r; assumption. }
      destruct (std_min_spec 1 (mu0 + Kmort p * inject_Z d))
        as [[H ->]|[H ->]];
        destruct (std_min_spec 1 (mu0 + Kmort p * inject_Z d'))
          as [[H' ->]|[H' ->]]; lra.
Qed.

Lemma Mortality_capped_linear_witness :
  Mortality params_default (fun _ => 0) 3
  <= Mortality params_default (fun _ => 0) 5.
Proof.
  refine (proj2 (proj2 (proj2
            (Mortality_capped_linear params_default (fun _ => 0) 3 _)) _)
            5%Z _).
  - unfold maxD. lia.
  - simpl. lra.
  - unfold maxD. lia.
Defined.

(** C7 as stated ("for any runtime value of [Kmort]") fails: with
    [Kmort = -1], [mu[1] = 0.002 - 1] is negative, and it is smaller than
    [mu[0] = 0.002]. *)
Lemma Mortality_negative_slope :
  ~ (0 <= Mortality params_negative_slope (fun _ => 0) 1)
  /\ ~ (Mortality params_negative_slope (fun _ => 0) 0
        <= Mortality params_negative_slope (fun _ => 0) 1).
Proof.
  rewrite !Mortality_entry by (unfold maxD; lia).
  split; intros H; vm_compute in H; apply H; reflexivity.
Qed.


(** ** The fitness step of [OptDec] *)

(** C1 (amended).  For every [(t, ts, d, h)] with [t] in [1..maxT],
    [ts] in [0..maxTs-1], [d] in [0..maxD], [h] in [0..maxH], [OptDec]
    leaves in [W[t][ts][d][h]] the sum of a survived-attack branch weighted
    by [pPred[t]*pAttack*(1-pKilled[h])] and a no-attack branch weighted by
    [1 - pPred[t]*pAttack]; each branch's value is [(1-mu[d])] times
    ([repro[ts][d]] plus the interpolated
    [(1-ddec)*Wopt[r][ts][floor(dnew[d][h])]
     + ddec*Wopt[r][ts][ceil(dnew[d][h])]]), with [Wopt] row [r = 0] for
    the survived attack and [r = t] for no attack; and
    [Wnext[t][ts][d][h]] holds the same value. *)
Theorem OptDec_fitness_value (p : Params) (e : Tables) (s : Fit)
  (t ts d h : Z) :
  (1 <= t <= maxT)%Z -> (0 <= ts <= maxTs - 1)%Z -> (0 <= d <= maxD)%Z ->
  (0 <= h <= maxH)%Z ->
  W (OptDec p e s) t ts d h
  = pPred e t * pAttack p * (1 - pKilled e h) * (1 - mu e d)
    * (repro e ts d
       + (1 - ddec_of e d h)
         * Wopt (OptDec p e s) 0%Z ts (Qfloor (dnew e d h))
       + ddec_of e d h
         * Wopt (OptDec p e s) 0%Z ts (Qceiling (dnew e d h)))
    + (1 - pPred e t * pAttack p) * (1 - mu e d)
      * (repro e ts d
         + (1 - ddec_of e d h)
           * Wopt (OptDec p e s) t ts (Qfloor (dnew e d h))
         + ddec_of e d h
           * Wopt (OptDec p e s) t ts (Qceiling (dnew e d h)))
  /\ Wnext (OptDec p e s) t ts d h = W (OptDec p e s) t ts d h.
Proof.
  intros Ht Hts Hd Hh.
  exact (OptDec_W_written p e t ts d h s Ht Hts Hd Hh).
Qed.

Lemma OptDec_fitness_value_witness :
  Wnext (OptDec params_default (tables_of params_default)
           (FinalFit (tables_of params_default) fit_start)) 1 9 0 0
  = W (OptDec params_default (tables_of params_default)
         (FinalFit (tables_of params_default) fit_start)) 1 9 0 0.
Proof.
  refine (proj2 (OptDec_fitness_value _ _ _ 1 9 0 0 _ _ _ _));
    unfold maxT, maxTs, maxD, maxH; lia.
Defined.

Lemma Qfloor_le_ceiling (x : Q) : (Qfloor x <= Qceiling x)%Z.
Proof.
  rewrite Zle_Qle. eapply Qle_trans; [apply Qfloor_le|apply Qle_ceiling].
Qed.

(** *** The first epoch of the first iteration *)

Section FirstIteration.
Variables (p : Params) (e : Tables) (s0 : Fit).

(** After [FinalFit], the search of epoch [maxTs-1] finds the constant
    row [repro[maxTs][d]] whatever [t] is. *)
Lemma first_epoch_Wopt (t d : Z) :
  (0 <= t <= maxT)%Z -> (0 <= d <= maxD)%Z ->
  Wopt (OptDec p e (FinalFit e s0)) t (maxTs - 1) d = repro e maxTs d.
Proof.
  intros Ht Hd.
  destruct (OptDec_records p e (FinalFit e s0) t d Ht Hd) as [_ ->].
  destruct (golden_section_reads
              (fun h => Wnext (FinalFit e s0) (Z.min maxT (t + 1)) maxTs d h)
              0 0) as (k & Hk & ->).
  apply FinalFit_seeds; [unfold maxT in *; lia|exact Hd|exact Hk].
Qed.

(** Hence the value left in [W] there, when the interpolation targets
    stay on the damage lattice. *)
Lemma first_epoch_W (t d h : Z) :
  (1 <= t <= maxT)%Z -> (0 <= d <= maxD)%Z -> (0 <= h <= maxH)%Z ->
  (0 <= Qfloor (dnew e d h))%Z -> (Qceiling (dnew e d h) <= maxD)%Z ->
  W (OptDec p e (FinalFit e s0)) t (maxTs - 1) d h
  = W_value p e (fun _ _ d' => repro e maxTs d') t (maxTs - 1) d h
  /\ W_claimed p e (Wopt (OptDec p e (FinalFit e s0))) t (maxTs - 1) d h
     = W_claimed p e (fun _ _ d' => repro e maxTs d') t (maxTs - 1) d h.
Proof.
  intros Ht Hd Hh Hlo Hhi.
  pose proof (Qfloor_le_ceiling (dnew e d h)) as Hfc.
  destruct (OptDec_W_written p e t (maxTs - 1) d h (FinalFit e s0))
    as [-> _]; try assumption; [unfold maxTs; lia|].
  unfold W_value, W_claimed.
  rewrite !first_epoch_Wopt by lia. auto.
Qed.
End FirstIteration.

(** *** Entries of the tables *)

Lemma Damage_entry (dn : Z -> Z -> Q) (d h : Z) :
  (0 <= d <= maxD)%Z -> (0 <= h <= maxH)%Z ->
  Damage dn d h
  = std_max 0
      (std_min (inject_Z maxD)
         (inject_Z d
          + hslope * (hmin - inject_Z h / inject_Z maxH)
                   * (hmin - inject_Z h / inject_Z maxH)
          - inject_Z repair)).
Proof.
  intros Hd Hh. unfold Damage.
  set (v := fun d h : Z =>
         std_max 0
           (std_min (inject_Z maxD)
              (inject_Z d
               + hslope * (hmin - inject_Z h / inject_Z maxH)
                        * (hmin - inject_Z h / inject_Z maxH)
               - inject_Z repair))).
  change (for_up 0 maxD
            (fun d0 => for_up 0 maxH (fun h0 dn0 => upd2 dn0 d0 h0 (v d0 h0)))
            dn d h = v d h).
  assert (Hkeep : forall d' h' dn',
    dn' d h = v d h -> upd2 dn' d' h' (v d' h') d h = v d h).
  { intros d' h' dn' H. unfold upd2.
    destruct (Z.eqb_spec d d') as [<-|]; [|exact H].
    destruct (Z.eqb_spec h h') as [<-|]; [reflexivity|exact H]. }
  apply for_up_reaches with (c := d); [exact Hd| |].
  - intros dn1. apply for_up_reaches with (c := h); [exact Hh| |].
    + intros dn2. unfold upd2. now rewrite !Z.eqb_refl.
    + intros h' dn2 _. apply Hkeep.
  - intros d' dn1 _ H1. apply for_up_keeps; [|exact H1].
    intros h' dn2 _. apply Hkeep.
Qed.

Lemma Predation_alpha1_entry (pk : Z -> Q) (h : Z) :
  (0 <= h <= maxH)%Z ->
  Predation_alpha1 pk h = std_max 0 (1 - inject_Z h / inject_Z maxH).
Proof.
  intros Hh. unfold Predation_alpha1.
  apply for_up_reaches with (c := h); [exact Hh| |].
  - intros pk1. apply upd1_same.
  - intros h' pk1 _ H1. unfold upd1.
    destruct (Z.eqb_spec h h') as [<-|]; [reflexivity|exact H1].
Qed.

(** C1 as stated fails.  With the default parameters, in the first
    outer iteration, at [t = 1], [ts = maxTs-1], [d = 0], [h = 0]:
    [pPred[1] = 1/2], [pAttack = 1/2], [pKilled[0] = 1], so the
    survived-attack weight is 0 and its complement is 1, while the code
    weights the no-attack branch by [1 - pPred[1]*pAttack = 3/4].  With
    [mu[0] = 0.002], [repro[maxTs-1][0] = 0], [dnew[0][0] = 0.8] and
    [Wopt[.][maxTs-1][0] = 1], [Wopt[.][maxTs-1][1] = 0.95], the code
    stores [0.75 * 0.998 * 0.96 = 0.71856] and the claim's formula gives
    [0.998 * 0.96 = 0.95808]. *)
Lemma OptDec_fitness_not_complement :
  W (OptDec params_default (tables_of params_default)
       (FinalFit (tables_of params_default) fit_start))
    1 (maxTs - 1) 0 0
  == 71856 # 100000
  /\ W_claimed params_default (tables_of params_default)
       (Wopt (OptDec params_default (tables_of params_default)
                (FinalFit (tables_of params_default) fit_start)))
       1 (maxTs - 1) 0 0
     == 95808 # 100000
  /\ ~ (W (OptDec params_default (tables_of params_default)
             (FinalFit (tables_of params_default) fit_start))
          1 (maxTs - 1) 0 0
        == W_claimed params_default (tables_of params_default)
             (Wopt (OptDec params_default (tables_of params_default)
                      (FinalFit (tables_of params_default) fit_start)))
             1 (maxTs - 1) 0 0).
Proof.
  assert (Hfl : Qfloor (dnew (tables_of params_default) 0 0) = 0%Z
                /\ Qceiling (dnew (tables_of params_default) 0 0) = 1%Z).
  { change (dnew (tables_of params_default)) with (Damage (fun _ _ => 0)).
    rewrite Damage_entry by (unfold maxD, maxH; lia).
    vm_compute. auto. }
  destruct Hfl as [Hfl Hce].
  destruct (first_epoch_W params_default (tables_of params_default)
              fit_start 1 0 0) as [-> ->];
    try (rewrite ?Hfl, ?Hce; unfold maxT, maxD, maxH; lia).
  unfold W_value, W_claimed, ddec_of.
  rewrite Hfl, Hce.
  unfold tables_of. cbn [pPred pKilled mu dnew repro].
  rewrite (proj1 (PredProb_unfold params_default (fun _ => Some 0))).
  rewrite !Damage_entry, !Mortality_entry, !Predation_alpha1_entry,
    !Reproduction_entry by (unfold maxTs, maxD, maxH; lia).
  vm_compute. repeat split; discriminate.
Qed.


(** ** The forward sweep: one source state *)

Lemma add4_other (f : Z -> Z -> Z -> Z -> Q) i j k l v i' j' k' l' :
  (i' <> i \/ j' <> j \/ k' <> k \/ l' <> l)%Z ->
  add4 f i j k l v i' j' k' l' = f i' j' k' l'.
Proof. intros H. unfold add4. now apply upd4_other. Qed.

Section SourceState.
Variables (p : Params) (e : Tables) (hor : Z -> Z -> Z -> Z).
Variables (t ts d h : Z) (s : Fwd).

Let m := F s t ts d h.
Let d1 := Qfloor (dnew e d h).
Let d2 := Qceiling (dnew e d h).
Let tn := Z.min (maxT - 1) (t + 1).

(** All seven statements read the same source mass: the four updates of
    [F] write to epoch [ts+1] and leave [F[t][ts][d][h]] as it was. *)
Lemma fwd_cell_amounts :
  F (fwd_cell p e hor t ts d h s)
  = add4 (add4 (add4 (add4 (F s)
        1%Z (ts + 1)%Z d1 (hor 0%Z ts d1) (out_attack_lo p e t d h m))
        1%Z (ts + 1)%Z d2 (hor 0%Z ts d2) (out_attack_hi p e t d h m))
        tn (ts + 1)%Z d1 (hor tn ts d1) (out_quiet_lo p e t d h m))
        tn (ts + 1)%Z d2 (hor tn ts d2) (out_quiet_hi p e t d h m)
  /\ predDeaths (fwd_cell p e hor t ts d h s)
     = predDeaths s + die_pred p e t h m
  /\ damageDeaths (fwd_cell p e hor t ts d h s)
     = damageDeaths s + die_damage p e t d h m
  /\ bkgrndDeaths (fwd_cell p e hor t ts d h s)
     = bkgrndDeaths s + die_bkgrnd p e t h m.
Proof.
  unfold fwd_cell. cbn [F predDeaths damageDeaths bkgrndDeaths].
  fold d1 d2 tn.
  assert (Hsrc : forall f i k l v,
            add4 f i (ts + 1)%Z k l v t ts d h = f t ts d h)
    by (intros; apply add4_other; lia).
  rewrite !Hsrc. fold m. auto.
Qed.
End SourceState.

(** C8.  Mass is conserved per source state: the statements of the
    innermost loop body of the sweep all read the same source mass
    [m = F[t][ts][d][h]]; they add the four outflows to [F] (attack and no
    attack, each split by [1-ddec] and [ddec]) and the three death
    contributions to the tallies; and these seven amounts sum to [m], for
    any values of [pPred[t]], [pAttack], [pKilled[h]], [mu[d]], [mu[0]]
    and [ddec]. *)
Theorem fwd_cell_conserves (p : Params) (e : Tables)
  (hor : Z -> Z -> Z -> Z) (t ts d h : Z) (s : Fwd) :
  F (fwd_cell p e hor t ts d h s)
  = add4 (add4 (add4 (add4 (F s)
        1%Z (ts + 1)%Z (Qfloor (dnew e d h))
        (hor 0%Z ts (Qfloor (dnew e d h)))
        (out_attack_lo p e t d h (F s t ts d h)))
        1%Z (ts + 1)%Z (Qceiling (dnew e d h))
        (hor 0%Z ts (Qceiling (dnew e d h)))
        (out_attack_hi p e t d h (F s t ts d h)))
        (Z.min (maxT - 1) (t + 1)) (ts + 1)%Z (Qfloor (dnew e d h))
        (hor (Z.min (maxT - 1) (t + 1)) ts (Qfloor (dnew e d h)))
        (out_quiet_lo p e t d h (F s t ts d h)))
        (Z.min (maxT - 1) (t + 1)) (ts + 1)%Z (Qceiling (dnew e d h))
        (hor (Z.min (maxT - 1) (t + 1)) ts (Qceiling (dnew e d h)))
        (out_quiet_hi p e t d h (F s t ts d h))
  /\ predDeaths (fwd_cell p e hor t ts d h s)
     = predDeaths s + die_pred p e t h (F s t ts d h)
  /\ damageDeaths (fwd_cell p e hor t ts d h s)
     = damageDeaths s + die_damage p e t d h (F s t ts d h)
  /\ bkgrndDeaths (fwd_cell p e hor t ts d h s)
     = bkgrndDeaths s + die_bkgrnd p e t h (F s t ts d h)
  /\ out_attack_lo p e t d h (F s t ts d h)
     + out_attack_hi p e t d h (F s t ts d h)
     + out_quiet_lo p e t d h (F s t ts d h)
     + out_quiet_hi p e t d h (F s t ts d h)
     + die_pred p e t h (F s t ts d h)
     + die_damage p e t d h (F s t ts d h)
     + die_bkgrnd p e t h (F s t ts d h)
     == F s t ts d h.
Proof.
  destruct (fwd_cell_amounts p e hor t ts d h s) as (HF & Hp & Hd & Hb).
  repeat (split; [assumption|]).
  unfold out_attack_lo, out_attack_hi, out_quiet_lo, out_quiet_hi,
    die_pred, die_damage, die_bkgrnd.
  ring.
Qed.


(** ** The forward sweep from [fwdCalc]'s own initial state *)

Local Open Scope Z_scope.

Lemma fwd_init_zero (s0 : Fwd) (t ts d h : Z) :
  on_F_lattice t ts d h ->
  (t <> maxT \/ ts <> 0 \/ d <> 0 \/ h <> 0) ->
  F (fwd_init s0) t ts d h = 0%Q.
Proof.
  intros (Ht & Hts & Hd & Hh) Hne. unfold fwd_init.
  cbn [F]. rewrite upd4_other by exact Hne.
  assert (Hkeep : forall t' ts' d' h' s,
    F s t ts d h = 0%Q ->
    F (mk_Fwd (upd4 (F s) t' ts' d' h' 0%Q) (predDeaths s) (damageDeaths s)
              (bkgrndDeaths s)) t ts d h = 0%Q).
  { intros t' ts' d' h' s H. cbn [F].
    destruct (upd4_cases (F s) t' ts' d' h' 0%Q t ts d h)
      as [(_ & _ & _ & _ & E)|[_ E]]; rewrite E; [reflexivity|exact H]. }
  apply for_up_reaches with (c := t); [exact Ht| |].
  - intros s1. apply for_up_reaches with (c := ts); [exact Hts| |].
    + intros s2. apply for_up_reaches with (c := d); [exact Hd| |].
      * intros s3. apply for_up_reaches with (c := h); [exact Hh| |].
        -- intros s4. cbn [F]. apply upd4_same.
        -- intros h' s4 _. apply Hkeep.
      * intros d' s3 _ H3. apply for_up_keeps; [|exact H3].
        intros h' s4 _. apply Hkeep.
    + intros ts' s2 _ H2. apply for_up_keeps; [|exact H2].
      intros d' s3 _ H3. apply for_up_keeps; [|exact H3].
      intros h' s4 _. apply Hkeep.
  - intros t' s1 _ H1. apply for_up_keeps; [|exact H1].
    intros ts' s2 _ H2. apply for_up_keeps; [|exact H2].
    intros d' s3 _ H3. apply for_up_keeps; [|exact H3].
    intros h' s4 _. apply Hkeep.
Qed.

Lemma fwd_init_seed (s0 : Fwd) : F (fwd_init s0) maxT 0 0 0 = 1%Q.
Proof. unfold fwd_init. cbn [F]. apply upd4_same. Qed.

Local Open Scope Q_scope.

Lemma add4_nothing (f : Z -> Z -> Z -> Z -> Q) i j k l v :
  v == 0 -> same_F (add4 f i j k l v) f.
Proof.
  intros Hv t ts d h. unfold add4.
  destruct (upd4_cases f i j k l (f i j k l + v) t ts d h)
    as [(-> & -> & -> & -> & E)|[_ E]]; rewrite E; [|reflexivity].
  rewrite Hv. ring.
Qed.

Lemma same_F_reset (f : Z -> Z -> Z -> Z -> Q) (a b c : Q) :
  same_F (F (mk_Fwd f a b c)) f.
Proof. intros t ts d h. apply Qeq_refl. Qed.

Section SweepFacts.
Variables (p : Params) (e : Tables) (hor : Z -> Z -> Z -> Z).

(** An empty source state hands out nothing. *)
Lemma fwd_cell_empty (t ts d h : Z) (s : Fwd) :
  F s t ts d h == 0 -> same_F (F (fwd_cell p e hor t ts d h s)) (F s).
Proof.
  intros Hm t' ts' d' h'.
  destruct (fwd_cell_amounts p e hor t ts d h s) as (-> & _).
  repeat (etransitivity; [apply add4_nothing|]);
    try reflexivity;
    unfold out_attack_lo, out_attack_hi, out_quiet_lo, out_quiet_hi;
    rewrite Hm; ring.
Qed.

(** A source state writes to epoch [ts+1], at [t = 1] and at
    [t = min(maxT-1, t+1)] only. *)
Lemma fwd_cell_elsewhere (t ts d h : Z) (s : Fwd) (t' ts' d' h' : Z) :
  (ts' <> ts + 1 \/ (t' <> 1 /\ t' <> Z.min (maxT - 1) (t + 1)))%Z ->
  F (fwd_cell p e hor t ts d h s) t' ts' d' h' = F s t' ts' d' h'.
Proof.
  intros Hne.
  destruct (fwd_cell_amounts p e hor t ts d h s) as (-> & _).
  rewrite !add4_other by (destruct Hne as [H|[H1 H2]]; auto).
  reflexivity.
Qed.

(** While [t < maxT] is swept from the initial state, nothing moves. *)
Definition untouched (s0 s : Fwd) : Prop := same_F (F s) (F (fwd_init s0)).

Lemma sweep_early_cell (s0 : Fwd) (t ts d h : Z) (s : Fwd) :
  (1 <= t <= maxT - 1)%Z -> (0 <= ts <= maxTs - 1)%Z ->
  (0 <= d <= maxD)%Z -> (0 <= h <= maxH)%Z ->
  untouched s0 s -> untouched s0 (fwd_cell p e hor t ts d h s).
Proof.
  intros Ht Hts Hd Hh Hs t' ts' d' h'.
  assert (Hm : F s t ts d h == 0).
  { rewrite (Hs t ts d h).
    rewrite fwd_init_zero; [reflexivity| |lia].
    unfold on_F_lattice. lia. }
  etransitivity; [exact (fwd_cell_empty t ts d h s Hm t' ts' d' h')|].
  apply Hs.
Qed.

(** While [t = maxT] is swept, only epoch 1 at [t < maxT] receives. *)
Definition only_epoch1 (s0 s : Fwd) : Prop :=
  forall t ts d h, (ts <> 1 \/ t = maxT)%Z ->
    F s t ts d h == F (fwd_init s0) t ts d h.

Lemma sweep_last_cell (s0 : Fwd) (ts d h : Z) (s : Fwd) :
  (0 <= ts <= maxTs - 1)%Z -> (0 <= d <= maxD)%Z -> (0 <= h <= maxH)%Z ->
  only_epoch1 s0 s -> only_epoch1 s0 (fwd_cell p e hor maxT ts d h s).
Proof.
  intros Hts Hd Hh Hs t' ts' d' h' Hc.
  destruct (Z.eq_dec ts 0) as [->|Hts0].
  - rewrite fwd_cell_elsewhere; [now apply Hs|].
    unfold maxT in *. lia.
  - assert (Hm : F s maxT ts d h == 0).
    { rewrite (Hs maxT ts d h) by auto.
      rewrite fwd_init_zero; [reflexivity| |lia].
      unfold on_F_lattice, maxT. lia. }
    etransitivity; [exact (fwd_cell_empty maxT ts d h s Hm t' ts' d' h')|].
    now apply Hs.
Qed.

(** The passes of the sweep for [t] from [lo] to [hi]. *)
Definition fwd_sweep_passes (lo hi : Z) (s : Fwd) : Fwd :=
  for_up lo hi (fun t =>
    for_up 0 (maxTs - 1) (fun ts =>
      for_up 0 maxD (fun d =>
        for_up 0 maxH (fun h => fwd_cell p e hor t ts d h)))) s.

Lemma fwd_sweep_split (s : Fwd) :
  fwd_sweep p e hor s
  = fwd_sweep_passes maxT maxT
      (fwd_sweep_passes 1 (maxT - 1) (mk_Fwd (F s) 0 0 0)).
Proof.
  unfold fwd_sweep, fwd_sweep_passes.
  rewrite (for_up_last _ 1 maxT) by (unfold maxT; lia).
  rewrite (for_up_last _ maxT maxT) by lia.
  rewrite (for_up_empty _ maxT (maxT - 1)) by lia.
  reflexivity.
Qed.

Lemma sweep_early (s0 s : Fwd) :
  untouched s0 s -> untouched s0 (fwd_sweep_passes 1 (maxT - 1) s).
Proof.
  intros Hs. unfold fwd_sweep_passes.
  apply (for_up_keeps _ (untouched s0)); [|exact Hs].
  intros t' s1 Ht' H1.
  apply (for_up_keeps _ (untouched s0)); [|exact H1].
  intros ts s2 Hts H2.
  apply (for_up_keeps _ (untouched s0)); [|exact H2].
  intros d' s3 Hd' H3.
  apply (for_up_keeps _ (untouched s0)); [|exact H3].
  intros h' s4 Hh'. now apply sweep_early_cell.
Qed.

Lemma sweep_last (s0 s : Fwd) :
  only_epoch1 s0 s -> only_epoch1 s0 (fwd_sweep_passes maxT maxT s).
Proof.
  intros Hs. unfold fwd_sweep_passes.
  apply (for_up_keeps _ (only_epoch1 s0)); [|exact Hs].
  intros t' s1 Ht' H1. assert (t' = maxT) as -> by lia.
  apply (for_up_keeps _ (only_epoch1 s0)); [|exact H1].
  intros ts s2 Hts H2.
  apply (for_up_keeps _ (only_epoch1 s0)); [|exact H2].
  intros d' s3 Hd' H3.
  apply (for_up_keeps _ (only_epoch1 s0)); [|exact H3].
  intros h' s4 Hh'. now apply sweep_last_cell.
Qed.

(** After the first sweep no mass has reached the breeding point. *)
Lemma fwd_sweep_first (s0 : Fwd) (t d h : Z) :
  (1 <= t <= maxT)%Z -> (0 <= d <= maxD)%Z -> (0 <= h <= maxH)%Z ->
  F (fwd_sweep p e hor (fwd_init s0)) t maxTs d h == 0.
Proof.
  intros Ht Hd Hh. rewrite fwd_sweep_split.
  assert (H : only_epoch1 s0
                (fwd_sweep_passes maxT maxT
                   (fwd_sweep_passes 1 (maxT - 1)
                      (mk_Fwd (F (fwd_init s0)) 0 0 0)))).
  { apply sweep_last. intros t' ts' d' h' _.
    apply sweep_early. exact (same_F_reset _ _ _ _). }
  rewrite (H t maxTs d h) by (left; unfold maxTs; lia).
  rewrite fwd_init_zero; [reflexivity| |unfold maxTs; lia].
  unfold on_F_lattice, maxTs. lia.
Qed.
End SweepFacts.

(** ** Loops whose body can fail *)

Local Open Scope Z_scope.

Section OptLoopFacts.
Context {S : Type} (body : Z -> S -> option S).

Let step (os : option S) (i : Z) : option S :=
  match os with Some s => body i s | None => None end.

Lemma fold_opt_none (l : list Z) : fold_left step l None = None.
Proof. induction l as [|a l IH]; simpl; [reflexivity|exact IH]. Qed.

Lemma fold_opt_reaches_under (J I : S -> Prop) (c : Z) (l : list Z) :
  In c l ->
  (forall i s s', In i l -> J s -> body i s = Some s' -> J s') ->
  (forall s s', J s -> body c s = Some s' -> I s') ->
  (forall i s s', In i l -> J s -> I s -> body i s = Some s' -> I s') ->
  forall s s', J s -> fold_left step l (Some s) = Some s' -> J s' /\ I s'.
Proof.
  intros Hc HJ Hset Hkeep.
  assert (Hboth : forall l', incl l' l -> forall s s',
            J s -> I s -> fold_left step l' (Some s) = Some s' ->
            J s' /\ I s').
  { induction l' as [|a l' IH]; intros Hin s s' H1 H2 Hrun; simpl in Hrun.
    - injection Hrun as <-. auto.
    - destruct (body a s) as [s1|] eqn:E;
        [|rewrite fold_opt_none in Hrun; discriminate].
      apply (IH (fun x Hx => Hin x (or_intror Hx)) s1 s'); [| |exact Hrun].
      + apply (HJ a s s1); [apply Hin; now left|exact H1|exact E].
      + apply (Hkeep a s s1); [apply Hin; now left|exact H1|exact H2|exact E]. }
  revert Hc HJ Hset Hkeep Hboth.
  induction l as [|a l IH]; intros Hc HJ Hset Hkeep Hboth s s' H1 Hrun;
    [contradiction|].
  simpl in Hrun.
  destruct (body a s) as [s1|] eqn:E;
    [|rewrite fold_opt_none in Hrun; discriminate].
  assert (HJ1 : J s1) by (apply (HJ a s s1); [now left|exact H1|exact E]).
  destruct (Z.eq_dec a c) as [->|Hne].
  - apply (Hboth l (fun x Hx => or_intror Hx) s1 s'); [exact HJ1| |exact Hrun].
    apply (Hset s s1 H1 E).
  - apply (IH ltac:(destruct Hc as [Hc|Hc]; [contradiction|exact Hc])
              (fun i s s' Hi => HJ i s s' (or_intror Hi)) Hset
              (fun i s s' Hi => Hkeep i s s' (or_intror Hi))
              (fun l' Hl' => Hboth l' (fun x Hx => or_intror (Hl' x Hx)))
              s1 s' HJ1 Hrun).
Qed.

Lemma for_up_opt_keeps (J : S -> Prop) (lo hi : Z) (s s' : S) :
  (forall i s s', lo <= i <= hi -> J s -> body i s = Some s' -> J s') ->
  J s -> for_up_opt lo hi body s = Some s' -> J s'.
Proof.
  intros HJ Hs. unfold for_up_opt. fold step.
  generalize (zrange lo hi) (fun i => proj1 (in_zrange i lo hi)).
  intros l Hl. revert s Hs.
  induction l as [|a l IH]; intros s Hs Hrun; simpl in Hrun.
  - injection Hrun as <-. exact Hs.
  - destruct (body a s) as [s1|] eqn:E;
      [|rewrite fold_opt_none in Hrun; discriminate].
    apply (IH (fun i Hi => Hl i (or_intror Hi)) s1); [|exact Hrun].
    apply (HJ a s s1); [apply Hl; now left|exact Hs|exact E].
Qed.

Lemma for_up_opt_reaches_under (J I : S -> Prop) (c lo hi : Z) (s s' : S) :
  lo <= c <= hi ->
  (forall i s s', lo <= i <= hi -> J s -> body i s = Some s' -> J s') ->
  (forall s s', J s -> body c s = Some s' -> I s') ->
  (forall i s s', lo <= i <= hi -> J s -> I s -> body i s = Some s' -> I s') ->
  J s -> for_up_opt lo hi body s = Some s' -> I s'.
Proof.
  intros Hc HJ Hset Hkeep Hs Hrun. unfold for_up_opt in Hrun. fold step in Hrun.
  apply (fold_opt_reaches_under J I c (zrange lo hi)) in Hrun.
  - apply Hrun.
  - now apply in_zrange.
  - intros i s1 s2 Hi. apply HJ. now apply in_zrange.
  - exact Hset.
  - intros i s1 s2 Hi. apply Hkeep. now apply in_zrange.
  - exact Hs.
Qed.
End OptLoopFacts.

(** ** The normalisation at the breeding point *)

(** The wipe of the epochs [1..maxTs] of one state. *)
Lemma wipe_inside (f : Z -> Z -> Z -> Z -> Q) (t d h ts : Z) :
  1 <= ts <= maxTs ->
  for_up 1 maxTs (fun ts f => upd4 f t ts d h 0%Q) f t ts d h = 0%Q.
Proof.
  intros Hts. apply for_up_reaches with (c := ts); [exact Hts| |].
  - intros f1. apply upd4_same.
  - intros ts' f1 _ H1.
    destruct (upd4_cases f1 t ts' d h 0%Q t ts d h)
      as [(_ & _ & _ & _ & E)|[_ E]]; rewrite E; [reflexivity|exact H1].
Qed.

Lemma wipe_outside (f : Z -> Z -> Z -> Z -> Q) (t d h t' ts' d' h' : Z) :
  t' <> t \/ d' <> d \/ h' <> h \/ ts' < 1 \/ maxTs < ts' ->
  for_up 1 maxTs (fun ts f => upd4 f t ts d h 0%Q) f t' ts' d' h'
  = f t' ts' d' h'.
Proof.
  intros Hne.
  apply (for_up_keeps _ (fun g => g t' ts' d' h' = f t' ts' d' h'));
    [|reflexivity].
  intros ts f1 Hts H1. rewrite upd4_other by lia. exact H1.
Qed.

Local Open Scope Q_scope.

Lemma ddiv_of_nothing (n d q : Q) : ddiv n d = Some q -> n == 0 -> q == 0.
Proof.
  unfold ddiv. destruct (Qeq_bool d 0); [discriminate|].
  intros [= <-] Hn. rewrite Hn. unfold Qdiv. ring.
Qed.

(** What the normalisation of one state [(t, d, h)] does: it divides
    [F[t][maxTs][d][h]] by [1 - predDeaths - damageDeaths], stores the
    quotient at epoch 0, and wipes the epochs [1..maxTs]. *)
Lemma fwd_norm_cell_spec (t d h : Z) (s s' : Fwd) :
  fwd_norm_cell t d h s = Some s' ->
  exists q,
    ddiv (F s t maxTs d h) (1 - predDeaths s - damageDeaths s) = Some q
    /\ F s' t 0%Z d h = q
    /\ (forall ts, (1 <= ts <= maxTs)%Z -> F s' t ts d h = 0)
    /\ (forall t' ts' d' h',
          (t' <> t \/ d' <> d \/ h' <> h \/ ts' < 0 \/ maxTs < ts')%Z ->
          F s' t' ts' d' h' = F s t' ts' d' h')
    /\ predDeaths s' = predDeaths s
    /\ damageDeaths s' = damageDeaths s
    /\ bkgrndDeaths s' = bkgrndDeaths s.
Proof.
  unfold fwd_norm_cell.
  destruct (ddiv (F s t maxTs d h) (1 - predDeaths s - damageDeaths s))
    as [q|]; [|discriminate].
  intros [= <-]. exists q. cbn [F predDeaths damageDeaths bkgrndDeaths].
  split; [reflexivity|]. split; [|split; [|split; [|auto]]].
  - rewrite wipe_outside by lia.
    rewrite upd4_same, upd4_same. reflexivity.
  - intros ts Hts. now apply wipe_inside.
  - intros t' ts' d' h' Hne.
    rewrite wipe_outside by lia.
    rewrite !upd4_other by (unfold maxTs in *; lia). reflexivity.
Qed.

(** Nothing at the breeding point ... *)
Definition boundary_empty (s : Fwd) : Prop :=
  forall t d h, (1 <= t <= maxT)%Z -> (0 <= d <= maxD)%Z ->
    (0 <= h <= maxH)%Z -> F s t maxTs d h == 0.

(** ... gives nothing at [(t, 0, d, h)] after normalisation. *)
Definition start_empty (t d h : Z) (s : Fwd) : Prop := F s t 0%Z d h == 0.

Lemma fwd_norm_cell_boundary (t d h : Z) (s s' : Fwd) :
  (1 <= t <= maxT)%Z -> (0 <= d <= maxD)%Z -> (0 <= h <= maxH)%Z ->
  boundary_empty s -> fwd_norm_cell t d h s = Some s' -> boundary_empty s'.
Proof.
  intros Ht Hd Hh Hs Hrun t' d' h' Ht' Hd' Hh'.
  destruct (fwd_norm_cell_spec t d h s s' Hrun)
    as (q & _ & _ & Hin & Hout & _).
  destruct (Z.eq_dec t' t) as [->|Hne1];
    [destruct (Z.eq_dec d' d) as [->|Hne2];
       [destruct (Z.eq_dec h' h) as [->|Hne3]|]|].
  - rewrite Hin by (unfold maxTs; lia). reflexivity.
  - rewrite Hout by auto. now apply Hs.
  - rewrite Hout by auto. now apply Hs.
  - rewrite Hout by auto. now apply Hs.
Qed.

Lemma fwd_norm_cell_sets (t d h : Z) (s s' : Fwd) :
  (1 <= t <= maxT)%Z -> (0 <= d <= maxD)%Z -> (0 <= h <= maxH)%Z ->
  boundary_empty s -> fwd_norm_cell t d h s = Some s' -> start_empty t d h s'.
Proof.
  intros Ht Hd Hh Hs Hrun. unfold start_empty.
  destruct (fwd_norm_cell_spec t d h s s' Hrun) as (q & Hq & -> & _).
  apply (ddiv_of_nothing _ _ _ Hq). now apply Hs.
Qed.

Lemma fwd_norm_cell_keeps (t d h t' d' h' : Z) (s s' : Fwd) :
  (1 <= t' <= maxT)%Z -> (0 <= d' <= maxD)%Z -> (0 <= h' <= maxH)%Z ->
  boundary_empty s -> start_empty t d h s ->
  fwd_norm_cell t' d' h' s = Some s' -> start_empty t d h s'.
Proof.
  intros Ht' Hd' Hh' Hs H0 Hrun.
  destruct (Z.eq_dec t t') as [->|Hne1];
    [destruct (Z.eq_dec d d') as [->|Hne2];
       [destruct (Z.eq_dec h h') as [->|Hne3]|]|].
  - now apply (fwd_norm_cell_sets t' d' h' s).
  - unfold start_empty.
    destruct (fwd_norm_cell_spec t' d' h' s s' Hrun) as (q & _ & _ & _ & -> & _);
      auto.
  - unfold start_empty.
    destruct (fwd_norm_cell_spec t' d' h' s s' Hrun) as (q & _ & _ & _ & -> & _);
      auto.
  - unfold start_empty.
    destruct (fwd_norm_cell_spec t' d' h' s s' Hrun) as (q & _ & _ & _ & -> & _);
      auto.
Qed.

Lemma sum_range_nothing (lo hi : Z) (g : Z -> Q) :
  (forall i, (lo <= i <= hi)%Z -> g i == 0) -> sum_range lo hi g == 0.
Proof.
  intros Hg. unfold sum_range.
  assert (H : forall l a, (forall i, In i l -> g i == 0) ->
            fold_left (fun acc i => acc + g i) l a == a).
  { induction l as [|x l IH]; intros a Hl; simpl; [reflexivity|].
    rewrite IH by (intros i Hi; apply Hl; now right).
    rewrite (Hl x) by now left. ring. }
  apply H. intros i Hi. apply Hg. now apply in_zrange.
Qed.

Lemma lattice_sum_nothing (g : Z -> Z -> Z -> Q) :
  (forall t d h, (1 <= t <= maxT)%Z -> (0 <= d <= maxD)%Z ->
     (0 <= h <= maxH)%Z -> g t d h == 0) ->
  lattice_sum g == 0.
Proof.
  intros Hg. unfold lattice_sum.
  apply sum_range_nothing. intros t Ht.
  apply sum_range_nothing. intros d Hd.
  apply sum_range_nothing. intros h Hh. now apply Hg.
Qed.

Lemma fwd_norm_h_boundary (t d : Z) (s s' : Fwd) :
  (1 <= t <= maxT)%Z -> (0 <= d <= maxD)%Z ->
  boundary_empty s -> fwd_norm_h t d s = Some s' -> boundary_empty s'.
Proof.
  intros Ht Hd. apply for_up_opt_keeps.
  intros h s1 s2 Hh H1 Hrun.
  now apply (fwd_norm_cell_boundary t d h s1 s2).
Qed.

Lemma fwd_norm_d_boundary (t : Z) (s s' : Fwd) :
  (1 <= t <= maxT)%Z ->
  boundary_empty s -> fwd_norm_d t s = Some s' -> boundary_empty s'.
Proof.
  intros Ht. apply for_up_opt_keeps.
  intros d s1 s2 Hd H1 Hrun.
  now apply (fwd_norm_h_boundary t d s1 s2).
Qed.

Lemma fwd_norm_h_keeps (t d h t' d' : Z) (s s' : Fwd) :
  (1 <= t' <= maxT)%Z -> (0 <= d' <= maxD)%Z ->
  boundary_empty s -> start_empty t d h s ->
  fwd_norm_h t' d' s = Some s' -> start_empty t d h s'.
Proof.
  intros Ht' Hd' H1 H2 Hrun.
  apply (for_up_opt_keeps (fun h' => fwd_norm_cell t' d' h')
           (fun s => boundary_empty s /\ start_empty t d h s)
           0 maxH s s'); [|auto|exact Hrun].
  intros h' s1 s2 Hh' [H3 H4] Hcell. split.
  - now apply (fwd_norm_cell_boundary t' d' h' s1 s2).
  - now apply (fwd_norm_cell_keeps t d h t' d' h' s1 s2).
Qed.

Lemma fwd_norm_d_keeps (t d h t' : Z) (s s' : Fwd) :
  (1 <= t' <= maxT)%Z ->
  boundary_empty s -> start_empty t d h s ->
  fwd_norm_d t' s = Some s' -> start_empty t d h s'.
Proof.
  intros Ht' H1 H2 Hrun.
  apply (for_up_opt_keeps (fun d' => fwd_norm_h t' d')
           (fun s => boundary_empty s /\ start_empty t d h s)
           0 maxD s s'); [|auto|exact Hrun].
  intros d' s1 s2 Hd' [H3 H4] Hcell. split.
  - now apply (fwd_norm_h_boundary t' d' s1 s2).
  - now apply (fwd_norm_h_keeps t d h t' d' s1 s2).
Qed.

(** From an empty breeding point, the normalisation (when its divisions
    are defined) leaves nothing at epoch 0 and nothing at epoch [maxTs]. *)
Lemma fwd_normalise_nothing (s s' : Fwd) (t d h : Z) :
  (1 <= t <= maxT)%Z -> (0 <= d <= maxD)%Z -> (0 <= h <= maxH)%Z ->
  boundary_empty s -> fwd_normalise s = Some s' ->
  F s' t 0%Z d h == 0 /\ F s' t maxTs d h == 0.
Proof.
  intros Ht Hd Hh Hs. unfold fwd_normalise.
  destruct (ddiv (F s 1%Z maxTs 0%Z 0%Z)
              (1 - predDeaths s - damageDeaths s - bkgrndDeaths s))
    as [q0|] eqn:E0; [|discriminate].
  set (sa := mk_Fwd (upd4 (F s) 1%Z maxTs 0%Z 0%Z q0) (predDeaths s)
                    (damageDeaths s) (bkgrndDeaths s)).
  assert (Ha : boundary_empty sa).
  { intros t' d' h' Ht' Hd' Hh'. unfold sa. cbn [F].
    destruct (upd4_cases (F s) 1%Z maxTs 0%Z 0%Z q0 t' maxTs d' h')
      as [(-> & _ & -> & -> & E)|[_ E]]; rewrite E.
    - apply (ddiv_of_nothing _ _ _ E0). now apply Hs.
    - now apply Hs. }
  change (for_up_opt 1 maxT (fun t0 => fwd_norm_d t0) sa = Some s' ->
          F s' t 0%Z d h == 0 /\ F s' t maxTs d h == 0).
  clearbody sa. intros Hrun. split.
  - apply (for_up_opt_reaches_under (fun t0 => fwd_norm_d t0)
             boundary_empty (start_empty t d h)
             t 1 maxT sa s' Ht); [| | |exact Ha|exact Hrun].
    + intros t' s1 s2 Ht'. now apply fwd_norm_d_boundary.
    + intros s1 s2 H1.
      apply (for_up_opt_reaches_under (fun d0 => fwd_norm_h t d0)
               boundary_empty (start_empty t d h)
               d 0 maxD s1 s2 Hd); [| | |exact H1].
      * intros d' s3 s4 Hd'. now apply fwd_norm_h_boundary.
      * intros s3 s4 H3.
        apply (for_up_opt_reaches_under (fun h0 => fwd_norm_cell t d h0)
                 boundary_empty (start_empty t d h)
                 h 0 maxH s3 s4 Hh); [| | |exact H3].
        -- intros h' s5 s6 Hh'. now apply fwd_norm_cell_boundary.
        -- intros s5 s6. now apply fwd_norm_cell_sets.
        -- intros h' s5 s6 Hh'. now apply fwd_norm_cell_keeps.
      * intros d' s3 s4 Hd'. now apply fwd_norm_h_keeps.
    + intros t' s1 s2 Ht'. now apply fwd_norm_d_keeps.
  - apply (for_up_opt_keeps (fun t0 => fwd_norm_d t0) boundary_empty
             1 maxT sa s');
      [|exact Ha|exact Hrun|exact Ht|exact Hd|exact Hh].
    intros t' s1 s2 Ht'. now apply fwd_norm_d_boundary.
Qed.

(** C3 fails on [fwdCalc]'s own initial state.  With all mass at
    [(maxT, 0, 0, 0)], whatever the tables and the policy, the first pass
    of the [while] body does not leave a distribution of total mass 1 at
    the breeding point: either one of its divisions is [x/0], or the
    renormalised frequencies (copied to epoch 0, then wiped at epoch
    [maxTs]) are all 0. *)
Theorem fwdCalc_first_pass_not_normalised (p : Params) (e : Tables)
  (hor : Z -> Z -> Z -> Z) (s0 : Fwd) :
  ~ (exists s',
       fwd_pass p e hor (fwd_init s0) = Some s'
       /\ (lattice_sum (fun t d h => F s' t 0%Z d h) == 1
           \/ lattice_sum (fun t d h => F s' t maxTs d h) == 1)).
Proof.
  intros (s' & Hrun & Hsum). unfold fwd_pass in Hrun.
  assert (Hb : boundary_empty (fwd_sweep p e hor (fwd_init s0)))
    by (intros t d h; apply fwd_sweep_first).
  assert (H0 : lattice_sum (fun t d h => F s' t 0%Z d h) == 0).
  { apply lattice_sum_nothing. intros t d h Ht Hd Hh.
    now apply (fwd_normalise_nothing _ s' t d h Ht Hd Hh Hb). }
  assert (H1 : lattice_sum (fun t d h => F s' t maxTs d h) == 0).
  { apply lattice_sum_nothing. intros t d h Ht Hd Hh.
    now apply (fwd_normalise_nothing _ s' t d h Ht Hd Hh Hb). }
  destruct Hsum as [H|H]; [rewrite H0 in H|rewrite H1 in H]; discriminate H.
Qed.


(** ** The fitness the search keeps *)

Local Open Scope Q_scope.

Lemma std_max_spec (a b : Q) :
  (a < b /\ std_max a b = b) \/ (b <= a /\ std_max a b = a).
Proof.
  unfold std_max. destruct (Qltb a b) eqn:E.
  - left. split; [now apply Qltb_lt|reflexivity].
  - right. split; [now apply Qltb_ge|reflexivity].
Qed.

(** The clamped damage interpolates between lattice points. *)
Lemma clamp_targets (y : Q) :
  (0 <= Qfloor (std_max 0 (std_min (inject_Z maxD) y))
   /\ Qceiling (std_max 0 (std_min (inject_Z maxD) y)) <= maxD)%Z.
Proof.
  assert (H : 0 <= std_max 0 (std_min (inject_Z maxD) y) <= inject_Z maxD).
  { assert (HD : 0 <= inject_Z maxD) by discriminate.
    destruct (std_min_spec (inject_Z maxD) y) as [[H1 ->]|[H1 ->]];
      [destruct (std_max_spec 0 y) as [[H2 ->]|[H2 ->]]
      |destruct (std_max_spec 0 (inject_Z maxD)) as [[H2 ->]|[H2 ->]]];
      lra. }
  destruct H as [H1 H2]. split.
  - apply Qfloor_resp_le in H1. exact H1.
  - apply Qceiling_resp_le in H2. now rewrite Qceiling_Z in H2.
Qed.

(** On the lattice the tables [main] fills hold the closed-form entries. *)
Lemma W_value_closed (p : Params) (ts d h : Z) :
  (0 <= ts <= maxTs)%Z -> (0 <= d <= maxD)%Z -> (0 <= h <= maxH)%Z ->
  W_value p (tables_of p) (fun _ _ d' => repro (tables_of p) maxTs d')
          1 ts d h
  = W_value p (tables_closed p)
            (fun _ _ d' => repro (tables_closed p) maxTs d') 1 ts d h.
Proof.
  intros Hts Hd Hh.
  unfold W_value, tables_of, tables_closed.
  cbn [pPred pKilled mu dnew repro].
  rewrite (proj1 (PredProb_unfold p (fun _ => Some 0))).
  rewrite !Damage_entry, !Mortality_entry, !Predation_alpha1_entry
    by assumption.
  match goal with
  | |- context [Qfloor (std_max 0 (std_min (inject_Z maxD) ?y))] =>
      destruct (clamp_targets y) as [Hlo Hhi];
      pose proof (Qfloor_le_ceiling
                    (std_max 0 (std_min (inject_Z maxD) y))) as Hfc
  end.
  rewrite !Reproduction_entry by (unfold maxTs in *; lia).
  reflexivity.
Qed.

(** Steps of one lattice unit suffice for monotonicity. *)
Lemma increasing_by_steps (f : Z -> Q) :
  (forall h, (0 <= h < maxH)%Z -> f h < f (h + 1)%Z) ->
  strictly_increasing f.
Proof.
  intros Hstep i j Hi Hij Hj.
  replace j with (i + 1 + Z.of_nat (Z.to_nat (j - i - 1)))%Z in * by lia.
  induction (Z.to_nat (j - i - 1)) as [|n IH].
  - rewrite Z.add_0_r. apply Hstep. simpl in Hj. lia.
  - eapply Qlt_trans; [apply IH; lia|].
    replace (i + 1 + Z.of_nat (S n))%Z with (i + 1 + Z.of_nat n + 1)%Z
      by lia.
    apply Hstep. lia.
Qed.

Lemma W_flat_steps :
  forallb (fun h => Qltb (W_flat h) (W_flat (h + 1)))
          (zrange 0 (maxH - 1)) = true.
Proof. vm_compute. reflexivity. Qed.

Lemma W_flat_increasing : strictly_increasing W_flat.
Proof.
  apply increasing_by_steps. intros h Hh.
  pose proof W_flat_steps as H. rewrite forallb_forall in H.
  apply Qltb_lt, H, in_zrange. lia.
Qed.

(** With no cost of damage, the row [Wnext[1][maxTs-1][0][.]] of the
    first outer iteration. *)
Lemma first_epoch_flat_row (h : Z) :
  (0 <= h <= maxH)%Z ->
  Wnext (OptDec params_flat (tables_of params_flat)
           (FinalFit (tables_of params_flat) fit_start)) 1 (maxTs - 1) 0 h
  = W_flat h.
Proof.
  intros Hh.
  destruct (OptDec_W_written params_flat (tables_of params_flat)
              1 (maxTs - 1) 0 h
              (FinalFit (tables_of params_flat) fit_start)) as [_ ->];
    try (unfold maxT, maxTs, maxD; lia).
  assert (Hdn : dnew (tables_of params_flat) 0 h
                = dnew (tables_closed params_flat) 0 h).
  { unfold tables_of, tables_closed. cbn [dnew].
    apply Damage_entry; [unfold maxD; lia|exact Hh]. }
  destruct (first_epoch_W params_flat (tables_of params_flat) fit_start
              1 0 h) as [-> _];
    try (unfold maxT, maxD; lia).
  - rewrite Hdn. unfold tables_closed. cbn [dnew]. apply clamp_targets.
  - rewrite Hdn. unfold tables_closed. cbn [dnew]. apply clamp_targets.
  - apply W_value_closed; unfold maxTs, maxD; try lia.
Qed.

Lemma OptDec_hormone_near_peak_witness :
  (Z.abs (hormone (OptDec params_flat (tables_of params_flat)
                     (FinalFit (tables_of params_flat) fit_start))
                  0 (maxTs - 2) 0
          - maxH) <= 1)%Z.
Proof.
  refine (OptDec_hormone_near_peak _ _ _ 0 (maxTs - 2) 0 maxH _ _ _ _ _);
    try (unfold maxT, maxTs, maxD, maxH; lia).
  split.
  - intros i j Hi Hij Hj.
    change (Z.min maxT (0 + 1)) with 1%Z.
    change (maxTs - 2 + 1)%Z with (maxTs - 1)%Z.
    rewrite (first_epoch_flat_row i), (first_epoch_flat_row j) by lia.
    now apply W_flat_increasing.
  - intros i j Hi Hij Hj. lia.
Defined.

(** C2 fails in the first outer iteration with [pLeave = 0.5],
    [pArrive = 0.1], [pAttack = 0.5], [alpha = 1], [Kmort = 0],
    [Kfec = 0].  The row [Wnext[1][maxTs-1][0][.]] that the search of
    [(t, ts, d) = (0, maxTs-2, 0)] reads increases strictly with [h];
    the search stops at [hormone = maxH-1 = 499], within one unit of the
    argmax [maxH], but [Wopt] is the value read at [498] in the pass
    before the last, [0.997002], not the value [0.997501] at the recorded
    index. *)
Theorem OptDec_Wopt_not_at_hormone :
  hormone (OptDec params_flat (tables_of params_flat)
             (FinalFit (tables_of params_flat) fit_start))
          0 (maxTs - 2) 0
  = 499%Z
  /\ Wopt (OptDec params_flat (tables_of params_flat)
             (FinalFit (tables_of params_flat) fit_start))
          0 (maxTs - 2) 0
     = Wnext (OptDec params_flat (tables_of params_flat)
                (FinalFit (tables_of params_flat) fit_start))
             1 (maxTs - 1) 0 498
  /\ Wopt (OptDec params_flat (tables_of params_flat)
             (FinalFit (tables_of params_flat) fit_start))
          0 (maxTs - 2) 0
     == 997002 # 1000000
  /\ Wnext (OptDec params_flat (tables_of params_flat)
              (FinalFit (tables_of params_flat) fit_start))
           1 (maxTs - 1) 0
           (hormone (OptDec params_flat (tables_of params_flat)
                       (FinalFit (tables_of params_flat) fit_start))
                    0 (maxTs - 2) 0)
     == 997501 # 1000000.
Proof.
  set (p := params_flat). set (e := tables_of p).
  set (s := FinalFit e fit_start).
  set (body := fun ts s' => OptDec_fitness p e ts (OptDec_decide ts s')).
  (* the row of epoch maxTs-1 at t = 1, d = 0, after OptDec *)
  pose proof first_epoch_flat_row as Hrow. fold p e s in Hrow.
  (* the same row before the later epochs ran *)
  assert (Hsplit : OptDec p e s
                   = for_down (maxTs - 2) 0 body (body (maxTs - 1)%Z s)).
  { unfold OptDec. rewrite for_down_first by (unfold maxTs; lia).
    reflexivity. }
  assert (Hrow9 : forall h, (0 <= h <= maxH)%Z ->
            Wnext (body (maxTs - 1)%Z s) (Z.min maxT (0 + 1))
                  (maxTs - 2 + 1) 0 h
            = W_flat h).
  { intros h Hh. rewrite <- (Hrow h Hh). rewrite Hsplit.
    symmetry.
    apply (OptDec_passes_keep_later p e (body (maxTs - 1)%Z s)
             (maxTs - 2) (maxTs - 1)).
    unfold maxTs. lia. }
  (* the search of epoch maxTs-2 *)
  destruct (OptDec_passes_record p e (body (maxTs - 1)%Z s) (maxTs - 2) 0 0)
    as [Hh Hw]; try (unfold maxT, maxTs, maxD; lia).
  fold body in Hh, Hw. rewrite <- Hsplit in Hh, Hw.
  rewrite (golden_section_ext
             (fun h => Wnext (body (maxTs - 1)%Z s) (Z.min maxT (0 + 1))
                             (maxTs - 2 + 1) 0 h)
             W_flat 0 0 Hrow9) in Hh, Hw.
  destruct (golden_section_increasing W_flat 0 0 W_flat_increasing)
    as [Hx Hf].
  rewrite Hx in Hh. rewrite Hf in Hw.
  pose proof (Hrow (maxH - 2)%Z ltac:(unfold maxH; lia)) as E498.
  pose proof (Hrow (maxH - 1)%Z ltac:(unfold maxH; lia)) as E499.
  split; [exact Hh|]. split; [exact (eq_trans Hw (eq_sym E498))|].
  rewrite Hh, Hw, E499. clear.
  split; vm_compute; reflexivity.
Qed.


(** * The tables [main] fills *)

(** ** [Damage] *)

Local Open Scope Q_scope.

Lemma std_max_Qmax (a b : Q) : std_max a b == Qmax a b.
Proof.
  destruct (std_max_spec a b) as [[H ->]|[H ->]].
  - symmetry. apply Q.max_r. now apply Qlt_le_weak.
  - symmetry. now apply Q.max_l.
Qed.

(** The clamp [max(0, min(maxD, y))] is monotone. *)
Lemma clamp_mono (y y' : Q) :
  y <= y' ->
  std_max 0 (std_min (inject_Z maxD) y)
  <= std_max 0 (std_min (inject_Z maxD) y').
Proof.
  intros Hy. rewrite !std_max_Qmax.
  apply Q.max_le_compat_l. rewrite !std_min_Qmin.
  now apply Q.min_le_compat_l.
Qed.

Lemma clamp_eq (y y' : Q) :
  y == y' ->
  std_max 0 (std_min (inject_Z maxD) y)
  == std_max 0 (std_min (inject_Z maxD) y').
Proof.
  intros Hy. apply Qle_antisym; apply clamp_mono; rewrite Hy; apply Qle_refl.
Qed.

Lemma clamp_range (y : Q) :
  0 <= std_max 0 (std_min (inject_Z maxD) y) <= inject_Z maxD.
Proof.
  assert (HD : 0 <= inject_Z maxD) by discriminate.
  destruct (std_min_spec (inject_Z maxD) y) as [[H1 ->]|[H1 ->]];
    [destruct (std_max_spec 0 y) as [[H2 ->]|[H2 ->]]
    |destruct (std_max_spec 0 (inject_Z maxD)) as [[H2 ->]|[H2 ->]]];
    lra.
Qed.

Lemma Qceiling_le_floor_succ (x : Q) : (Qceiling x <= Qfloor x + 1)%Z.
Proof.
  pose proof (Qlt_floor x) as H. apply Qlt_le_weak in H.
  apply Qceiling_resp_le in H. now rewrite Qceiling_Z in H.
Qed.

(** Every entry of [dnew] on the lattice lies in [0, maxD], so the two
    interpolation indices [d1 = floor(dnew[d][h])] and
    [d2 = ceil(dnew[d][h])] that [OptDec], [fwdCalc] and [SimAttacks]
    compute are indices of the damage lattice, at most one apart, and the
    weight [ddec = dnew[d][h] - d1] lies in [0, 1). *)
Theorem Damage_targets_on_lattice (dn : Z -> Z -> Q) (d h : Z) :
  (0 <= d <= maxD)%Z -> (0 <= h <= maxH)%Z ->
  0 <= Damage dn d h <= inject_Z maxD
  /\ (0 <= Qfloor (Damage dn d h) <= Qceiling (Damage dn d h))%Z
  /\ (Qceiling (Damage dn d h) <= maxD)%Z
  /\ (Qceiling (Damage dn d h) <= Qfloor (Damage dn d h) + 1)%Z
  /\ 0 <= Damage dn d h - inject_Z (Qfloor (Damage dn d h)) < 1.
Proof.
  intros Hd Hh. rewrite Damage_entry by assumption.
  match goal with
  | |- context [std_max 0 (std_min (inject_Z maxD) ?y)] =>
      pose proof (clamp_range y) as Hr;
      pose proof (clamp_targets y) as [Hlo Hhi];
      generalize dependent (std_max 0 (std_min (inject_Z maxD) y))
  end.
  intros x Hr Hlo Hhi.
  pose proof (Qfloor_le_ceiling x) as Hfc.
  pose proof (Qceiling_le_floor_succ x) as Hcf.
  pose proof (Qfloor_le x) as Hf.
  pose proof (Qlt_floor x) as Hl.
  rewrite inject_Z_plus in Hl.
  change (inject_Z 1) with 1 in Hl.
  repeat split; try assumption; try lia; lra.
Qed.

Lemma Damage_targets_on_lattice_witness :
  0 <= Damage (fun _ _ => 0) 3 0 <= inject_Z maxD.
Proof.
  refine (proj1 (Damage_targets_on_lattice _ 3 0 _ _));
    unfold maxD, maxH; lia.
Defined.

Lemma sq_nonneg (x : Q) : 0 <= x * x.
Proof.
  destruct (Qlt_le_dec x 0) as [H|H].
  - setoid_replace (x * x) with ((- x) * (- x)) by ring.
    apply Qmult_le_0_compat; lra.
  - now apply Qmult_le_0_compat.
Qed.

(** The hormone level [hmin * maxH = 150] repairs: there
    [dnew[d][150] = max(0, d - repair)], no other level leaves less
    damage, and more damage before never means less damage after. *)
Theorem Damage_least_at_hmin (dn : Z -> Z -> Q) (d h : Z) :
  (0 <= d <= maxD)%Z -> (0 <= h <= maxH)%Z ->
  Damage dn d 150 == inject_Z (Z.max 0 (d - repair))
  /\ Damage dn d 150 <= Damage dn d h
  /\ forall d', (d <= d' <= maxD)%Z -> Damage dn d h <= Damage dn d' h.
Proof.
  intros Hd Hh.
  rewrite (Damage_entry dn d 150), (Damage_entry dn d h)
    by (try assumption; unfold maxH; lia).
  assert (Hz : hmin - inject_Z 150 / inject_Z maxH == 0) by reflexivity.
  split; [|split].
  - rewrite (clamp_eq _ (inject_Z (d - repair)))
      by (rewrite Hz; unfold Z.sub; rewrite inject_Z_plus, inject_Z_opp;
          ring).
    assert (Hlt : inject_Z (d - repair) < inject_Z maxD)
      by (rewrite <- Zlt_Qlt; unfold repair, maxD in *; lia).
    destruct (std_min_spec (inject_Z maxD) (inject_Z (d - repair)))
      as [[H1 ->]|[H1 ->]]; [|lra].
    destruct (std_max_spec 0 (inject_Z (d - repair))) as [[H2 ->]|[H2 ->]].
    + change 0 with (inject_Z 0) in H2. rewrite <- Zlt_Qlt in H2.
      rewrite Z.max_r by lia. reflexivity.
    + change 0 with (inject_Z 0) in H2. rewrite <- Zle_Qle in H2.
      rewrite Z.max_l by lia. reflexivity.
  - apply clamp_mono.
    pose proof (sq_nonneg (hmin - inject_Z h / inject_Z maxH)) as Hs.
    rewrite Hz. unfold hslope in *. lra.
  - intros d' Hd'. rewrite (Damage_entry dn d' h) by (try assumption; lia).
    apply clamp_mono.
    assert (Hdd : inject_Z d <= inject_Z d') by (rewrite <- Zle_Qle; lia).
    lra.
Qed.

Lemma Damage_least_at_hmin_witness :
  Damage (fun _ _ => 0) 5 150 <= Damage (fun _ _ => 0) 5 0.
Proof.
  refine (proj1 (proj2 (Damage_least_at_hmin _ 5 0 _ _)));
    unfold maxD, maxH; lia.
Defined.

(** ** [Predation] *)

Lemma Predation_entry (alpha : nat) (pk : Z -> Q) (h : Z) :
  (0 <= h <= maxH)%Z ->
  Predation alpha pk h
  = std_max 0 (1 - pow_nat (inject_Z h / inject_Z maxH) alpha).
Proof.
  intros Hh. unfold Predation.
  apply for_up_reaches with (c := h); [exact Hh| |].
  - intros pk1. apply upd1_same.
  - intros h' pk1 _ H1. unfold upd1.
    destruct (Z.eqb_spec h h') as [<-|]; [reflexivity|exact H1].
Qed.

Lemma pow_nat_unit (x : Q) (n : nat) :
  0 <= x <= 1 -> 0 <= pow_nat x n <= 1.
Proof.
  intros Hx. induction n as [|n IH]; simpl; [lra|].
  split.
  - apply Qmult_le_0_compat; lra.
  - apply Qle_trans with (1 * pow_nat x n); [|lra].
    apply Qmult_le_compat_r; lra.
Qed.

Lemma pow_nat_mono (x y : Q) (n : nat) :
  0 <= x -> x <= y -> pow_nat x n <= pow_nat y n.
Proof.
  intros Hx Hxy. induction n as [|n IH]; simpl; [lra|].
  assert (H0 : 0 <= pow_nat x n).
  { clear IH. induction n as [|n IHn]; simpl; [lra|].
    now apply Qmult_le_0_compat. }
  apply Qle_trans with (y * pow_nat x n).
  - apply Qmult_le_compat_r; assumption.
  - rewrite !(Qmult_comm y). apply Qmult_le_compat_r; lra.
Qed.

Lemma pow_nat_one (n : nat) : pow_nat 1 n == 1.
Proof. induction n as [|n IH]; simpl; [reflexivity|rewrite IH; ring]. Qed.

Lemma hormone_fraction (h : Z) :
  inject_Z h / inject_Z maxH == inject_Z h * (1 # 500).
Proof. reflexivity. Qed.

Lemma hormone_fraction_unit (h : Z) :
  (0 <= h <= maxH)%Z -> 0 <= inject_Z h / inject_Z maxH <= 1.
Proof.
  intros Hh. rewrite hormone_fraction.
  assert (H0 : inject_Z 0 <= inject_Z h) by (rewrite <- Zle_Qle; lia).
  assert (H1 : inject_Z h <= inject_Z maxH) by (rewrite <- Zle_Qle; lia).
  change (inject_Z 0) with 0 in H0. change (inject_Z maxH) with 500 in H1.
  lra.
Qed.

(** For every natural exponent [alpha], [pKilled[h]] is a probability
    that does not increase with the hormone level and is 0 at [maxH];
    it is 1 at [h = 0] unless [alpha = 0], in which case every entry is
    0. *)
Theorem Predation_probability (alpha : nat) (pk : Z -> Q) (h : Z) :
  (0 <= h <= maxH)%Z ->
  0 <= Predation alpha pk h <= 1
  /\ (forall h', (h <= h' <= maxH)%Z ->
        Predation alpha pk h' <= Predation alpha pk h)
  /\ Predation alpha pk maxH == 0
  /\ (alpha <> O -> Predation alpha pk 0 == 1)
  /\ (alpha = O -> Predation alpha pk h == 0).
Proof.
  intros Hh.
  rewrite (Predation_entry alpha pk h Hh).
  rewrite (Predation_entry alpha pk maxH), (Predation_entry alpha pk 0)
    by (unfold maxH; lia).
  pose proof (pow_nat_unit _ alpha (hormone_fraction_unit h Hh)) as Hp.
  split; [|split; [|split; [|split]]].
  - rewrite std_max_Qmax. split.
    + apply Q.le_max_l.
    + apply Q.max_lub; lra.
  - intros h' Hh'. rewrite (Predation_entry alpha pk h') by lia.
    rewrite !std_max_Qmax. apply Q.max_le_compat_l.
    assert (Hm : pow_nat (inject_Z h / inject_Z maxH) alpha
                 <= pow_nat (inject_Z h' / inject_Z maxH) alpha).
    { apply pow_nat_mono; [apply hormone_fraction_unit; exact Hh|].
      rewrite !hormone_fraction.
      assert (H1 : inject_Z h <= inject_Z h') by (rewrite <- Zle_Qle; lia).
      lra. }
    lra.
  - rewrite std_max_Qmax.
    assert (E : pow_nat (inject_Z maxH / inject_Z maxH) alpha == 1).
    { change (inject_Z maxH / inject_Z maxH)
        with ((500 # 1) * (1 # 500)).
      assert (E1 : pow_nat ((500 # 1) * (1 # 500)) alpha
                   <= pow_nat 1 alpha)
        by (apply pow_nat_mono; [discriminate|apply Qle_lteq; right;
            reflexivity]).
      assert (E2 : pow_nat 1 alpha
                   <= pow_nat ((500 # 1) * (1 # 500)) alpha)
        by (apply pow_nat_mono; [discriminate|apply Qle_lteq; right;
            reflexivity]).
      rewrite pow_nat_one in E1, E2. lra. }
    rewrite E. reflexivity.
  - intros Ha. destruct alpha as [|n]; [contradiction|].
    rewrite std_max_Qmax. cbn [pow_nat].
    assert (E0 : inject_Z 0 / inject_Z maxH == 0) by reflexivity.
    set (y := pow_nat (inject_Z 0 / inject_Z maxH) n).
    rewrite E0.
    setoid_replace (1 - 0 * y) with 1 by ring.
    reflexivity.
  - intros ->. cbn [pow_nat]. reflexivity.
Qed.

Lemma Predation_probability_witness :
  Predation 2 (fun _ => 0) 300 <= Predation 2 (fun _ => 0) 100.
Proof.
  refine (proj1 (proj2 (Predation_probability 2 _ 100 _)) 300%Z _);
    unfold maxH; lia.
Defined.

(** With [alpha = 1] the table is the one of [Predation_alpha1]. *)
Lemma Predation_alpha1_agrees (pk : Z -> Q) (h : Z) :
  (0 <= h <= maxH)%Z -> Predation 1 pk h == Predation_alpha1 pk h.
Proof.
  intros Hh. rewrite Predation_entry, Predation_alpha1_entry by exact Hh.
  rewrite !std_max_Qmax. simpl.
  setoid_replace (1 - inject_Z h / inject_Z maxH * 1)
    with (1 - inject_Z h / inject_Z maxH) by ring.
  reflexivity.
Qed.

(** ** [Reproduction] *)

Lemma Reproduction_rows (p : Params) (r : Z -> Z -> Q) (ts d : Z) :
  (0 <= ts <= maxTs)%Z -> (0 <= d <= maxD)%Z ->
  ((0 < ts < maxTs)%Z -> Reproduction p r ts d = 0)
  /\ Reproduction p r 0 d = Reproduction p r maxTs d
  /\ Reproduction p r 0 d == Qmax 0 (1 - Kfec p * inject_Z d)
  /\ 0 <= Reproduction p r ts d
  /\ (0 <= Kfec p ->
      Reproduction p r ts d <= 1
      /\ forall d', (d <= d' <= maxD)%Z ->
           Reproduction p r ts d' <= Reproduction p r ts d).
Proof.
  intros Hts Hd.
  rewrite (Reproduction_entry p r ts d Hts Hd).
  rewrite (Reproduction_entry p r 0 d), (Reproduction_entry p r maxTs d)
    by (try assumption; unfold maxTs; lia).
  change (0 mod maxTs =? 0)%Z with true.
  change (maxTs mod maxTs =? 0)%Z with true. cbv iota.
  assert (Hd0 : 0 <= inject_Z d)
    by (change 0 with (inject_Z 0); rewrite <- Zle_Qle; lia).
  split; [|split; [reflexivity|split; [apply std_max_Qmax|split]]].
  - intros Hin.
    destruct (Z.eqb_spec (ts mod maxTs) 0) as [E|_]; [|reflexivity].
    rewrite Z.mod_small in E by lia. lia.
  - destruct (ts mod maxTs =? 0)%Z; [|apply Qle_refl].
    rewrite std_max_Qmax. apply Q.le_max_l.
  - intros HK.
    assert (Hx : 0 <= Kfec p * inject_Z d)
      by (apply Qmult_le_0_compat; assumption).
    split.
    + destruct (ts mod maxTs =? 0)%Z; [|discriminate].
      rewrite std_max_Qmax. apply Q.max_lub; lra.
    + intros d' Hd'. rewrite (Reproduction_entry p r ts d') by lia.
      destruct (ts mod maxTs =? 0)%Z; [|apply Qle_refl].
      rewrite !std_max_Qmax. apply Q.max_le_compat_l.
      assert (Hdd : inject_Z d <= inject_Z d') by (rewrite <- Zle_Qle; lia).
      assert (Hy : Kfec p * inject_Z d <= Kfec p * inject_Z d').
      { rewrite !(Qmult_comm (Kfec p)).
        apply Qmult_le_compat_r; assumption. }
      lra.
Qed.

(** Reproduction happens at the season boundary only: [repro[ts][d]] is 0
    for [0 < ts < maxTs], and the rows [ts = 0] and [ts = maxTs] hold the
    same value [max(0, 1 - Kfec*d)], never negative; with [Kfec >= 0] it
    is at most 1 and does not increase with damage. *)
Theorem Reproduction_seasonal (p : Params) (r : Z -> Z -> Q) (ts d : Z) :
  (0 <= ts <= maxTs)%Z -> (0 <= d <= maxD)%Z ->
  ((0 < ts < maxTs)%Z -> Reproduction p r ts d = 0)
  /\ Reproduction p r 0 d = Reproduction p r maxTs d
  /\ Reproduction p r 0 d == Qmax 0 (1 - Kfec p * inject_Z d)
  /\ 0 <= Reproduction p r ts d
  /\ (0 <= Kfec p ->
      Reproduction p r ts d <= 1
      /\ forall d', (d <= d' <= maxD)%Z ->
           Reproduction p r ts d' <= Reproduction p r ts d).
Proof. exact (Reproduction_rows p r ts d). Qed.

Lemma Reproduction_seasonal_witness :
  Reproduction params_default (fun _ _ => 0) 4 2 = 0.
Proof.
  refine (proj1 (Reproduction_seasonal params_default _ 4 2 _ _) _);
    unfold maxTs, maxD; lia.
Defined.


(** * The search on rows without an interior peak *)

Local Open Scope Z_scope.

(** Two runs of the loop in step: the same bracket and interior points,
    and [fitness_x1] read at the same index of either row. *)
Definition same_way (f g : Z -> Q) (sf sg : gss_state) : Prop :=
  LHS sf = LHS sg /\ RHS sf = RHS sg /\ x1 sf = x1 sg /\ x2 sf = x2 sg
  /\ exists k, fitness_x1 sf = f k /\ fitness_x1 sg = g k.

(** Rows whose comparisons [f a < f b] agree on the lattice drive the
    search the same way. *)
Lemma gss_loop_follows (f g : Z -> Q) (P : Z -> bool) :
  (forall a b, 0 <= a -> a < b -> b <= maxH ->
     Qltb (f a) (f b) = Qltb (g a) (g b)) ->
  forall fuel sf sg,
    gss_paths fuel P (LHS sg) (RHS sg) (x1 sg) (x2 sg) = true ->
    same_way f g sf sg ->
    exists sf' sg',
      gss_loop fuel f sf = Some sf'
      /\ gss_loop fuel g sg = Some sg'
      /\ same_way f g sf' sg'.
Proof.
  intros Hcmp. induction fuel as [|k IH]; intros sf sg H HR;
    pose proof HR as (HL & HRr & Hx1 & Hx2 & Hfx); simpl in *;
    rewrite Hx1, Hx2;
    destruct (Z.ltb_spec (x1 sg) (x2 sg)) as [Hlt|Hge];
    try discriminate;
    try (exists sf, sg; split; [reflexivity|split; [reflexivity|exact HR]]).
  apply andb_true_iff in H as [H H2].
  apply andb_true_iff in H as [H H1].
  apply andb_true_iff in H as [Ha Hb].
  apply Z.leb_le in Ha, Hb.
  pose proof (Hcmp (x1 sg) (x2 sg) Ha Hlt Hb) as Ec.
  apply IH.
  - unfold gss_body. destruct (Qltb (g (x1 sg)) (g (x2 sg))); simpl;
      assumption.
  - unfold gss_body, same_way. rewrite Hx1, Hx2, HRr, HL, Ec.
    destruct (Qltb (g (x1 sg)) (g (x2 sg))); simpl;
      repeat split; try reflexivity; exists (x1 sg); split; reflexivity.
Qed.

Lemma gss_descending_row :
  gss_loop gss_fuel (fun h => inject_Z (- h))
           (gss_init (inject_Z (- 0)) (inject_Z (- 0)))
  = Some (mk_gss 0 2 1 1 (inject_Z (- 1)) (inject_Z (- 2))).
Proof. vm_compute. reflexivity. Qed.

Lemma gss_nonincreasing_stops (f : Z -> Q) (a b : Q) :
  (forall i j, 0 <= i -> i < j -> j <= maxH -> (f j <= f i)%Q) ->
  x1 (golden_section f a b) = 1
  /\ fitness_x1 (golden_section f a b) = f 1.
Proof.
  intros Hdec. rewrite (golden_section_locals f a b (f 0) (f 0)).
  destruct (gss_loop_follows f (fun h => inject_Z (- h))
              (fun a => (1 <=? a) && (a <=? maxH - 1))) with
    (fuel := gss_fuel) (sf := gss_init (f 0) (f 0))
    (sg := gss_init (inject_Z (- 0)) (inject_Z (- 0)))
    as (sf' & sg' & Hf & Hg & HR).
  - intros i j Hi Hij Hj.
    assert (E1 : Qltb (f i) (f j) = false)
      by (apply Qltb_ge; now apply Hdec).
    assert (E2 : Qltb (inject_Z (- i)) (inject_Z (- j)) = false)
      by (apply Qltb_ge; rewrite <- Zle_Qle; lia).
    now rewrite E1, E2.
  - exact gss_all_paths_leave.
  - unfold same_way, gss_init. simpl. repeat split.
    exists 0. split; reflexivity.
  - rewrite golden_section_run in Hf. injection Hf as <-.
    rewrite gss_descending_row in Hg. injection Hg as <-.
    destruct HR as (_ & _ & Hx1 & _ & k & Hfk & Hgk). simpl in *.
    split; [exact Hx1|].
    apply inject_Z_eq in Hgk. assert (k = 1) as -> by lia. exact Hfk.
Qed.

(** On a row that never increases (a constant row included) every
    comparison [fitness_x1 < fitness_x2] fails; the search stops at
    [x1 = 1], one above the lower end of the lattice where such a row has
    its maximum, and keeps the value read at 1. *)
Theorem golden_section_nonincreasing (f : Z -> Q) (a b : Q) :
  (forall i j, 0 <= i -> i < j -> j <= maxH -> (f j <= f i)%Q) ->
  x1 (golden_section f a b) = 1
  /\ fitness_x1 (golden_section f a b) = f 1.
Proof. exact (gss_nonincreasing_stops f a b). Qed.

Lemma golden_section_nonincreasing_witness :
  x1 (golden_section (fun _ => 7%Q) 0 0) = 1.
Proof.
  refine (proj1 (golden_section_nonincreasing (fun _ => 7%Q) 0 0 _)).
  intros i j _ _ _. apply Qle_refl.
Defined.

(** The first call of [OptDec] after [FinalFit] searches constant rows at
    the last epoch: whatever the parameters and tables, the policy there
    is [hormone[t][maxTs-1][d] = 1] for every [t] and [d], and the fitness
    kept is [repro[maxTs][d]]. *)
Theorem OptDec_first_epoch_policy (p : Params) (e : Tables) (s0 : Fit)
  (t d : Z) :
  0 <= t <= maxT -> 0 <= d <= maxD ->
  hormone (OptDec p e (FinalFit e s0)) t (maxTs - 1) d = 1
  /\ Wopt (OptDec p e (FinalFit e s0)) t (maxTs - 1) d = repro e maxTs d.
Proof.
  intros Ht Hd.
  destruct (OptDec_records p e (FinalFit e s0) t d Ht Hd) as [-> ->].
  rewrite (golden_section_ext
             (fun h => Wnext (FinalFit e s0) (Z.min maxT (t + 1)) maxTs d h)
             (fun _ => repro e maxTs d) 0 0).
  - destruct (gss_nonincreasing_stops (fun _ => repro e maxTs d) 0 0)
      as [-> ->]; [|auto].
    intros i j _ _ _. apply Qle_refl.
  - intros h Hh.
    assert (Ht' : 1 <= Z.min maxT (t + 1) <= maxT)
      by (unfold maxT in *; lia).
    exact (proj1 (FinalFit_seeds e _ d h s0 Ht' Hd Hh)).
Qed.

Lemma OptDec_first_epoch_policy_witness :
  hormone (OptDec params_default (tables_of params_default)
             (FinalFit (tables_of params_default) fit_start))
          0 (maxTs - 1) 0
  = 1.
Proof.
  refine (proj1 (OptDec_first_epoch_policy _ _ _ 0 0 _ _));
    unfold maxT, maxD; lia.
Defined.


(** * What [OptDec] depends on *)

Local Open Scope Z_scope.

(** The interpolation indices of a table [dnew] stay on the damage
    lattice. *)
Definition targets_on_lattice (e : Tables) : Prop :=
  forall d h, 0 <= d <= maxD -> 0 <= h <= maxH ->
    0 <= Qfloor (dnew e d h) /\ Qceiling (dnew e d h) <= maxD.

Section SeasonEnd.
Variables (p : Params) (e : Tables) (s s' : Fit).
Hypothesis Htab : targets_on_lattice e.
Hypothesis Hin :
  forall t d h, 1 <= t <= maxT -> 0 <= d <= maxD -> 0 <= h <= maxH ->
    Wnext s t maxTs d h = Wnext s' t maxTs d h.

(** The two results hold the same row [Wnext[.][ts][.][.]]. *)
Definition rows_agree (ts : Z) : Prop :=
  forall t d h, 1 <= t <= maxT -> 0 <= d <= maxD -> 0 <= h <= maxH ->
    Wnext (OptDec p e s) t ts d h = Wnext (OptDec p e s') t ts d h.

Lemma searches_agree (ts : Z) :
  0 <= ts <= maxTs - 1 -> rows_agree (ts + 1) ->
  forall t d, 0 <= t <= maxT -> 0 <= d <= maxD ->
    hormone (OptDec p e s) t ts d = hormone (OptDec p e s') t ts d
    /\ Wopt (OptDec p e s) t ts d = Wopt (OptDec p e s') t ts d.
Proof.
  intros Hts Hrow t d Ht Hd.
  destruct (OptDec_search_result p e s t ts d Ht Hts Hd) as [-> ->].
  destruct (OptDec_search_result p e s' t ts d Ht Hts Hd) as [-> ->].
  rewrite (golden_section_ext
             (fun h => Wnext (OptDec p e s) (Z.min maxT (t + 1)) (ts + 1) d h)
             (fun h => Wnext (OptDec p e s') (Z.min maxT (t + 1)) (ts + 1) d h)
             0 0).
  - split; reflexivity.
  - intros h Hh. apply Hrow; [unfold maxT in *; lia|exact Hd|exact Hh].
Qed.

Lemma fitness_agrees (ts : Z) :
  0 <= ts <= maxTs - 1 -> rows_agree (ts + 1) ->
  forall t d h, 1 <= t <= maxT -> 0 <= d <= maxD -> 0 <= h <= maxH ->
    W (OptDec p e s) t ts d h = W (OptDec p e s') t ts d h
    /\ Wnext (OptDec p e s) t ts d h = Wnext (OptDec p e s') t ts d h.
Proof.
  intros Hts Hrow t d h Ht Hd Hh.
  destruct (OptDec_W_written p e t ts d h s Ht Hts Hd Hh) as [E1 E2].
  destruct (OptDec_W_written p e t ts d h s' Ht Hts Hd Hh) as [E1' E2'].
  rewrite E2, E2', E1, E1'.
  destruct (Htab d h Hd Hh) as [Hlo Hhi].
  pose proof (Qfloor_le_ceiling (dnew e d h)) as Hfc.
  pose proof (searches_agree ts Hts Hrow) as Hs.
  unfold W_value.
  rewrite (proj2 (Hs 0 (Qfloor (dnew e d h)) ltac:(unfold maxT; lia)
                    ltac:(lia))).
  rewrite (proj2 (Hs 0 (Qceiling (dnew e d h)) ltac:(unfold maxT; lia)
                    ltac:(lia))).
  rewrite (proj2 (Hs t (Qfloor (dnew e d h)) ltac:(lia) ltac:(lia))).
  rewrite (proj2 (Hs t (Qceiling (dnew e d h)) ltac:(lia) ltac:(lia))).
  split; reflexivity.
Qed.

Lemma rows_agree_down (k : nat) :
  Z.of_nat k <= maxTs -> rows_agree (maxTs - Z.of_nat k).
Proof.
  induction k as [|k IH]; intros Hk.
  - rewrite Z.sub_0_r. intros t d h Ht Hd Hh.
    rewrite !OptDec_keeps_boundary. now apply Hin.
  - intros t d h Ht Hd Hh.
    apply (fitness_agrees (maxTs - Z.of_nat (S k))); try assumption;
      [lia|].
    replace (maxTs - Z.of_nat (S k) + 1) with (maxTs - Z.of_nat k) by lia.
    apply IH. lia.
Qed.

Lemma rows_agree_all (ts : Z) : 0 <= ts <= maxTs -> rows_agree ts.
Proof.
  intros Hts.
  replace ts with (maxTs - Z.of_nat (Z.to_nat (maxTs - ts))) by lia.
  apply rows_agree_down. lia.
Qed.
End SeasonEnd.

(** [OptDec] reads the incoming state at the season end only.  Two states
    that hold the same [Wnext[t][maxTs][d][h]] for [t] in [1..maxT] lead to
    the same policy, the same [Wopt] and the same [W] at every epoch
    [ts < maxTs], whatever their [hormone], [Wopt], [W], [V], their other
    rows of [Wnext] and the stale locals of the search were (the tables
    being such that the interpolation indices stay on the damage
    lattice). *)
Theorem OptDec_reads_season_end (p : Params) (e : Tables) (s s' : Fit)
  (t ts d : Z) :
  targets_on_lattice e ->
  (forall t d h, 1 <= t <= maxT -> 0 <= d <= maxD -> 0 <= h <= maxH ->
     Wnext s t maxTs d h = Wnext s' t maxTs d h) ->
  0 <= t <= maxT -> 0 <= ts <= maxTs - 1 -> 0 <= d <= maxD ->
  hormone (OptDec p e s) t ts d = hormone (OptDec p e s') t ts d
  /\ Wopt (OptDec p e s) t ts d = Wopt (OptDec p e s') t ts d
  /\ forall h, 1 <= t -> 0 <= h <= maxH ->
       W (OptDec p e s) t ts d h = W (OptDec p e s') t ts d h.
Proof.
  intros Htab Hin Ht Hts Hd.
  assert (Hrow : rows_agree p e s s' (ts + 1))
    by (apply rows_agree_all; [exact Htab|exact Hin|lia]).
  destruct (searches_agree p e s s' ts Hts Hrow t d Ht Hd) as [Hh Hw].
  split; [exact Hh|]. split; [exact Hw|].
  intros h Ht1 Hh'.
  assert (Ht' : 1 <= t <= maxT) by lia.
  exact (proj1 (fitness_agrees p e s s' Htab ts Hts Hrow t d h Ht' Hd Hh')).
Qed.

(** The tables [main] fills keep the interpolation on the lattice. *)
Lemma tables_of_targets (p : Params) : targets_on_lattice (tables_of p).
Proof.
  intros d h Hd Hh. unfold tables_of. cbn [dnew].
  rewrite Damage_entry by assumption. apply clamp_targets.
Qed.

Lemma OptDec_reads_season_end_witness :
  hormone (OptDec params_default (tables_of params_default)
             (FinalFit (tables_of params_default) fit_start)) 3 2 1
  = hormone (OptDec params_default (tables_of params_default)
               (FinalFit (tables_of params_default)
                  (OptDec params_default (tables_of params_default)
                     fit_start))) 3 2 1.
Proof.
  refine (proj1 (OptDec_reads_season_end _ _ _ _ 3 2 1 _ _ _ _ _));
    try (unfold maxT, maxTs, maxD; lia).
  - apply tables_of_targets.
  - intros t d h Ht Hd Hh.
    destruct (FinalFit_seeds (tables_of params_default) t d h fit_start
                Ht Hd Hh) as [-> _].
    destruct (FinalFit_seeds (tables_of params_default) t d h
                (OptDec params_default (tables_of params_default) fit_start)
                Ht Hd Hh) as [-> _].
    reflexivity.
Defined.


(** * The sign of the fitness values *)

(** The tables of survival hold probabilities: [pAttack] and the entries
    of [pPred], [pKilled] and [mu] lie in [0,1]. *)
Definition survival_tables (p : Params) (e : Tables) : Prop :=
  (0 <= pAttack p <= 1)%Q
  /\ (forall t, 1 <= t <= maxT -> (0 <= pPred e t <= 1)%Q)
  /\ (forall h, 0 <= h <= maxH -> (0 <= pKilled e h <= 1)%Q)
  /\ (forall d, 0 <= d <= maxD -> (0 <= mu e d <= 1)%Q).

(** All the tables hold probabilities: [repro] as well. *)
Definition probability_tables (p : Params) (e : Tables) : Prop :=
  survival_tables p e
  /\ (forall ts d, 0 <= ts <= maxTs -> 0 <= d <= maxD ->
        (0 <= repro e ts d <= 1)%Q).

Local Open Scope Q_scope.

Lemma interpolation_nonneg (r0 dd w1 w2 : Q) :
  0 <= r0 -> 0 <= dd <= 1 -> 0 <= w1 -> 0 <= w2 ->
  0 <= r0 + (1 - dd) * w1 + dd * w2.
Proof.
  intros Hr Hdd Hw1 Hw2.
  assert (H1 : 0 <= (1 - dd) * w1) by (apply Qmult_le_0_compat; lra).
  assert (H2 : 0 <= dd * w2) by (apply Qmult_le_0_compat; lra).
  lra.
Qed.

(** The value written to [W]: sums and products of numbers that are not
    negative, which no rounding makes negative. *)
Lemma mix_nonneg (pp pa pk m r0 dd w1 w2 w3 w4 : Q) :
  0 <= pp <= 1 -> 0 <= pa <= 1 -> 0 <= pk <= 1 -> 0 <= m <= 1 ->
  0 <= r0 -> 0 <= dd <= 1 ->
  0 <= w1 -> 0 <= w2 -> 0 <= w3 -> 0 <= w4 ->
  0 <= pp * pa * (1 - pk) * (1 - m) * (r0 + (1 - dd) * w1 + dd * w2)
       + (1 - pp * pa) * (1 - m) * (r0 + (1 - dd) * w3 + dd * w4).
Proof.
  intros Hpp Hpa Hpk Hm Hr Hdd Hw1 Hw2 Hw3 Hw4.
  pose proof (interpolation_nonneg r0 dd w1 w2 Hr Hdd Hw1 Hw2) as HX.
  pose proof (interpolation_nonneg r0 dd w3 w4 Hr Hdd Hw3 Hw4) as HY.
  assert (Hc : 0 <= pp * pa <= 1).
  { split; [apply Qmult_le_0_compat; lra|].
    apply Qle_trans with (1 * pa); [apply Qmult_le_compat_r; lra|lra]. }
  assert (H1 : 0 <= pp * pa * (1 - pk) * (1 - m)
                    * (r0 + (1 - dd) * w1 + dd * w2)).
  { repeat apply Qmult_le_0_compat; lra. }
  assert (H2 : 0 <= (1 - pp * pa) * (1 - m)
                    * (r0 + (1 - dd) * w3 + dd * w4)).
  { repeat apply Qmult_le_0_compat; lra. }
  generalize dependent (pp * pa * (1 - pk) * (1 - m)
                        * (r0 + (1 - dd) * w1 + dd * w2)).
  generalize dependent ((1 - pp * pa) * (1 - m)
                        * (r0 + (1 - dd) * w3 + dd * w4)).
  intros x Hx y Hy. lra.
Qed.

Lemma ddec_unit (x : Q) : 0 <= x - inject_Z (Qfloor x) <= 1.
Proof.
  pose proof (Qfloor_le x) as Hf.
  pose proof (Qlt_floor x) as Hl.
  rewrite inject_Z_plus in Hl. change (inject_Z 1) with 1 in Hl.
  lra.
Qed.

Section FitnessSign.
Variables (p : Params) (e : Tables) (s : Fit).
Hypothesis Htab : targets_on_lattice e.
Hypothesis Hprob : probability_tables p e.
Hypothesis Hin :
  forall t d h, (1 <= t <= maxT)%Z -> (0 <= d <= maxD)%Z ->
    (0 <= h <= maxH)%Z -> 0 <= Wnext s t maxTs d h <= inject_Z maxI.

(** No entry of the row [Wnext[.][ts][.][.]] of the result is negative. *)
Definition rows_nonneg (ts : Z) : Prop :=
  forall t d h, (1 <= t <= maxT)%Z -> (0 <= d <= maxD)%Z ->
    (0 <= h <= maxH)%Z -> 0 <= Wnext (OptDec p e s) t ts d h.

Lemma Wopt_nonneg (ts : Z) :
  (0 <= ts <= maxTs - 1)%Z -> rows_nonneg (ts + 1) ->
  forall t d, (0 <= t <= maxT)%Z -> (0 <= d <= maxD)%Z ->
    0 <= Wopt (OptDec p e s) t ts d.
Proof.
  intros Hts Hrow t d Ht Hd.
  destruct (OptDec_Wopt_reads p e s t ts d Ht Hts Hd) as (k & Hk & ->).
  apply Hrow; [unfold maxT in *; lia|exact Hd|exact Hk].
Qed.

Lemma W_nonneg (ts : Z) :
  (0 <= ts <= maxTs - 1)%Z -> rows_nonneg (ts + 1) ->
  forall t d h, (1 <= t <= maxT)%Z -> (0 <= d <= maxD)%Z ->
    (0 <= h <= maxH)%Z ->
    0 <= W (OptDec p e s) t ts d h
    /\ 0 <= Wnext (OptDec p e s) t ts d h.
Proof.
  intros Hts Hrow t d h Ht Hd Hh.
  destruct (OptDec_W_written p e t ts d h s Ht Hts Hd Hh) as [E1 E2].
  rewrite E2, E1. clear E1 E2.
  destruct (Htab d h Hd Hh) as [Hlo Hhi].
  pose proof (Qfloor_le_ceiling (dnew e d h)) as Hfc.
  destruct Hprob as ((Hpa & Hpp & Hpk & Hmu) & Hre).
  pose proof (Wopt_nonneg ts Hts Hrow) as Hw.
  assert (H : 0 <= W_value p e (Wopt (OptDec p e s)) t ts d h).
  { unfold W_value. apply mix_nonneg.
    - apply Hpp; lia.
    - exact Hpa.
    - now apply Hpk.
    - now apply Hmu.
    - apply Hre; lia.
    - apply ddec_unit.
    - apply Hw; unfold maxT; lia.
    - apply Hw; unfold maxT; lia.
    - apply Hw; lia.
    - apply Hw; lia. }
  split; exact H.
Qed.

Lemma rows_nonneg_down (k : nat) :
  (Z.of_nat k <= maxTs - 1)%Z -> rows_nonneg (maxTs - Z.of_nat k).
Proof.
  induction k as [|k IH]; intros Hk.
  - rewrite Z.sub_0_r. intros t d h Ht Hd Hh.
    rewrite OptDec_keeps_boundary. now apply Hin.
  - intros t d h Ht Hd Hh.
    refine (proj2 (W_nonneg (maxTs - Z.of_nat (S k)) _ _ t d h Ht Hd Hh));
      [lia|].
    replace (maxTs - Z.of_nat (S k) + 1)%Z with (maxTs - Z.of_nat k)%Z
      by lia.
    apply IH. lia.
Qed.

Lemma rows_nonneg_all (ts : Z) :
  (1 <= ts <= maxTs)%Z -> rows_nonneg ts.
Proof.
  intros Hts.
  replace ts with (maxTs - Z.of_nat (Z.to_nat (maxTs - ts)))%Z by lia.
  apply rows_nonneg_down. lia.
Qed.
End FitnessSign.

(** Fitness is never negative.  When [pAttack] and the entries of
    [pPred], [pKilled], [mu] and [repro] lie in [0,1], the interpolation
    indices stay on the lattice and the incoming [Wnext[t][maxTs][d][h]]
    are numbers of [[0, maxI]], no [Wopt] entry and no [W] entry that
    [OptDec] writes is negative.  The bound [maxI] on the incoming values
    keeps every sum far from the largest [double]; the values themselves
    are sums and products of numbers that are not negative. *)
Theorem OptDec_fitness_nonnegative (p : Params) (e : Tables) (s : Fit)
  (t ts d : Z) :
  targets_on_lattice e -> probability_tables p e ->
  (forall t d h, (1 <= t <= maxT)%Z -> (0 <= d <= maxD)%Z ->
     (0 <= h <= maxH)%Z -> 0 <= Wnext s t maxTs d h <= inject_Z maxI) ->
  (0 <= t <= maxT)%Z -> (0 <= ts <= maxTs - 1)%Z -> (0 <= d <= maxD)%Z ->
  0 <= Wopt (OptDec p e s) t ts d
  /\ forall h, (1 <= t)%Z -> (0 <= h <= maxH)%Z ->
       0 <= W (OptDec p e s) t ts d h.
Proof.
  intros Htab Hprob Hin Ht Hts Hd.
  assert (Hrow : rows_nonneg p e s (ts + 1))
    by (apply rows_nonneg_all; try assumption; lia).
  split.
  - exact (Wopt_nonneg p e s ts Hts Hrow t d Ht Hd).
  - intros h Ht1 Hh.
    assert (Ht' : (1 <= t <= maxT)%Z) by lia.
    exact (proj1 (W_nonneg p e s Htab Hprob ts Hts Hrow t d h Ht' Hd Hh)).
Qed.

(** The tables [main] fills hold probabilities when the rates do. *)
Lemma pPred_probability (p : Params) (t : Z) :
  0 <= pLeave p <= 1 -> 0 <= pArrive p <= 1 -> 0 <= pAttack p <= 1 ->
  pAttack p < 1 \/ (0 < pLeave p /\ pArrive p < 1) ->
  (1 <= t <= maxT)%Z ->
  0 <= pPred (tables_of p) t <= 1.
Proof.
  intros Hl Hr Ha Hne Ht. unfold tables_of. cbn [pPred].
  assert (H : (fun o => exists q, o = Some q /\ 0 <= q <= 1
                                  /\ (pAttack p < 1 \/ q < 1))
                (PredProb p (fun _ => Some 0) t)).
  { apply PredProb_entries; [| |exact Ht].
    - exists (1 - pLeave p). split; [reflexivity|]. split; [lra|].
      destruct Hne as [Hne|[Hne _]]; [now left|right; lra].
    - intros o (q & -> & Hq & Hq1).
      destruct (PredProb_next_probability p q Hl Hr Ha Hq Hq1)
        as (q' & E & Hq' & Hlt).
      exists q'. split; [exact E|]. split; [exact Hq'|].
      destruct Hne as [Hne|[_ Hne]]; [now left|].
      destruct Hq1 as [Hq1|Hq1]; [now left|right; now apply Hlt]. }
  destruct H as (q & -> & Hq & _). exact Hq.
Qed.

Lemma tables_of_probabilities (p : Params) :
  0 <= pLeave p <= 1 -> 0 <= pArrive p <= 1 -> 0 <= pAttack p <= 1 ->
  pAttack p < 1 \/ (0 < pLeave p /\ pArrive p < 1) ->
  0 <= Kmort p -> 0 <= Kfec p ->
  probability_tables p (tables_of p).
Proof.
  intros Hl Hr Ha Hne HKm HKf.
  split; [split; [exact Ha|]; split; [|split]|].
  - intros t Ht. now apply pPred_probability.
  - intros h Hh. unfold tables_of. cbn [pKilled].
    rewrite Predation_alpha1_entry by exact Hh.
    pose proof (hormone_fraction_unit h Hh) as Hx.
    rewrite std_max_Qmax. split; [apply Q.le_max_l|apply Q.max_lub; lra].
  - intros d Hd. unfold tables_of. cbn [mu].
    rewrite Mortality_entry by exact Hd.
    assert (Hd0 : 0 <= inject_Z d)
      by (change 0 with (inject_Z 0); rewrite <- Zle_Qle; lia).
    assert (Hx : 0 <= Kmort p * inject_Z d)
      by (apply Qmult_le_0_compat; assumption).
    destruct (std_min_spec 1 (mu0 + Kmort p * inject_Z d))
      as [[H ->]|[H ->]]; unfold mu0 in *; lra.
  - intros ts d Hts Hd. unfold tables_of. cbn [repro].
    destruct (Reproduction_rows p (fun _ _ => 0) ts d Hts Hd)
      as (_ & _ & _ & H0 & H1).
    split; [exact H0|]. now apply H1.
Qed.

Lemma params_default_rates :
  0 <= pLeave params_default <= 1 /\ 0 <= pArrive params_default <= 1
  /\ 0 <= pAttack params_default <= 1
  /\ (pAttack params_default < 1
      \/ (0 < pLeave params_default /\ pArrive params_default < 1))
  /\ 0 <= Kmort params_default /\ 0 <= Kfec params_default.
Proof. simpl. repeat split; try left; lra. Qed.

Lemma tables_default_probabilities :
  probability_tables params_default (tables_of params_default).
Proof.
  destruct params_default_rates as (H1 & H2 & H3 & H4 & H5 & H6).
  now apply tables_of_probabilities.
Qed.

Lemma OptDec_fitness_nonnegative_witness :
  0 <= Wopt (OptDec params_default (tables_of params_default)
               (FinalFit (tables_of params_default) fit_start)) 0 3 2.
Proof.
  refine (proj1 (OptDec_fitness_nonnegative params_default
                   (tables_of params_default)
                   (FinalFit (tables_of params_default) fit_start)
                   0 3 2 _ _ _ _ _ _));
    try (unfold maxT, maxTs, maxD; lia).
  - apply tables_of_targets.
  - exact tables_default_probabilities.
  - intros t d h Ht Hd Hh.
    destruct (FinalFit_seeds (tables_of params_default) t d h fit_start
                Ht Hd Hh) as [-> _].
    destruct tables_default_probabilities as (_ & H).
    assert (Hr : 0 <= repro (tables_of params_default) maxTs d <= 1)
      by (apply H; [unfold maxTs; lia|exact Hd]).
    split; [apply Hr|].
    apply Qle_trans with 1; [apply Hr|].
    unfold maxI, Qle. simpl. lia.
Defined.


(** * [ReplaceFit]: the convergence measure *)

Local Open Scope Z_scope.

Lemma sum_range_empty (lo hi : Z) (g : Z -> Q) :
  hi < lo -> sum_range lo hi g = 0%Q.
Proof.
  intros Hlt. unfold sum_range, zrange.
  replace (Z.to_nat (hi + 1 - lo)) with O by lia. reflexivity.
Qed.

Lemma sum_range_last (lo hi : Z) (g : Z -> Q) :
  lo <= hi -> sum_range lo hi g = (sum_range lo (hi - 1) g + g hi)%Q.
Proof.
  intros Hle. unfold sum_range, zrange.
  replace (Z.to_nat (hi + 1 - lo)) with (Datatypes.S (Z.to_nat (hi - lo)))
    by lia.
  replace (hi - 1 + 1 - lo) with (hi - lo) by lia.
  rewrite seq_S, map_app, fold_left_app. simpl.
  replace (lo + Z.of_nat (Z.to_nat (hi - lo))) with hi by lia.
  reflexivity.
Qed.

Lemma sum_range_ext (lo hi : Z) (f g : Z -> Q) :
  (forall i, lo <= i <= hi -> (f i == g i)%Q) ->
  (sum_range lo hi f == sum_range lo hi g)%Q.
Proof.
  intros Hfg.
  destruct (Z_lt_le_dec hi lo) as [Hlt|Hle];
    [rewrite !sum_range_empty by exact Hlt; reflexivity|].
  replace hi with (lo + Z.of_nat (Z.to_nat (hi - lo))) in * by lia.
  induction (Z.to_nat (hi - lo)) as [|n IH].
  - rewrite Z.add_0_r in *. rewrite !(sum_range_last lo lo) by lia.
    rewrite !sum_range_empty by lia. rewrite Hfg by lia. reflexivity.
  - rewrite !(sum_range_last lo (lo + Z.of_nat (S n))) by lia.
    replace (lo + Z.of_nat (S n) - 1) with (lo + Z.of_nat n) by lia.
    rewrite IH by (try lia; intros i Hi; apply Hfg; lia).
    rewrite Hfg by lia. reflexivity.
Qed.

Lemma sum_range_nonneg (lo hi : Z) (g : Z -> Q) :
  (forall i, lo <= i <= hi -> (0 <= g i)%Q) ->
  (0 <= sum_range lo hi g)%Q
  /\ forall i, lo <= i <= hi -> (g i <= sum_range lo hi g)%Q.
Proof.
  intros Hg.
  destruct (Z_lt_le_dec hi lo) as [Hlt|Hle].
  { rewrite sum_range_empty by exact Hlt. split; [apply Qle_refl|].
    intros i Hi. lia. }
  replace hi with (lo + Z.of_nat (Z.to_nat (hi - lo))) in * by lia.
  induction (Z.to_nat (hi - lo)) as [|n IH].
  - rewrite Z.add_0_r in *. rewrite (sum_range_last lo lo) by lia.
    rewrite sum_range_empty by lia.
    pose proof (Hg lo ltac:(lia)) as H0. split; [lra|].
    intros i Hi. assert (i = lo) as -> by lia. lra.
  - rewrite (sum_range_last lo (lo + Z.of_nat (S n))) by lia.
    replace (lo + Z.of_nat (S n) - 1) with (lo + Z.of_nat n) by lia.
    destruct IH as [IH0 IHi]; [intros i Hi; apply Hg; lia|lia|].
    pose proof (Hg (lo + Z.of_nat (S n)) ltac:(lia)) as H0.
    split; [lra|]. intros i Hi.
    destruct (Z.eq_dec i (lo + Z.of_nat (S n))) as [->|Hne]; [lra|].
    pose proof (IHi i ltac:(lia)). lra.
Qed.

Section SumLoops.
Context {S : Type} (body : Z -> S -> S) (acc : S -> Q).

(** A loop that adds [g i] to an accumulator in pass [i], under an
    invariant [J] that depends on the counter. *)
Lemma for_up_sum (J : Z -> S -> Prop) (g : Z -> Q) (lo hi : Z) (s : S) :
  lo <= hi + 1 ->
  J lo s ->
  (forall i s1, lo <= i <= hi -> J i s1 ->
     J (i + 1) (body i s1) /\ (acc (body i s1) == acc s1 + g i)%Q) ->
  J (hi + 1) (for_up lo hi body s)
  /\ (acc (for_up lo hi body s) == acc s + sum_range lo hi g)%Q.
Proof.
  intros Hle H0 Hstep.
  assert (H : (fun i s1 =>
                 J i s1 /\ (acc s1 == acc s + sum_range lo (i - 1) g)%Q)
              (hi + 1) (for_up lo hi body s)).
  { apply for_up_counts; [exact Hle| |].
    - split; [exact H0|]. rewrite sum_range_empty by lia. ring.
    - intros i s1 Hi [HJ Hacc].
      destruct (Hstep i s1 Hi HJ) as [HJ' Hacc'].
      split; [exact HJ'|].
      rewrite Hacc', Hacc.
      replace (i + 1 - 1) with i by lia.
      rewrite (sum_range_last lo i) by lia. ring. }
  destruct H as [HJ Hacc]. split; [exact HJ|].
  rewrite Hacc. replace (hi + 1 - 1) with hi by lia. reflexivity.
Qed.
End SumLoops.

Section ReplaceFitSum.
Variable s : Fit.

(** The change at one state: [fabs(V[t][d][h] - W[t][0][d][h])]. *)
Definition fit_change (t d h : Z) : Q := Qabs (V s t d h - W s t 0 d h).

(** While the loops run, [W] is as it was, and so is [V] at the states
    from [(t, d, h)] on. *)
Definition ahead (t d h : Z) (sf : Fit * Q) : Prop :=
  W (fst sf) = W s
  /\ forall t' d' h',
       t < t' \/ (t = t' /\ (d < d' \/ (d = d' /\ h <= h'))) ->
       V (fst sf) t' d' h' = V s t' d' h'.

Lemma ReplaceFit_cell_adds (t d h : Z) (sf : Fit * Q) :
  ahead t d h sf ->
  ahead t d (h + 1) (ReplaceFit_cell t d h sf)
  /\ (snd (ReplaceFit_cell t d h sf) == snd sf + fit_change t d h)%Q.
Proof.
  intros [HW HV]. destruct sf as [s1 fd]. cbn [fst snd] in *.
  unfold ReplaceFit_cell, ahead, fit_change. cbn [fst snd W V].
  split; [split|].
  - exact HW.
  - intros t' d' h' Hlt. rewrite upd3_other by lia. apply HV. lia.
  - rewrite HW, (HV t d h) by lia. reflexivity.
Qed.

Lemma ReplaceFit_h_adds (t d : Z) (sf : Fit * Q) :
  ahead t d 0 sf ->
  ahead t (d + 1) 0
    (for_up 0 maxH (fun h => ReplaceFit_cell t d h) sf)
  /\ (snd (for_up 0 maxH (fun h => ReplaceFit_cell t d h) sf)
      == snd sf + sum_range 0 maxH (fun h => fit_change t d h))%Q.
Proof.
  intros H0.
  destruct (for_up_sum (fun h => ReplaceFit_cell t d h) snd
              (fun h => ahead t d h) (fun h => fit_change t d h)
              0 maxH sf) as [HJ Hacc].
  - unfold maxH. lia.
  - exact H0.
  - intros h s1 _. apply ReplaceFit_cell_adds.
  - split; [|exact Hacc]. destruct HJ as [HW HV]. split; [exact HW|].
    intros t' d' h' Hlt. apply HV. unfold maxH. lia.
Qed.

Lemma ReplaceFit_d_adds (t : Z) (sf : Fit * Q) :
  ahead t 0 0 sf ->
  ahead (t + 1) 0 0
    (for_up 0 maxD (fun d =>
       for_up 0 maxH (fun h => ReplaceFit_cell t d h)) sf)
  /\ (snd (for_up 0 maxD (fun d =>
             for_up 0 maxH (fun h => ReplaceFit_cell t d h)) sf)
      == snd sf
         + sum_range 0 maxD (fun d =>
             sum_range 0 maxH (fun h => fit_change t d h)))%Q.
Proof.
  intros H0.
  destruct (for_up_sum
              (fun d => for_up 0 maxH (fun h => ReplaceFit_cell t d h)) snd
              (fun d => ahead t d 0)
              (fun d => sum_range 0 maxH (fun h => fit_change t d h))
              0 maxD sf) as [HJ Hacc].
  - unfold maxD. lia.
  - exact H0.
  - intros d s1 _. apply ReplaceFit_h_adds.
  - split; [|exact Hacc]. destruct HJ as [HW HV]. split; [exact HW|].
    intros t' d' h' Hlt. apply HV. unfold maxD. lia.
Qed.

Lemma ReplaceFit_loops_sum :
  W (fst (ReplaceFit_loops s)) = W s
  /\ (snd (ReplaceFit_loops s) == lattice_sum fit_change)%Q.
Proof.
  unfold ReplaceFit_loops, lattice_sum.
  destruct (for_up_sum
              (fun t => for_up 0 maxD (fun d =>
                 for_up 0 maxH (fun h => ReplaceFit_cell t d h))) snd
              (fun t => ahead t 0 0)
              (fun t => sum_range 0 maxD (fun d =>
                 sum_range 0 maxH (fun h => fit_change t d h)))
              1 maxT (s, 0%Q)) as [HJ Hacc].
  - unfold maxT. lia.
  - split; reflexivity.
  - intros t s1 _. apply ReplaceFit_d_adds.
  - split; [apply HJ|]. rewrite Hacc. cbn [snd]. ring.
Qed.
End ReplaceFitSum.

Lemma ReplaceFit_totfitdiff (s : Fit) :
  totfitdiff (ReplaceFit s) = snd (ReplaceFit_loops s).
Proof.
  unfold ReplaceFit. destruct (ReplaceFit_loops s) as [s' fd]. reflexivity.
Qed.

Lemma lattice_sum_nonneg (g : Z -> Z -> Z -> Q) :
  (forall t d h, (0 <= g t d h)%Q) ->
  (0 <= lattice_sum g)%Q
  /\ forall t d h, 1 <= t <= maxT -> 0 <= d <= maxD -> 0 <= h <= maxH ->
       (g t d h <= lattice_sum g)%Q.
Proof.
  intros Hg.
  assert (Hh : forall t d,
            (0 <= sum_range 0 maxH (fun h => g t d h))%Q)
    by (intros t d;
        exact (proj1 (sum_range_nonneg 0 maxH (fun h => g t d h)
                        (fun i _ => Hg t d i)))).
  assert (Hd : forall t,
            (0 <= sum_range 0 maxD (fun d =>
                    sum_range 0 maxH (fun h => g t d h)))%Q)
    by (intros t;
        exact (proj1 (sum_range_nonneg 0 maxD
                        (fun d => sum_range 0 maxH (fun h => g t d h))
                        (fun i _ => Hh t i)))).
  unfold lattice_sum. split.
  - exact (proj1 (sum_range_nonneg 1 maxT
                    (fun t => sum_range 0 maxD (fun d =>
                       sum_range 0 maxH (fun h => g t d h)))
                    (fun i _ => Hd i))).
  - intros t d h Ht Hd' Hh'.
    eapply Qle_trans;
      [apply (proj2 (sum_range_nonneg 0 maxH (fun h => g t d h)
                       (fun i _ => Hg t d i)) h Hh')|].
    eapply Qle_trans;
      [apply (proj2 (sum_range_nonneg 0 maxD
                       (fun d => sum_range 0 maxH (fun h => g t d h))
                       (fun i _ => Hh t i)) d Hd')|].
    apply (proj2 (sum_range_nonneg 1 maxT
                    (fun t => sum_range 0 maxD (fun d =>
                       sum_range 0 maxH (fun h => g t d h)))
                    (fun i _ => Hd i)) t Ht).
Qed.

(** [totfitdiff] is the sum over the lattice ([t] in [1..maxT]) of the
    absolute differences between [V] and [W[.][0]] as they were when
    [ReplaceFit] was called: every term is read before the state is
    overwritten. *)
Theorem ReplaceFit_totfitdiff_is_L1 (s : Fit) :
  (totfitdiff (ReplaceFit s)
   == lattice_sum (fun t d h => Qabs (V s t d h - W s t 0 d h)))%Q.
Proof.
  rewrite ReplaceFit_totfitdiff.
  exact (proj2 (ReplaceFit_loops_sum s)).
Qed.

(** The entries [ReplaceFit] compares are numbers: every [V[t][d][h]] and
    [W[t][0][d][h]] of the lattice lies within [[-M, M]].  (An entry that
    is a NaN or an infinity in the binary64 run lies within no bound; the
    difference of two such entries can be a NaN, which no comparison
    bounds.) *)
Definition fitness_within (M : Q) (s : Fit) : Prop :=
  forall t d h, 1 <= t <= maxT -> 0 <= d <= maxD -> 0 <= h <= maxH ->
    (Qabs (V s t d h) <= M)%Q /\ (Qabs (W s t 0 d h) <= M)%Q.

Lemma FinalFit_keeps_W (e : Tables) (s : Fit) : W (FinalFit e s) = W s.
Proof.
  unfold FinalFit.
  apply for_up_keeps; [|reflexivity]. intros t s1 _ H1.
  apply for_up_keeps; [|exact H1]. intros d s2 _ H2.
  apply for_up_keeps; [|exact H2]. intros h s3 _ H3. exact H3.
Qed.

(** The state after [FinalFit] on the program's tables: [V] holds the
    reproduction of the season's end and [W] is still zero. *)
Lemma FinalFit_default_within :
  fitness_within 1 (FinalFit (tables_of params_default) fit_start).
Proof.
  intros t d h Ht Hd Hh.
  rewrite FinalFit_keeps_W.
  rewrite (proj2 (FinalFit_seeds (tables_of params_default) t d h fit_start
                    Ht Hd Hh)).
  destruct tables_default_probabilities as (_ & H).
  assert (Hr : (0 <= repro (tables_of params_default) maxTs d <= 1)%Q)
    by (apply H; [unfold maxTs; lia|exact Hd]).
  split.
  - rewrite Qabs_pos by apply Hr. apply Hr.
  - discriminate.
Qed.

(** The stopping test of [main] bounds every state.  When the entries
    compared are numbers, [totfitdiff] is not negative, and at no state
    of the lattice is the term [fabs(V[t][d][h] - W[t][0][d][h])] that
    the loop adds larger than [totfitdiff]: the terms are not negative,
    and a sum of such terms is at least each of them, rounded or not. *)
Theorem ReplaceFit_bounds_each_change (s : Fit) (M : Q) :
  fitness_within M s ->
  (0 <= totfitdiff (ReplaceFit s))%Q
  /\ forall t d h,
       1 <= t <= maxT -> 0 <= d <= maxD -> 0 <= h <= maxH ->
       (Qabs (V s t d h - W s t 0 d h) <= totfitdiff (ReplaceFit s))%Q.
Proof.
  intros _.
  destruct (lattice_sum_nonneg (fit_change s)) as [H0 Hle];
    [intros t' d' h'; apply Qabs_nonneg|].
  split.
  - rewrite ReplaceFit_totfitdiff.
    rewrite (proj2 (ReplaceFit_loops_sum s)). exact H0.
  - intros t d h Ht Hd Hh.
    rewrite ReplaceFit_totfitdiff.
    rewrite (proj2 (ReplaceFit_loops_sum s)).
    exact (Hle t d h Ht Hd Hh).
Qed.

Lemma ReplaceFit_bounds_each_change_witness :
  (Qabs (V (FinalFit (tables_of params_default) fit_start) 1 0 0
         - W (FinalFit (tables_of params_default) fit_start) 1 0 0 0)
   <= totfitdiff
        (ReplaceFit (FinalFit (tables_of params_default) fit_start)))%Q.
Proof.
  refine (proj2 (ReplaceFit_bounds_each_change
                   (FinalFit (tables_of params_default) fit_start) 1
                   FinalFit_default_within) 1 0 0 _ _ _);
    unfold maxT, maxD, maxH; lia.
Defined.

(** What [ReplaceFit] leaves at a state of the lattice. *)
Definition settled (s : Fit) (t d h : Z) (sf : Fit * Q) : Prop :=
  V (fst sf) t d h = W s t 0 d h
  /\ Wnext (fst sf) t maxTs d h = W s t 0 d h.

Lemma ReplaceFit_cell_settles (s : Fit) (t d h : Z) (sf : Fit * Q) :
  W (fst sf) = W s -> settled s t d h (ReplaceFit_cell t d h sf).
Proof.
  intros HW. destruct sf as [s1 fd]. cbn [fst] in HW.
  unfold settled, ReplaceFit_cell. cbn [fst V Wnext].
  rewrite upd3_same, upd4_same, HW. auto.
Qed.

Lemma ReplaceFit_cell_keeps_W (s : Fit) (t d h : Z) (sf : Fit * Q) :
  W (fst sf) = W s -> W (fst (ReplaceFit_cell t d h sf)) = W s.
Proof. intros HW. destruct sf as [s1 fd]. exact HW. Qed.

Lemma ReplaceFit_cell_stays_settled (s : Fit) (t d h t' d' h' : Z)
  (sf : Fit * Q) :
  W (fst sf) = W s -> settled s t d h sf ->
  settled s t d h (ReplaceFit_cell t' d' h' sf).
Proof.
  intros HW [H1 H2].
  destruct (Z.eq_dec t' t) as [->|Ht];
    [destruct (Z.eq_dec d' d) as [->|Hd];
       [destruct (Z.eq_dec h' h) as [->|Hh]|]|];
    try (now apply ReplaceFit_cell_settles);
    destruct sf as [s1 fd]; cbn [fst] in *;
    unfold settled, ReplaceFit_cell; cbn [fst V Wnext];
    rewrite upd3_other, upd4_other by auto; auto.
Qed.

Lemma ReplaceFit_loops_settle (s : Fit) (t d h : Z) :
  1 <= t <= maxT -> 0 <= d <= maxD -> 0 <= h <= maxH ->
  settled s t d h (ReplaceFit_loops s).
Proof.
  intros Ht Hd Hh. unfold ReplaceFit_loops.
  set (J := fun sf : Fit * Q => W (fst sf) = W s).
  assert (Jh : forall t' d' s2, J s2 ->
    J (for_up 0 maxH (fun h' => ReplaceFit_cell t' d' h') s2)).
  { intros t' d' s2 H2. apply for_up_keeps; [|exact H2].
    intros h' s3 _. apply ReplaceFit_cell_keeps_W. }
  assert (Jd : forall t' s1, J s1 ->
    J (for_up 0 maxD (fun d' =>
         for_up 0 maxH (fun h' => ReplaceFit_cell t' d' h')) s1)).
  { intros t' s1 H1. apply for_up_keeps; [|exact H1].
    intros d' s2 _. apply Jh. }
  assert (Kh : forall t' d' s2, J s2 -> settled s t d h s2 ->
    settled s t d h
      (for_up 0 maxH (fun h' => ReplaceFit_cell t' d' h') s2)).
  { intros t' d' s2 HJ H2.
    apply for_up_keeps_under with (J := J); [| |exact HJ|exact H2].
    - intros h' s3 _. apply ReplaceFit_cell_keeps_W.
    - intros h' s3 _. apply ReplaceFit_cell_stays_settled. }
  apply for_up_reaches_under with (J := J) (c := t);
    [exact Ht| | | |reflexivity].
  - intros t' s1 _. apply Jd.
  - intros s1 H1.
    apply for_up_reaches_under with (J := J) (c := d);
      [exact Hd| | | |exact H1].
    + intros d' s2 _. apply Jh.
    + intros s2 H2.
      apply for_up_reaches_under with (J := J) (c := h);
        [exact Hh| | | |exact H2].
      * intros h' s3 _. apply ReplaceFit_cell_keeps_W.
      * intros s3. apply ReplaceFit_cell_settles.
      * intros h' s3 _. apply ReplaceFit_cell_stays_settled.
    + intros d' s2 _. apply Kh.
  - intros t' s1 _ HJ H1.
    apply for_up_keeps_under with (J := J); [| |exact HJ|exact H1].
    + intros d' s2 _. apply Jh.
    + intros d' s2 _. apply Kh.
Qed.

Lemma ReplaceFit_fields (s : Fit) :
  V (ReplaceFit s) = V (fst (ReplaceFit_loops s))
  /\ Wnext (ReplaceFit s) = Wnext (fst (ReplaceFit_loops s))
  /\ W (ReplaceFit s) = W (fst (ReplaceFit_loops s)).
Proof.
  unfold ReplaceFit. destruct (ReplaceFit_loops s) as [s' fd]. auto.
Qed.

Lemma ReplaceFit_state (s : Fit) (t d h : Z) :
  1 <= t <= maxT -> 0 <= d <= maxD -> 0 <= h <= maxH ->
  V (ReplaceFit s) t d h = W s t 0 d h
  /\ Wnext (ReplaceFit s) t maxTs d h = W s t 0 d h
  /\ W (ReplaceFit s) = W s.
Proof.
  intros Ht Hd Hh.
  destruct (ReplaceFit_fields s) as (-> & -> & ->).
  destruct (ReplaceFit_loops_settle s t d h Ht Hd Hh) as [H1 H2].
  destruct (ReplaceFit_loops_sum s) as [HW _].
  auto.
Qed.

(** After [ReplaceFit], [V[t][d][h]] and [Wnext[t][maxTs][d][h]] both
    hold the value of [W[t][0][d][h]] ([t] in [1..maxT]) and [W] is
    unchanged; so, when the entries of [W[.][0]] are numbers, a second
    call straight after the first finds nothing to change and reports
    [totfitdiff = 0]: each term is the difference of a number and itself. *)
Theorem ReplaceFit_settles (s : Fit) (M : Q) :
  (forall t d h, 1 <= t <= maxT -> 0 <= d <= maxD -> 0 <= h <= maxH ->
     (Qabs (W s t 0 d h) <= M)%Q) ->
  (forall t d h, 1 <= t <= maxT -> 0 <= d <= maxD -> 0 <= h <= maxH ->
     V (ReplaceFit s) t d h = W s t 0 d h
     /\ Wnext (ReplaceFit s) t maxTs d h = W s t 0 d h)
  /\ W (ReplaceFit s) = W s
  /\ (totfitdiff (ReplaceFit (ReplaceFit s)) == 0)%Q.
Proof.
  intros _. split; [|split].
  - intros t d h Ht Hd Hh.
    destruct (ReplaceFit_state s t d h Ht Hd Hh) as (H1 & H2 & _).
    split; [exact H1|exact H2].
  - assert (Ht : 1 <= 1 <= maxT) by (unfold maxT; lia).
    assert (Hd : 0 <= 0 <= maxD) by (unfold maxD; lia).
    assert (Hh : 0 <= 0 <= maxH) by (unfold maxH; lia).
    exact (proj2 (proj2 (ReplaceFit_state s 1 0 0 Ht Hd Hh))).
  - rewrite ReplaceFit_totfitdiff.
    rewrite (proj2 (ReplaceFit_loops_sum (ReplaceFit s))).
    apply lattice_sum_nothing. intros t' d' h' Ht' Hd' Hh'.
    unfold fit_change.
    destruct (ReplaceFit_state s t' d' h' Ht' Hd' Hh') as (-> & _ & ->).
    setoid_replace (W s t' 0 d' h' - W s t' 0 d' h')%Q with 0%Q by ring.
    reflexivity.
Qed.

Lemma ReplaceFit_settles_witness :
  (totfitdiff
     (ReplaceFit
        (ReplaceFit (FinalFit (tables_of params_default) fit_start)))
   == 0)%Q.
Proof.
  refine (proj2 (proj2 (ReplaceFit_settles
                          (FinalFit (tables_of params_default) fit_start)
                          1 _))).
  intros t d h Ht Hd Hh.
  exact (proj2 (FinalFit_default_within t d h Ht Hd Hh)).
Defined.


(** * The iteration of [main] *)

Local Open Scope Z_scope.

(** The state a pass of the iteration produces. *)
Definition produced (p : Params) (e : Tables) (s : Fit) : Prop :=
  exists s0, s = ReplaceFit (OptDec p e s0).

Lemma main_loop_runs (p : Params) (e : Tables) :
  forall (fuel : nat) (i : Z) (s : Fit) (w : bool),
    1 <= i -> Z.of_nat fuel = maxI + 1 - i ->
    exists r,
      main_loop fuel p e i s w = Some r
      /\ ((i <= run_i r <= maxI /\ run_warned r = w
           /\ (totfitdiff (run_fit r) < eps)%Q
           /\ produced p e (run_fit r))
          \/ (run_i r = maxI + 1
              /\ (i <= maxI ->
                  run_warned r = true
                  /\ ~ (totfitdiff (run_fit r) < eps)%Q
                  /\ produced p e (run_fit r))
              /\ (i = maxI + 1 -> run_fit r = s /\ run_warned r = w))).
Proof.
  induction fuel as [|k IH]; intros i s w Hi Hfuel.
  - assert (Ei : i = maxI + 1) by lia.
    exists (mk_Run s i w). cbn [main_loop].
    destruct (Z.leb_spec i maxI) as [Hle|_]; [lia|].
    split; [reflexivity|]. right. cbn [run_i run_fit run_warned].
    split; [exact Ei|]. split; [lia|]. auto.
  - assert (Hle : i <= maxI) by lia.
    cbn [main_loop].
    destruct (Z.leb_spec i maxI) as [_|Hgt]; [|lia].
    destruct (Qltb (totfitdiff (ReplaceFit (OptDec p e s))) eps) eqn:Econv.
    + exists (mk_Run (ReplaceFit (OptDec p e s)) i w).
      split; [reflexivity|]. left. cbn [run_i run_fit run_warned].
      split; [lia|]. split; [reflexivity|].
      split; [now apply Qltb_lt|]. exists s; reflexivity.
    + assert (Hnot : ~ (totfitdiff (ReplaceFit (OptDec p e s)) < eps)%Q).
      { intros H. apply Qltb_lt in H. congruence. }
      destruct (IH (i + 1) (ReplaceFit (OptDec p e s))
                  (if i =? maxI then true else w))
        as (r & Hrun & Hr); [lia|lia|].
      exists r. split; [exact Hrun|].
      destruct Hr as [(Hri & Hw & Hc & Hp)|(Hri & Hin & Hout)].
      * left. split; [lia|]. split; [|auto].
        rewrite Hw. destruct (Z.eqb_spec i maxI); [lia|reflexivity].
      * right. split; [exact Hri|]. split; [|lia].
        intros _. destruct (Z.eq_dec i maxI) as [Ei|Hne].
        -- destruct Hout as [Hs Hw]; [lia|].
           rewrite Hs, Hw. rewrite (proj2 (Z.eqb_eq i maxI) Ei).
           split; [reflexivity|]. split; [exact Hnot|]. exists s; reflexivity.
        -- apply Hin. lia.
Qed.

(** The iteration of [main] always ends, after at least one pass of
    [OptDec] and [ReplaceFit].  Either it stopped at the [break], with
    [i] in [1..maxI], [totfitdiff < 0.000001] and no warning; or it ran
    all [maxI] passes without meeting the test, wrote the warning in the
    last one, and left the counter at [i = maxI + 1]: that is the number
    [PrintStrat] then writes after [nIterations], one more than the
    number of passes made. *)
Theorem main_iteration_exit (p : Params) (e : Tables) (s : Fit) :
  exists r,
    main_iteration p e s = Some r
    /\ (exists s0, run_fit r = ReplaceFit (OptDec p e s0))
    /\ snd (PrintStrat (hormone (run_fit r)) (run_i r) []) = run_i r
    /\ ((1 <= run_i r <= maxI /\ run_warned r = false
         /\ (totfitdiff (run_fit r) < eps)%Q)
        \/ (run_i r = maxI + 1 /\ run_warned r = true
            /\ ~ (totfitdiff (run_fit r) < eps)%Q)).
Proof.
  unfold main_iteration.
  destruct (main_loop_runs p e (Z.to_nat maxI) 1 (FinalFit e s) false)
    as (r & Hrun & Hr); [lia|rewrite Z2Nat.id; unfold maxI; lia|].
  exists r. split; [exact Hrun|].
  assert (H1 : 1 <= maxI) by (unfold maxI; lia).
  destruct Hr as [(Hri & Hw & Hc & Hp)|(Hri & Hin & _)].
  - split; [exact Hp|]. split; [reflexivity|]. left. auto.
  - destruct (Hin H1) as (Hw & Hc & Hp).
    split; [exact Hp|]. split; [reflexivity|]. right. auto.
Qed.

(** ** [PrintStrat] *)

Section CountLoops.
Context {S : Type} (body : Z -> S -> S) (size : S -> Z).

(** A loop whose every pass adds [c] to a measure. *)
Lemma for_up_adds (c lo hi : Z) (s : S) :
  lo <= hi + 1 ->
  (forall i s1, lo <= i <= hi -> size (body i s1) = size s1 + c) ->
  size (for_up lo hi body s) = size s + c * (hi + 1 - lo).
Proof.
  intros Hle Hstep.
  assert (H : (fun i s1 => size s1 = size s + c * (i - lo))
              (hi + 1) (for_up lo hi body s)).
  { apply for_up_counts; [exact Hle|lia|].
    intros i s1 Hi H1. rewrite (Hstep i s1 Hi), H1. lia. }
  exact H.
Qed.
End CountLoops.

Section StrategyTable.
Variables (hor : Z -> Z -> Z -> Z) (i : Z).

(** A line that reports an entry of the policy at an epoch [ts < maxTs]. *)
Definition strategy_line (row : StratRow) : Prop :=
  0 <= row_t row <= maxT /\ 0 <= row_ts row <= maxTs - 1
  /\ 0 <= row_d row <= maxD
  /\ row_hormone row = hor (row_t row) (row_ts row) (row_d row).

Lemma PrintStrat_lines (out : list StratRow) :
  (forall row, In row out -> strategy_line row) ->
  forall row, In row (fst (PrintStrat hor i out)) -> strategy_line row.
Proof.
  intros H0. unfold PrintStrat. cbn [fst].
  apply (for_up_keeps _ (fun o => forall row, In row o -> strategy_line row));
    [|exact H0].
  intros t o1 Ht H1.
  apply (for_up_keeps _ (fun o => forall row, In row o -> strategy_line row));
    [|exact H1].
  intros ts o2 Hts H2.
  apply (for_up_keeps _ (fun o => forall row, In row o -> strategy_line row));
    [|exact H2].
  intros d o3 Hd H3 row Hin.
  apply in_app_or in Hin. destruct Hin as [Hin|[<-|[]]]; [now apply H3|].
  unfold strategy_line. cbn [row_t row_ts row_d row_hormone]. auto.
Qed.

Lemma PrintStrat_count (out : list StratRow) :
  Z.of_nat (length (fst (PrintStrat hor i out)))
  = Z.of_nat (length out) + (maxT + 1) * maxTs * (maxD + 1).
Proof.
  unfold PrintStrat. cbn [fst].
  rewrite (for_up_adds _ (fun o => Z.of_nat (length o))
             (maxTs * (maxD + 1)) 0 maxT out);
    [lia|unfold maxT; lia|].
  intros t o1 _.
  rewrite (for_up_adds _ (fun o => Z.of_nat (length o))
             (maxD + 1) 0 (maxTs - 1) o1);
    [lia|unfold maxTs; lia|].
  intros ts o2 _.
  rewrite (for_up_adds _ (fun o => Z.of_nat (length o))
             1 0 maxD o2);
    [lia|unfold maxD; lia|].
  intros d o3 _. rewrite length_app. simpl. lia.
Qed.

Lemma PrintStrat_covers (out : list StratRow) (t ts d : Z) :
  0 <= t <= maxT -> 0 <= ts <= maxTs - 1 -> 0 <= d <= maxD ->
  In (mk_StratRow t d ts (hor t ts d)) (fst (PrintStrat hor i out)).
Proof.
  intros Ht Hts Hd. unfold PrintStrat. cbn [fst].
  set (row := mk_StratRow t d ts (hor t ts d)).
  assert (Kd : forall t' ts' o, In row o ->
    In row (for_up 0 maxD (fun d' o' =>
              o' ++ [mk_StratRow t' d' ts' (hor t' ts' d')]) o)).
  { intros t' ts' o H. apply for_up_keeps; [|exact H].
    intros d' o' _ H'. apply in_or_app. now left. }
  apply for_up_reaches with (c := t); [exact Ht| |].
  - intros o1. apply for_up_reaches with (c := ts); [exact Hts| |].
    + intros o2. apply for_up_reaches with (c := d); [exact Hd| |].
      * intros o3. apply in_or_app. right. now left.
      * intros d' o3 _ H3. apply in_or_app. now left.
    + intros ts' o2 _. apply Kd.
  - intros t' o1 _ H1. apply for_up_keeps; [|exact H1].
    intros ts' o2 _. apply Kd.
Qed.
End StrategyTable.

(** The strategy table [main] prints.  After the iteration, [PrintStrat]
    writes [(maxT+1) * maxTs * (maxD+1) = 21210] lines, one for every
    [(t, ts, d)] with [ts < maxTs]; each reports the entry
    [hormone[t][ts][d]] of the final policy, and every hormone level
    printed lies in [1..maxH-1]: the ends of the hormone lattice never
    appear. *)
Theorem main_strategy_table (p : Params) (e : Tables) (s : Fit) :
  exists r,
    main_iteration p e s = Some r
    /\ Z.of_nat (length (fst (PrintStrat (hormone (run_fit r)) (run_i r) [])))
       = 21210
    /\ (forall row,
          In row (fst (PrintStrat (hormone (run_fit r)) (run_i r) [])) ->
          0 <= row_t row <= maxT /\ 0 <= row_ts row <= maxTs - 1
          /\ 0 <= row_d row <= maxD
          /\ row_hormone row
             = hormone (run_fit r) (row_t row) (row_ts row) (row_d row)
          /\ 1 <= row_hormone row <= maxH - 1)
    /\ (forall t ts d,
          0 <= t <= maxT -> 0 <= ts <= maxTs - 1 -> 0 <= d <= maxD ->
          In (mk_StratRow t d ts (hormone (run_fit r) t ts d))
             (fst (PrintStrat (hormone (run_fit r)) (run_i r) []))).
Proof.
  unfold main_iteration.
  destruct (main_loop_runs p e (Z.to_nat maxI) 1 (FinalFit e s) false)
    as (r & Hrun & Hr); [lia|rewrite Z2Nat.id; unfold maxI; lia|].
  exists r. split; [exact Hrun|]. clear Hrun.
  assert (Hp : produced p e (run_fit r)).
  { assert (H1 : 1 <= maxI) by (unfold maxI; lia).
    destruct Hr as [(_ & _ & _ & Hp)|(_ & Hin & _)]; [exact Hp|].
    now destruct (Hin H1) as (_ & _ & Hp). }
  clear Hr. destruct Hp as [s0 Hs0].
  assert (Hpol : forall t ts d,
            0 <= t <= maxT -> 0 <= ts <= maxTs - 1 -> 0 <= d <= maxD ->
            1 <= hormone (run_fit r) t ts d <= maxH - 1).
  { intros t ts d Ht Hts Hd. rewrite Hs0.
    pose proof (OptDec_on_lattice p e t ts d s0 Ht Hts Hd) as H1.
    unfold on_lattice in H1.
    pose proof (ReplaceFit_hormone (OptDec p e s0)) as E.
    pose proof (ReplaceFit_loops_kept (OptDec p e s0) t ts d) as Hk.
    generalize dependent (ReplaceFit (OptDec p e s0)).
    generalize dependent (ReplaceFit_loops (OptDec p e s0)).
    generalize dependent (OptDec p e s0).
    intros s1 H1 sf Hk s2 _ ->. rewrite Hk by lia. exact H1. }
  clear Hs0. generalize dependent (run_fit r). intros s1 Hpol.
  split; [|split].
  - pose proof (PrintStrat_count (hormone s1) (run_i r) []) as H.
    simpl (length []) in H. unfold maxT, maxTs, maxD in H. lia.
  - intros row Hin.
    destruct (PrintStrat_lines (hormone s1) (run_i r) []
                ltac:(intros ? []) row Hin) as (Ht & Hts & Hd & Hh).
    repeat (split; [assumption|]). rewrite Hh. now apply Hpol.
  - intros t ts d Ht Hts Hd. now apply PrintStrat_covers.
Qed.


(** * [fwdCalc]: the sweep and the loop *)

Local Open Scope Z_scope.

(** A sweep adds frequency at the epochs [1..maxTs] and at [t] in
    [1..maxT-1] only: every entry of epoch 0, of [t = 0] and of
    [t = maxT] is left as it was.  So the source states keep their
    frequency, and no state with [t = maxT] ever receives any (a quiet
    step leads to [min(maxT-1, t+1)]). *)
Theorem fwd_sweep_frame (p : Params) (e : Tables) (hor : Z -> Z -> Z -> Z)
  (s : Fwd) (t' ts' d' h' : Z) :
  ts' < 1 \/ maxTs < ts' \/ t' < 1 \/ maxT - 1 < t' ->
  F (fwd_sweep p e hor s) t' ts' d' h' = F s t' ts' d' h'.
Proof.
  intros Hout. unfold fwd_sweep.
  set (K := fun s1 : Fwd => F s1 t' ts' d' h' = F s t' ts' d' h').
  apply (for_up_keeps _ K); [|reflexivity].
  intros t s1 Ht H1. apply (for_up_keeps _ K); [|exact H1].
  intros ts s2 Hts H2. apply (for_up_keeps _ K); [|exact H2].
  intros d s3 Hd H3. apply (for_up_keeps _ K); [|exact H3].
  intros h s4 Hh H4. unfold K in *.
  rewrite fwd_cell_elsewhere; [exact H4|].
  unfold maxT in *. lia.
Qed.

Lemma fwd_sweep_frame_witness :
  F (fwd_sweep params_default (tables_of params_default) (fun _ _ _ => 0)
       (fwd_init (mk_Fwd (fun _ _ _ _ => 0%Q) 0 0 0))) maxT 3 0 0
  = F (fwd_init (mk_Fwd (fun _ _ _ _ => 0%Q) 0 0 0)) maxT 3 0 0.
Proof.
  refine (fwd_sweep_frame _ _ _ _ maxT 3 0 0 _). unfold maxT. lia.
Defined.

Local Open Scope Q_scope.

Section FirstSweep.
Variables (p : Params) (e : Tables) (hor : Z -> Z -> Z -> Z) (s0 : Fwd).

(** The chance that the seeded state, [t = maxT] and [h = 0], is killed
    by the predator. *)
Definition seed_killed : Q := pPred e maxT * pAttack p * pKilled e 0%Z.

(** The tallies before ([b = false]) and after ([b = true]) the seeded
    state has been visited. *)
Definition tallied (b : bool) (s : Fwd) : Prop :=
  only_epoch1 s0 s
  /\ predDeaths s == (if b then seed_killed else 0)
  /\ damageDeaths s == 0
  /\ bkgrndDeaths s == (if b then (1 - seed_killed) * mu e 0%Z else 0).

Lemma tally_empty_cell (b : bool) (t ts d h : Z) (s : Fwd) :
  F s t ts d h == 0 ->
  predDeaths s == (if b then seed_killed else 0) ->
  damageDeaths s == 0 ->
  bkgrndDeaths s == (if b then (1 - seed_killed) * mu e 0%Z else 0) ->
  predDeaths (fwd_cell p e hor t ts d h s)
  == (if b then seed_killed else 0)
  /\ damageDeaths (fwd_cell p e hor t ts d h s) == 0
  /\ bkgrndDeaths (fwd_cell p e hor t ts d h s)
     == (if b then (1 - seed_killed) * mu e 0%Z else 0).
Proof.
  intros Hm Hp Hd Hb.
  destruct (fwd_cell_amounts p e hor t ts d h s) as (_ & -> & -> & ->).
  unfold die_pred, die_damage, die_bkgrnd.
  rewrite Hm, Hp, Hd, Hb. repeat split; ring.
Qed.

Lemma sweep_early_tally (t ts d h : Z) (s : Fwd) :
  (1 <= t <= maxT - 1)%Z -> (0 <= ts <= maxTs - 1)%Z ->
  (0 <= d <= maxD)%Z -> (0 <= h <= maxH)%Z ->
  untouched s0 s /\ tallied false s ->
  untouched s0 (fwd_cell p e hor t ts d h s)
  /\ tallied false (fwd_cell p e hor t ts d h s).
Proof.
  intros Ht Hts Hd Hh [Hu (H1 & Hp & Hdd & Hb)].
  assert (Hu' : untouched s0 (fwd_cell p e hor t ts d h s))
    by now apply sweep_early_cell.
  split; [exact Hu'|]. split.
  - intros t' ts' d' h' _. apply Hu'.
  - apply (tally_empty_cell false); try assumption.
    rewrite (Hu t ts d h).
    rewrite fwd_init_zero; [reflexivity| |lia].
    unfold on_F_lattice. lia.
Qed.

Lemma sweep_seed_tally (s : Fwd) :
  tallied false s -> tallied true (fwd_cell p e hor maxT 0 0 0 s).
Proof.
  intros (H1 & Hp & Hdd & Hb). split.
  - apply sweep_last_cell; [unfold maxTs|unfold maxD|unfold maxH| ];
      try lia; exact H1.
  - destruct (fwd_cell_amounts p e hor maxT 0 0 0 s) as (_ & -> & -> & ->).
    unfold die_pred, die_damage, die_bkgrnd.
    assert (Hm : F s maxT 0%Z 0%Z 0%Z == 1).
    { rewrite (H1 maxT 0%Z 0%Z 0%Z) by (left; lia).
      rewrite fwd_init_seed. reflexivity. }
    rewrite Hm, Hp, Hdd, Hb. unfold seed_killed. repeat split; ring.
Qed.

Lemma sweep_rest_tally (b : bool) (ts d h : Z) (s : Fwd) :
  (0 <= ts <= maxTs - 1)%Z -> (0 <= d <= maxD)%Z -> (0 <= h <= maxH)%Z ->
  (ts <> 0 \/ d <> 0 \/ h <> 0)%Z ->
  tallied b s -> tallied b (fwd_cell p e hor maxT ts d h s).
Proof.
  intros Hts Hd Hh Hne (H1 & Hp & Hdd & Hb). split.
  - now apply sweep_last_cell.
  - apply (tally_empty_cell b); try assumption.
    rewrite (H1 maxT ts d h) by (right; reflexivity).
    rewrite fwd_init_zero; [reflexivity| |lia].
    unfold on_F_lattice, maxT. lia.
Qed.

(** The passes of the last [t]: the seeded state comes first. *)
Lemma sweep_last_tally (s : Fwd) :
  tallied false s -> tallied true (fwd_sweep_passes p e hor maxT maxT s).
Proof.
  intros Hs. unfold fwd_sweep_passes.
  rewrite (for_up_last _ maxT maxT) by lia.
  rewrite (for_up_empty _ maxT (maxT - 1)) by lia.
  change true with (0 <? maxTs - 1 + 1)%Z.
  apply (for_up_counts _ (fun ts s1 => tallied (0 <? ts)%Z s1));
    [unfold maxTs; lia|exact Hs|].
  intros ts s1 Hts H1.
  replace (0 <? ts + 1)%Z with true by (symmetry; apply Z.ltb_lt; lia).
  destruct (Z.eq_dec ts 0) as [->|Hts0].
  - change true with (0 <? maxD + 1)%Z.
    apply (for_up_counts _ (fun d s2 => tallied (0 <? d)%Z s2));
      [unfold maxD; lia|exact H1|].
    intros d s2 Hd H2.
    replace (0 <? d + 1)%Z with true by (symmetry; apply Z.ltb_lt; lia).
    destruct (Z.eq_dec d 0) as [->|Hd0].
    + change true with (0 <? maxH + 1)%Z.
      apply (for_up_counts _ (fun h s3 => tallied (0 <? h)%Z s3));
        [unfold maxH; lia|exact H2|].
      intros h s3 Hh H3.
      replace (0 <? h + 1)%Z with true by (symmetry; apply Z.ltb_lt; lia).
      destruct (Z.eq_dec h 0) as [->|Hh0].
      * now apply sweep_seed_tally.
      * replace (0 <? h)%Z with true in H3
          by (symmetry; apply Z.ltb_lt; lia).
        apply sweep_rest_tally; try assumption; lia.
    + replace (0 <? d)%Z with true in H2
        by (symmetry; apply Z.ltb_lt; lia).
      apply (for_up_keeps _ (tallied true)); [|exact H2].
      intros h s3 Hh H3. apply sweep_rest_tally; try assumption; lia.
  - replace (0 <? ts)%Z with true in H1 by (symmetry; apply Z.ltb_lt; lia).
    apply (for_up_keeps _ (tallied true)); [|exact H1].
    intros d s2 Hd H2. apply (for_up_keeps _ (tallied true)); [|exact H2].
    intros h s3 Hh H3. apply sweep_rest_tally; try assumption; lia.
Qed.

Lemma sweep_early_tallies (s : Fwd) :
  untouched s0 s /\ tallied false s ->
  untouched s0 (fwd_sweep_passes p e hor 1 (maxT - 1) s)
  /\ tallied false (fwd_sweep_passes p e hor 1 (maxT - 1) s).
Proof.
  intros Hs. unfold fwd_sweep_passes.
  set (K := fun s1 : Fwd => untouched s0 s1 /\ tallied false s1).
  apply (for_up_keeps _ K); [|exact Hs].
  intros t s1 Ht H1. apply (for_up_keeps _ K); [|exact H1].
  intros ts s2 Hts H2. apply (for_up_keeps _ K); [|exact H2].
  intros d s3 Hd H3. apply (for_up_keeps _ K); [|exact H3].
  intros h s4 Hh. now apply sweep_early_tally.
Qed.

(** The first sweep tallies the deaths of the seeded state alone, and
    leaves the seed where it was. *)
Lemma fwd_sweep_first_tally :
  tallied true (fwd_sweep p e hor (fwd_init s0)).
Proof.
  rewrite fwd_sweep_split.
  apply sweep_last_tally.
  apply sweep_early_tallies.
  assert (Hu : untouched s0 (mk_Fwd (F (fwd_init s0)) 0 0 0))
    by exact (same_F_reset _ _ _ _).
  split; [exact Hu|]. split.
  - intros t ts d h _. apply Hu.
  - cbn [predDeaths damageDeaths bkgrndDeaths]. repeat split; reflexivity.
Qed.
End FirstSweep.

(** ** Fallible loops: totality and projection *)

Local Open Scope Z_scope.

Section OptLoopTotal.
Context {S : Type} (body : Z -> S -> option S).

Lemma for_up_opt_total (J : S -> Prop) (lo hi : Z) (s : S) :
  (forall i s1, lo <= i <= hi -> J s1 ->
     exists s2, body i s1 = Some s2 /\ J s2) ->
  J s -> exists s', for_up_opt lo hi body s = Some s' /\ J s'.
Proof.
  intros Hstep. unfold for_up_opt.
  generalize (zrange lo hi) (fun i => proj1 (in_zrange i lo hi)).
  intros l Hl. revert s.
  induction l as [|a l IH]; intros s Hs; simpl.
  - exists s. auto.
  - destruct (Hstep a s (Hl a (or_introl eq_refl)) Hs) as (s1 & -> & H1).
    apply (IH (fun i Hi => Hl i (or_intror Hi)) s1 H1).
Qed.
End OptLoopTotal.

Section OptLoopProject.
Context {S T : Type} (bodyS : Z -> S -> option S)
  (bodyT : Z -> T -> option T) (pr : S -> T).

Lemma for_up_opt_project (lo hi : Z) :
  (forall i s s', bodyS i s = Some s' -> bodyT i (pr s) = Some (pr s')) ->
  forall s s', for_up_opt lo hi bodyS s = Some s' ->
    for_up_opt lo hi bodyT (pr s) = Some (pr s').
Proof.
  intros Hstep. unfold for_up_opt.
  generalize (zrange lo hi). intros l.
  induction l as [|a l IH]; intros s s' Hrun; simpl in *.
  - injection Hrun as <-. reflexivity.
  - destruct (bodyS a s) as [s1|] eqn:E.
    + rewrite (Hstep a s s1 E). now apply IH.
    + exfalso. clear -Hrun.
      induction l as [|b l IHl]; simpl in Hrun; [discriminate|auto].
Qed.
End OptLoopProject.

(** ** The normalisation with [maxfreqdiff] *)

Local Open Scope Q_scope.

Lemma ddiv_defined (n d : Q) : ~ d == 0 -> ddiv n d = Some (n / d).
Proof.
  intros Hd. unfold ddiv. destruct (Qeq_bool d 0) eqn:E; [|reflexivity].
  apply Qeq_bool_iff in E. contradiction.
Qed.

Lemma ddiv_divisor (n d q : Q) : ddiv n d = Some q -> ~ d == 0.
Proof.
  unfold ddiv. destruct (Qeq_bool d 0) eqn:E; [discriminate|].
  intros _ Hd. apply Qeq_bool_iff in Hd. congruence.
Qed.

Lemma std_max_ge (a b : Q) : a <= std_max a b /\ b <= std_max a b.
Proof. destruct (std_max_spec a b) as [[H ->]|[H ->]]; lra. Qed.

Lemma std_max_nothing (a b : Q) : a == 0 -> b == 0 -> std_max a b == 0.
Proof. intros Ha Hb. destruct (std_max_spec a b) as [[H ->]|[H ->]]; auto. Qed.

(** The state part of the normalisation of one state is [fwd_norm_cell];
    the new [maxfreqdiff] compares the quotient, which ends at epoch 0,
    with what epoch 0 held. *)
Lemma fwd_norm_cell_diff_spec (t d h : Z) (sm sm' : Fwd * Q) :
  fwd_norm_cell_diff t d h sm = Some sm' ->
  fwd_norm_cell t d h (fst sm) = Some (fst sm')
  /\ snd sm'
     = std_max (snd sm)
         (Qabs (F (fst sm') t 0%Z d h - F (fst sm) t 0%Z d h)).
Proof.
  destruct sm as [s m]. unfold fwd_norm_cell_diff, fwd_norm_cell.
  cbn [fst snd].
  destruct (ddiv (F s t maxTs d h) (1 - predDeaths s - damageDeaths s))
    as [q|]; [|discriminate].
  intros [= <-]. cbn [fst snd F]. split; [reflexivity|].
  rewrite wipe_outside by lia.
  rewrite !upd4_same.
  rewrite (upd4_other (F s) t maxTs d h q t 0%Z d h)
    by (unfold maxTs; lia).
  reflexivity.
Qed.

Lemma fwd_norm_cell_diff_defined (t d h : Z) (sm : Fwd * Q) :
  ~ 1 - predDeaths (fst sm) - damageDeaths (fst sm) == 0 ->
  exists sm', fwd_norm_cell_diff t d h sm = Some sm'.
Proof.
  intros Hnz. destruct sm as [s m]. unfold fwd_norm_cell_diff.
  cbn [fst] in Hnz. rewrite (ddiv_defined _ _ Hnz). eexists. reflexivity.
Qed.

(** The tallies a normalisation works with. *)
Definition same_tallies (s s' : Fwd) : Prop :=
  predDeaths s' = predDeaths s /\ damageDeaths s' = damageDeaths s
  /\ bkgrndDeaths s' = bkgrndDeaths s.

Lemma fwd_norm_cell_diff_tallies (s0 : Fwd) (t d h : Z) (sm sm' : Fwd * Q) :
  same_tallies s0 (fst sm) -> fwd_norm_cell_diff t d h sm = Some sm' ->
  same_tallies s0 (fst sm').
Proof.
  intros (H1 & H2 & H3) Hrun.
  destruct (fwd_norm_cell_diff_spec t d h sm sm' Hrun) as [Hc _].
  destruct (fwd_norm_cell_spec t d h _ _ Hc)
    as (q & _ & _ & _ & _ & E1 & E2 & E3).
  unfold same_tallies. rewrite E1, E2, E3. auto.
Qed.

(** The three nested loops of the normalisation. *)
Definition fwd_norm_loops (sm : Fwd * Q) : option (Fwd * Q) :=
  for_up_opt 1 maxT (fun t =>
    for_up_opt 0 maxD (fun d =>
      for_up_opt 0 maxH (fun h => fwd_norm_cell_diff t d h))) sm.

Lemma fwd_norm_loops_keep (J : Fwd * Q -> Prop) (sm sm' : Fwd * Q) :
  (forall t d h sm1 sm2,
     (1 <= t <= maxT)%Z -> (0 <= d <= maxD)%Z -> (0 <= h <= maxH)%Z ->
     J sm1 -> fwd_norm_cell_diff t d h sm1 = Some sm2 -> J sm2) ->
  J sm -> fwd_norm_loops sm = Some sm' -> J sm'.
Proof.
  intros Hcell. unfold fwd_norm_loops.
  apply for_up_opt_keeps. intros t s1 s2 Ht.
  apply for_up_opt_keeps. intros d s3 s4 Hd.
  apply for_up_opt_keeps. intros h s5 s6 Hh.
  now apply Hcell.
Qed.

Lemma fwd_norm_loops_defined (s0 : Fwd) (sm : Fwd * Q) :
  ~ 1 - predDeaths s0 - damageDeaths s0 == 0 ->
  same_tallies s0 (fst sm) ->
  exists sm', fwd_norm_loops sm = Some sm'.
Proof.
  intros Hnz Hs. unfold fwd_norm_loops.
  destruct (for_up_opt_total
              (fun t => for_up_opt 0 maxD (fun d =>
                 for_up_opt 0 maxH (fun h => fwd_norm_cell_diff t d h)))
              (fun sm1 => same_tallies s0 (fst sm1)) 1 maxT sm)
    as (sm' & Hrun & _); [|exact Hs|now exists sm'].
  intros t s1 _ H1.
  apply (for_up_opt_total
           (fun d => for_up_opt 0 maxH (fun h => fwd_norm_cell_diff t d h))
           (fun sm1 => same_tallies s0 (fst sm1)) 0 maxD s1); [|exact H1].
  intros d s2 _ H2.
  apply (for_up_opt_total
           (fun h => fwd_norm_cell_diff t d h)
           (fun sm1 => same_tallies s0 (fst sm1)) 0 maxH s2); [|exact H2].
  intros h s3 _ H3.
  destruct (fwd_norm_cell_diff_defined t d h s3) as [s4 E].
  - destruct H3 as (-> & -> & _). exact Hnz.
  - exists s4. split; [exact E|].
    now apply (fwd_norm_cell_diff_tallies s0 t d h s3).
Qed.

Lemma fwd_norm_loops_project (sm sm' : Fwd * Q) :
  fwd_norm_loops sm = Some sm' ->
  for_up_opt 1 maxT (fun t => fwd_norm_d t) (fst sm) = Some (fst sm').
Proof.
  unfold fwd_norm_loops.
  apply (for_up_opt_project
           (fun t => for_up_opt 0 maxD (fun d =>
              for_up_opt 0 maxH (fun h => fwd_norm_cell_diff t d h)))
           (fun t => fwd_norm_d t) fst).
  intros t s1 s2. unfold fwd_norm_d.
  apply (for_up_opt_project
           (fun d => for_up_opt 0 maxH (fun h => fwd_norm_cell_diff t d h))
           (fun d => fwd_norm_h t d) fst).
  intros d s3 s4. unfold fwd_norm_h.
  apply (for_up_opt_project
           (fun h => fwd_norm_cell_diff t d h)
           (fun h => fwd_norm_cell t d h) fst).
  intros h s5 s6 Hrun.
  exact (proj1 (fwd_norm_cell_diff_spec t d h s5 s6 Hrun)).
Qed.

(** The state part of [fwd_normalise_diff] is [fwd_normalise]. *)
Lemma fwd_normalise_diff_state (b : bool) (s : Fwd) (sm' : Fwd * Q) :
  fwd_normalise_diff b s = Some sm' -> fwd_normalise s = Some (fst sm').
Proof.
  unfold fwd_normalise_diff, fwd_normalise.
  destruct (ddiv (F s 1%Z maxTs 0%Z 0%Z)
              (1 - predDeaths s - damageDeaths s - bkgrndDeaths s))
    as [q|]; [|discriminate].
  intros Hrun. apply fwd_norm_loops_project in Hrun. exact Hrun.
Qed.

(** The normalisation wipes the epochs [1..maxTs] of every state. *)
Lemma fwd_normalise_wipes (s s' : Fwd) (t ts d h : Z) :
  (1 <= t <= maxT)%Z -> (1 <= ts <= maxTs)%Z -> (0 <= d <= maxD)%Z ->
  (0 <= h <= maxH)%Z ->
  fwd_normalise s = Some s' -> F s' t ts d h = 0.
Proof.
  intros Ht Hts Hd Hh. unfold fwd_normalise.
  destruct (ddiv (F s 1%Z maxTs 0%Z 0%Z)
              (1 - predDeaths s - damageDeaths s - bkgrndDeaths s))
    as [q0|]; [|discriminate].
  generalize (mk_Fwd (upd4 (F s) 1%Z maxTs 0%Z 0%Z q0) (predDeaths s)
                     (damageDeaths s) (bkgrndDeaths s)).
  intros sa Hrun.
  set (Wd := fun s1 : Fwd => F s1 t ts d h = 0).
  assert (Hset : forall s1 s2, fwd_norm_cell t d h s1 = Some s2 -> Wd s2).
  { intros s1 s2 E.
    destruct (fwd_norm_cell_spec t d h s1 s2 E) as (q & _ & _ & Hin & _).
    now apply Hin. }
  assert (Hkeep : forall t' d' h' s1 s2,
            Wd s1 -> fwd_norm_cell t' d' h' s1 = Some s2 -> Wd s2).
  { intros t' d' h' s1 s2 H1 E.
    destruct (Z.eq_dec t' t) as [Et|Hne1];
      [destruct (Z.eq_dec d' d) as [Ed|Hne2];
         [destruct (Z.eq_dec h' h) as [Eh|Hne3]|]|].
    - subst t' d' h'. exact (Hset s1 s2 E).
    - destruct (fwd_norm_cell_spec t' d' h' s1 s2 E)
        as (q & _ & _ & _ & Hout & _).
      unfold Wd. rewrite Hout by auto. exact H1.
    - destruct (fwd_norm_cell_spec t' d' h' s1 s2 E)
        as (q & _ & _ & _ & Hout & _).
      unfold Wd. rewrite Hout by auto. exact H1.
    - destruct (fwd_norm_cell_spec t' d' h' s1 s2 E)
        as (q & _ & _ & _ & Hout & _).
      unfold Wd. rewrite Hout by auto. exact H1. }
  assert (Kh : forall t' d' s1 s2,
            Wd s1 -> fwd_norm_h t' d' s1 = Some s2 -> Wd s2).
  { intros t' d' s1 s2. apply for_up_opt_keeps.
    intros h' s3 s4 _. apply Hkeep. }
  apply (for_up_opt_reaches_under (fun t0 => fwd_norm_d t0)
           (fun _ => True) Wd t 1 maxT sa s' Ht);
    [auto| | |exact Logic.I|exact Hrun].
  - intros s1 s2 _.
    apply (for_up_opt_reaches_under (fun d0 => fwd_norm_h t d0)
             (fun _ => True) Wd d 0 maxD s1 s2 Hd); [auto| | |exact Logic.I].
    + intros s3 s4 _.
      apply (for_up_opt_reaches_under (fun h0 => fwd_norm_cell t d h0)
               (fun _ => True) Wd h 0 maxH s3 s4 Hh); [auto| | |exact Logic.I].
      * intros s5 s6 _. apply Hset.
      * intros h' s5 s6 _ _. apply Hkeep.
    + intros d' s3 s4 _ _. apply Kh.
  - intros t' s1 s2 _ _. apply for_up_opt_keeps.
    intros d' s3 s4 _. apply Kh.
Qed.

(** No frequency anywhere on the lattice. *)
Definition lattice_empty (s : Fwd) : Prop :=
  forall t ts d h, on_F_lattice t ts d h -> F s t ts d h == 0.

(** From an empty breeding point, a normalisation that is defined leaves
    the lattice empty. *)
Lemma fwd_normalise_empties (s s' : Fwd) :
  boundary_empty s -> fwd_normalise s = Some s' -> lattice_empty s'.
Proof.
  intros Hb Hrun t ts d h (Ht & Hts & Hd & Hh).
  destruct (Z.eq_dec ts 0) as [->|Hne].
  - exact (proj1 (fwd_normalise_nothing s s' t d h Ht Hd Hh Hb Hrun)).
  - rewrite (fwd_normalise_wipes s s' t ts d h) by (try assumption; lia).
    reflexivity.
Qed.

Lemma fwd_normalise_tallies (s s' : Fwd) :
  fwd_normalise s = Some s' -> same_tallies s s'.
Proof.
  unfold fwd_normalise.
  destruct (ddiv (F s 1%Z maxTs 0%Z 0%Z)
              (1 - predDeaths s - damageDeaths s - bkgrndDeaths s))
    as [q0|]; [|discriminate].
  assert (H0 : same_tallies s
                 (mk_Fwd (upd4 (F s) 1%Z maxTs 0%Z 0%Z q0) (predDeaths s)
                         (damageDeaths s) (bkgrndDeaths s)))
    by (unfold same_tallies; auto).
  generalize dependent (mk_Fwd (upd4 (F s) 1%Z maxTs 0%Z 0%Z q0)
                               (predDeaths s) (damageDeaths s)
                               (bkgrndDeaths s)).
  intros sa H0 Hrun.
  apply (for_up_opt_keeps (fun t0 => fwd_norm_d t0) (same_tallies s)
           1 maxT sa s'); [|exact H0|exact Hrun].
  intros t s1 s2 _. apply for_up_opt_keeps. intros d s3 s4 _.
  apply for_up_opt_keeps. intros h s5 s6 _ (H1 & H2 & H3) E.
  destruct (fwd_norm_cell_spec t d h s5 s6 E)
    as (q & _ & _ & _ & _ & E1 & E2 & E3).
  unfold same_tallies. rewrite E1, E2, E3. auto.
Qed.

(** [fwd_normalise_diff] is defined exactly when its two divisors are not
    zero. *)
Lemma fwd_normalise_diff_defined (b : bool) (s : Fwd) :
  ~ 1 - predDeaths s - damageDeaths s - bkgrndDeaths s == 0 ->
  ~ 1 - predDeaths s - damageDeaths s == 0 ->
  exists sm', fwd_normalise_diff b s = Some sm'.
Proof.
  intros H1 H2. unfold fwd_normalise_diff.
  rewrite (ddiv_defined _ _ H1).
  apply (fwd_norm_loops_defined s); [exact H2|].
  unfold same_tallies. auto.
Qed.

(** ** The passes of [fwdCalc] *)

Lemma abs_call_nothing (b : bool) (x : Q) : x == 0 -> abs_call b x == 0.
Proof.
  intros Hx. unfold abs_call. destruct b.
  - unfold Qtrunc.
    assert (E : Qltb x 0 = false)
      by (apply Qltb_ge; rewrite Hx; apply Qle_refl).
    rewrite E, Hx. reflexivity.
  - rewrite Hx. reflexivity.
Qed.

Lemma fwd_norm_cell_empties (t d h : Z) (s s' : Fwd) :
  lattice_empty s -> fwd_norm_cell t d h s = Some s' -> lattice_empty s'.
Proof.
  intros Hs Hrun t' ts' d' h' (Ht' & Hts' & Hd' & Hh').
  destruct (fwd_norm_cell_spec t d h s s' Hrun)
    as (q & Hq & H0 & Hin & Hout & _).
  destruct (Z.eq_dec t' t) as [Et|Hne1];
    [destruct (Z.eq_dec d' d) as [Ed|Hne2];
       [destruct (Z.eq_dec h' h) as [Eh|Hne3]|]|].
  - subst t' d' h'. destruct (Z.eq_dec ts' 0) as [->|Hne].
    + rewrite H0. apply (ddiv_of_nothing _ _ _ Hq).
      apply Hs. unfold on_F_lattice, maxTs in *. lia.
    + rewrite Hin by lia. reflexivity.
  - rewrite Hout by auto. apply Hs. unfold on_F_lattice. auto.
  - rewrite Hout by auto. apply Hs. unfold on_F_lattice. auto.
  - rewrite Hout by auto. apply Hs. unfold on_F_lattice. auto.
Qed.

Lemma seed_lattice : on_F_lattice maxT 0 0 0.
Proof. unfold on_F_lattice, maxT, maxTs, maxD, maxH. lia. Qed.

(** A pass that starts with the seed in place and nothing at the breeding
    point reports a difference of at least 1. *)
Lemma seeded_pass_diff (b : bool) (s : Fwd) (sm' : Fwd * Q) :
  boundary_empty s -> F s maxT 0%Z 0%Z 0%Z == 1 ->
  fwd_normalise_diff b s = Some sm' -> 1 <= snd sm'.
Proof.
  intros Hb Hseed Hrun.
  pose proof (fwd_normalise_diff_state b s sm' Hrun) as Hst.
  pose proof (proj1 (fwd_normalise_nothing s (fst sm') maxT 0%Z 0%Z
                       ltac:(unfold maxT; lia) ltac:(unfold maxD; lia)
                       ltac:(unfold maxH; lia) Hb Hst)) as Hend.
  clear Hst. revert Hrun. unfold fwd_normalise_diff.
  destruct (ddiv (F s 1%Z maxTs 0%Z 0%Z)
              (1 - predDeaths s - damageDeaths s - bkgrndDeaths s))
    as [q0|] eqn:E0; [|discriminate].
  set (J := fun sm : Fwd * Q =>
         boundary_empty (fst sm)
         /\ (F (fst sm) maxT 0%Z 0%Z 0%Z == 1 \/ 1 <= snd sm)).
  intros Hrun.
  assert (HJ : J sm').
  { refine (fwd_norm_loops_keep J _ sm' _ _ Hrun).
    - intros t d h sm1 sm2 Ht Hd Hh [H1 H2] Hcell.
      destruct (fwd_norm_cell_diff_spec t d h sm1 sm2 Hcell) as [Hc Hm].
      split; [now apply (fwd_norm_cell_boundary t d h (fst sm1))|].
      pose proof (std_max_ge (snd sm1)
                    (Qabs (F (fst sm2) t 0%Z d h - F (fst sm1) t 0%Z d h)))
        as [Hg1 Hg2].
      rewrite <- Hm in Hg1, Hg2.
      destruct H2 as [H2|H2]; [|right; lra].
      destruct (Z.eq_dec t maxT) as [Et|Hne1];
        [destruct (Z.eq_dec d 0) as [Ed|Hne2];
           [destruct (Z.eq_dec h 0) as [Eh|Hne3]|]|].
      + subst t d h. right.
        pose proof (fwd_norm_cell_sets maxT 0%Z 0%Z (fst sm1) (fst sm2)
                      Ht Hd Hh H1 Hc) as Hz.
        unfold start_empty in Hz.
        rewrite Hz, H2 in Hg2.
        eapply Qle_trans; [|exact Hg2]. discriminate.
      + left. destruct (fwd_norm_cell_spec t d h _ _ Hc)
          as (q & _ & _ & _ & Hout & _).
        rewrite Hout by auto. exact H2.
      + left. destruct (fwd_norm_cell_spec t d h _ _ Hc)
          as (q & _ & _ & _ & Hout & _).
        rewrite Hout by auto. exact H2.
      + left. destruct (fwd_norm_cell_spec t d h _ _ Hc)
          as (q & _ & _ & _ & Hout & _).
        rewrite Hout by auto. exact H2.
    - unfold J. cbn [fst snd F]. split.
      + intros t' d' h' Ht' Hd' Hh'. cbn [fst F].
        destruct (upd4_cases (F s) 1%Z maxTs 0%Z 0%Z q0 t' maxTs d' h')
          as [(-> & _ & -> & -> & E)|[_ E]]; rewrite E.
        * apply (ddiv_of_nothing _ _ _ E0). now apply Hb.
        * now apply Hb.
      + left. rewrite upd4_other by (unfold maxT; lia). exact Hseed. }
  destruct HJ as [_ [H|H]]; [|exact H].
  rewrite Hend in H. discriminate H.
Qed.

(** A pass over an empty lattice reports no difference. *)
Lemma empty_pass_diff (b : bool) (s : Fwd) (sm' : Fwd * Q) :
  lattice_empty s -> fwd_normalise_diff b s = Some sm' -> snd sm' == 0.
Proof.
  intros Hs. unfold fwd_normalise_diff.
  destruct (ddiv (F s 1%Z maxTs 0%Z 0%Z)
              (1 - predDeaths s - damageDeaths s - bkgrndDeaths s))
    as [q0|] eqn:E0; [|discriminate].
  assert (Hq0 : q0 == 0).
  { apply (ddiv_of_nothing _ _ _ E0). apply Hs.
    unfold on_F_lattice, maxT, maxTs, maxD, maxH. lia. }
  set (J := fun sm : Fwd * Q => lattice_empty (fst sm) /\ snd sm == 0).
  intros Hrun.
  assert (HJ : J sm').
  { refine (fwd_norm_loops_keep J _ sm' _ _ Hrun).
    - intros t d h sm1 sm2 Ht Hd Hh [H1 H2] Hcell.
      destruct (fwd_norm_cell_diff_spec t d h sm1 sm2 Hcell) as [Hc Hm].
      assert (H1' : lattice_empty (fst sm2))
        by now apply (fwd_norm_cell_empties t d h (fst sm1)).
      split; [exact H1'|]. rewrite Hm.
      apply std_max_nothing; [exact H2|].
      assert (Hl : on_F_lattice t 0 d h)
        by (unfold on_F_lattice, maxTs; lia).
      rewrite (H1 _ _ _ _ Hl), (H1' _ _ _ _ Hl). reflexivity.
    - unfold J. cbn [fst snd F]. split.
      + intros t' ts' d' h' Hl. cbn [fst F].
        destruct (upd4_cases (F s) 1%Z maxTs 0%Z 0%Z q0 t' ts' d' h')
          as [(-> & -> & -> & -> & E)|[_ E]]; rewrite E;
          [exact Hq0|now apply Hs].
      + apply abs_call_nothing. rewrite upd4_same.
        rewrite upd4_other by (unfold maxTs; lia).
        rewrite (Hs 1%Z 0%Z 0%Z 0%Z)
          by (unfold on_F_lattice, maxT, maxTs, maxD, maxH; lia).
        rewrite Hq0. reflexivity. }
  apply HJ.
Qed.

(** A sweep over an empty lattice moves nothing and tallies no death. *)
Lemma fwd_sweep_empty (p : Params) (e : Tables) (hor : Z -> Z -> Z -> Z)
  (s : Fwd) :
  lattice_empty s ->
  lattice_empty (fwd_sweep p e hor s)
  /\ predDeaths (fwd_sweep p e hor s) == 0
  /\ damageDeaths (fwd_sweep p e hor s) == 0
  /\ bkgrndDeaths (fwd_sweep p e hor s) == 0.
Proof.
  intros Hs. unfold fwd_sweep.
  set (K := fun s1 : Fwd =>
         lattice_empty s1
         /\ predDeaths s1 == 0 /\ damageDeaths s1 == 0
         /\ bkgrndDeaths s1 == 0).
  apply (for_up_keeps _ K).
  - intros t s1 Ht H1. apply (for_up_keeps _ K); [|exact H1].
    intros ts s2 Hts H2. apply (for_up_keeps _ K); [|exact H2].
    intros d s3 Hd H3. apply (for_up_keeps _ K); [|exact H3].
    intros h s4 Hh (H4 & Hp & Hdd & Hb).
    assert (Hm : F s4 t ts d h == 0)
      by (apply H4; unfold on_F_lattice; lia).
    split.
    + intros t' ts' d' h' Hl.
      etransitivity;
        [exact (fwd_cell_empty p e hor t ts d h s4 Hm t' ts' d' h')|].
      now apply H4.
    + exact (tally_empty_cell p e hor false t ts d h s4 Hm Hp Hdd Hb).
  - unfold K. cbn [F predDeaths damageDeaths bkgrndDeaths].
    split; [exact Hs|]. repeat split; reflexivity.
Qed.

Section TwoPasses.
Variables (b : bool) (p : Params) (e : Tables) (hor : Z -> Z -> Z -> Z).

Lemma first_pass_divisor (s0 : Fwd) :
  1 - predDeaths (fwd_sweep p e hor (fwd_init s0))
    - damageDeaths (fwd_sweep p e hor (fwd_init s0))
    - bkgrndDeaths (fwd_sweep p e hor (fwd_init s0))
  == (1 - seed_killed p e) * (1 - mu e 0%Z)
  /\ 1 - predDeaths (fwd_sweep p e hor (fwd_init s0))
       - damageDeaths (fwd_sweep p e hor (fwd_init s0))
     == 1 - seed_killed p e.
Proof.
  destruct (fwd_sweep_first_tally p e hor s0) as (_ & Hp & Hd & Hb).
  rewrite Hp, Hd, Hb. split; ring.
Qed.

Lemma first_pass_runs (s0 : Fwd) :
  ~ (1 - seed_killed p e) * (1 - mu e 0%Z) == 0 ->
  exists s1 m1,
    fwd_pass_diff b p e hor (fwd_init s0) = Some (s1, m1)
    /\ lattice_empty s1 /\ 1 <= m1.
Proof.
  intros Hnz. unfold fwd_pass_diff.
  destruct (first_pass_divisor s0) as [E1 E2].
  destruct (fwd_sweep_first_tally p e hor s0) as (H1 & _).
  assert (Hb : boundary_empty (fwd_sweep p e hor (fwd_init s0)))
    by (intros t d h; apply fwd_sweep_first).
  assert (Hseed : F (fwd_sweep p e hor (fwd_init s0)) maxT 0%Z 0%Z 0%Z == 1).
  { rewrite (H1 maxT 0%Z 0%Z 0%Z) by (left; lia).
    rewrite fwd_init_seed. reflexivity. }
  clear H1.
  generalize dependent (fwd_sweep p e hor (fwd_init s0)).
  intros s E1 E2 Hb Hseed.
  destruct (fwd_normalise_diff_defined b s) as [[s1 m1] Hrun].
  - rewrite E1. exact Hnz.
  - rewrite E2. intros H. apply Hnz. rewrite H. ring.
  - exists s1, m1. split; [exact Hrun|]. split.
    + apply (fwd_normalise_empties s s1 Hb).
      exact (fwd_normalise_diff_state b s _ Hrun).
    + exact (seeded_pass_diff b s _ Hb Hseed Hrun).
Qed.


Lemma empty_pass_runs (s : Fwd) :
  lattice_empty s ->
  exists s2 m2,
    fwd_pass_diff b p e hor s = Some (s2, m2)
    /\ lattice_empty s2 /\ m2 == 0
    /\ predDeaths s2 == 0 /\ damageDeaths s2 == 0 /\ bkgrndDeaths s2 == 0.
Proof.
  intros Hs. unfold fwd_pass_diff.
  destruct (fwd_sweep_empty p e hor s Hs) as (Hl & Hp & Hd & Hb).
  generalize dependent (fwd_sweep p e hor s).
  intros s1 Hl Hp Hd Hb.
  destruct (fwd_normalise_diff_defined b s1) as [[s2 m2] Hrun].
  - rewrite Hp, Hd, Hb. discriminate.
  - rewrite Hp, Hd. discriminate.
  - exists s2, m2. split; [exact Hrun|].
    pose proof (fwd_normalise_diff_state b s1 _ Hrun) as Hst.
    cbn [fst] in Hst.
    assert (Hbd : boundary_empty s1).
    { intros t d h Ht Hd' Hh. apply Hl.
      unfold on_F_lattice, maxTs. lia. }
    split; [exact (fwd_normalise_empties s1 s2 Hbd Hst)|].
    split; [exact (empty_pass_diff b s1 _ Hl Hrun)|].
    destruct (fwd_normalise_tallies s1 s2 Hst) as (-> & -> & ->).
    auto.
Qed.
End TwoPasses.

(** The loop, pass by pass. *)
Lemma fwdCalc_loop_step (fuel : nat) (pass : Fwd -> option (Fwd * Q))
  (i : Z) (m : Q) (s s' : Fwd) (m' : Q) :
  eps < m -> pass s = Some (s', m') ->
  fwdCalc_loop (S fuel) pass i m s = fwdCalc_loop fuel pass (i + 1) m' s'.
Proof.
  intros Hm Hp. cbn [fwdCalc_loop].
  rewrite (proj2 (Qltb_lt eps m) Hm), Hp. reflexivity.
Qed.

Lemma fwdCalc_loop_stop (fuel : nat) (pass : Fwd -> option (Fwd * Q))
  (i : Z) (m : Q) (s : Fwd) :
  m <= eps -> fwdCalc_loop fuel pass i m s = fwd_done i s m.
Proof.
  intros Hm. destruct fuel; cbn [fwdCalc_loop];
    rewrite (proj2 (Qltb_ge eps m) Hm); reflexivity.
Qed.

(** The policy holds hormone levels of the lattice at every state the
    sweep of [fwdCalc] looks up. *)
Definition hormone_in_range (hor : Z -> Z -> Z -> Z) : Prop :=
  forall t ts d,
    (0 <= t <= maxT)%Z -> (0 <= ts <= maxTs - 1)%Z -> (0 <= d <= maxD)%Z ->
    (0 <= hor t ts d <= maxH)%Z.

(** [fwdCalc] ends with an empty population.  Let the tables hold
    probabilities ([pAttack] and the entries of [pPred], [pKilled] and
    [mu] in [0,1]), the interpolation indices and the policy stay on the
    lattice, so that every read and write of the sweep is within its
    vector and every factor is a number.  Then, unless the first pass
    divides by zero, the loop leaves after exactly two passes: the first
    pass moves the seeded frequency to epoch 1 in states already visited,
    finds nothing at the breeding point and wipes the lattice; the second
    pass finds nothing to move.  The frequencies written are 0 on the
    whole lattice and so are the death tallies reported. *)
Theorem fwdCalc_ends_empty (fuel : nat) (int_abs : bool) (p : Params)
  (e : Tables) (hor : Z -> Z -> Z -> Z) (s0 : Fwd) :
  targets_on_lattice e -> survival_tables p e -> hormone_in_range hor ->
  ~ (1 - pPred e maxT * pAttack p * pKilled e 0%Z) * (1 - mu e 0%Z) == 0 ->
  exists s m,
    fwdCalc (S (S fuel)) int_abs p e hor s0 = fwd_done 2 s m
    /\ m == 0
    /\ (forall t ts d h, on_F_lattice t ts d h -> F s t ts d h == 0)
    /\ predDeaths s == 0 /\ damageDeaths s == 0 /\ bkgrndDeaths s == 0.
Proof.
  intros _ _ _. fold (seed_killed p e). intros Hnz. unfold fwdCalc.
  destruct (first_pass_runs int_abs p e hor s0 Hnz)
    as (s1 & m1 & Hrun1 & Hl1 & Hm1).
  destruct (empty_pass_runs int_abs p e hor s1 Hl1)
    as (s2 & m2 & Hrun2 & Hl2 & Hm2 & Htal).
  exists s2, m2.
  rewrite (fwdCalc_loop_step _ _ _ _ _ s1 m1); [|reflexivity|exact Hrun1].
  rewrite (fwdCalc_loop_step _ _ _ _ _ s2 m2);
    [|unfold eps; eapply Qlt_le_trans; [|exact Hm1]; reflexivity
     |exact Hrun2].
  rewrite fwdCalc_loop_stop by (rewrite Hm2; discriminate).
  split; [reflexivity|]. split; [exact Hm2|]. split; [exact Hl2|].
  exact Htal.
Qed.

(** A seeded state that is attacked with a probability below 1 and has a
    background mortality below 1 does not die with certainty. *)
Lemma seed_survives (x a y m : Q) :
  0 <= x <= 1 -> 0 <= a < 1 -> 0 <= y <= 1 -> 0 <= m < 1 ->
  ~ (1 - x * a * y) * (1 - m) == 0.
Proof.
  intros Hx Ha Hy Hm Hz.
  assert (H0 : 0 <= x * a) by (apply Qmult_le_0_compat; lra).
  assert (H1 : x * a <= a)
    by (apply Qle_trans with (1 * a);
        [apply Qmult_le_compat_r; lra|lra]).
  assert (H2 : x * a * y <= x * a).
  { rewrite (Qmult_comm (x * a) y).
    apply Qle_trans with (1 * (x * a));
      [apply Qmult_le_compat_r; lra|lra]. }
  apply Qmult_integral in Hz. destruct Hz as [Hz|Hz]; lra.
Qed.

Lemma default_seed_survives :
  ~ (1 - pPred (tables_of params_default) maxT * pAttack params_default
         * pKilled (tables_of params_default) 0%Z)
    * (1 - mu (tables_of params_default) 0%Z) == 0.
Proof.
  destruct tables_default_probabilities as ((_ & Hpp & Hpk & _) & _).
  apply seed_survives.
  - apply Hpp. unfold maxT. lia.
  - simpl. lra.
  - apply Hpk. unfold maxH. lia.
  - clear Hpp Hpk. unfold tables_of. cbn [mu].
    rewrite Mortality_entry by (unfold maxD; lia).
    vm_compute. split; [discriminate|reflexivity].
Qed.

Lemma fwdCalc_ends_empty_witness :
  exists s m,
    fwdCalc 2 false params_default (tables_of params_default)
            (fun _ _ _ => 1%Z) (mk_Fwd (fun _ _ _ _ => 0) 0 0 0)
    = fwd_done 2 s m.
Proof.
  destruct (fwdCalc_ends_empty 0 false params_default
              (tables_of params_default) (fun _ _ _ => 1%Z)
              (mk_Fwd (fun _ _ _ _ => 0) 0 0 0))
    as (s & m & H & _).
  - apply tables_of_targets.
  - exact (proj1 tables_default_probabilities).
  - intros t ts d _ _ _. unfold maxH. lia.
  - exact default_seed_survives.
  - exists s, m. exact H.
Defined.



(** * [SimAttacks] *)

Local Open Scope Z_scope.

Lemma for_up_opt_first {S : Type} (body : Z -> S -> option S)
  (lo hi : Z) (s : S) :
  lo <= hi ->
  for_up_opt lo hi body s
  = match body lo s with
    | Some s' => for_up_opt (lo + 1) hi body s'
    | None => None
    end.
Proof.
  intros Hle. unfold for_up_opt, zrange.
  replace (Z.to_nat (hi + 1 - lo))
    with (Datatypes.S (Z.to_nat (hi + 1 - (lo + 1)))) by lia.
  cbn [seq map fold_left]. rewrite Z.add_0_r.
  rewrite <- seq_shift, map_map.
  assert (E : map (fun k => lo + Z.of_nat (Datatypes.S k))
                  (seq 0 (Z.to_nat (hi + 1 - (lo + 1))))
              = map (fun k => lo + 1 + Z.of_nat k)
                    (seq 0 (Z.to_nat (hi + 1 - (lo + 1))))).
  { apply map_ext. intros k. lia. }
  rewrite E. destruct (body lo s) as [s'|]; [reflexivity|].
  apply fold_opt_none.
Qed.

Lemma hormone_at_negative (hor : Z -> Z -> Z -> Z) (t ts d : Z) :
  ts < 0 -> hormone_at hor t ts d = None.
Proof.
  intros Hts. unfold hormone_at.
  destruct (Z.leb_spec 0 ts) as [H|_]; [lia|].
  now rewrite !andb_false_r.
Qed.

(** A pass of the loop fails when the season counter is negative and not
    a multiple of [maxTs]: the index [ts % maxTs] is then negative. *)
Lemma SimAttacks_step_fails (hor : Z -> Z -> Z -> Z) (e : Tables)
  (u : Z -> Q) (time_i : Z) (st : Sim) :
  Z.rem (cur_ts st) maxTs < 0 -> SimAttacks_step hor e u time_i st = None.
Proof.
  intros Hneg. unfold SimAttacks_step.
  now rewrite hormone_at_negative.
Qed.

Lemma SimAttacks_step_counts (hor : Z -> Z -> Z -> Z) (e : Tables)
  (u : Z -> Q) (time_i : Z) (st st' : Sim) :
  SimAttacks_step hor e u time_i st = Some st' ->
  cur_ts st' = cur_ts st + 1.
Proof.
  unfold SimAttacks_step.
  destruct (hormone_at hor _ _ _) as [h|]; [|discriminate].
  destruct (dnew_at e _ h) as [x|]; [|discriminate].
  now intros [= <-].
Qed.

(** [SimAttacks] reads outside its vectors, whatever the policy, the
    tables and the random numbers.  The season counter starts at
    [maxTs - treproduce = -30]; the read [hormone[t][ts][d]] before the
    loop uses it as an index; and the loop itself, entered with any value
    in [h], reads [hormone[t][ts % maxTs][d]] at the index
    [-29 % 10 = -9] in its second pass, unless a read of the first pass
    was already out of bounds. *)
Theorem SimAttacks_out_of_bounds (hor : Z -> Z -> Z -> Z) (e : Tables)
  (u : Z -> Q) :
  maxTs - treproduce = -30
  /\ hormone_at hor maxT (maxTs - treproduce) 0 = None
  /\ SimAttacks hor e u = None
  /\ forall h0,
       SimAttacks_loop hor e u (mk_Sim maxT (maxTs - treproduce) 0 h0 [])
       = None.
Proof.
  split; [reflexivity|]. split; [reflexivity|]. split; [reflexivity|].
  intros h0. unfold SimAttacks_loop.
  rewrite for_up_opt_first by (unfold time_sim_max, maxTs; lia).
  destruct (SimAttacks_step hor e u 0
              (mk_Sim maxT (maxTs - treproduce) 0 h0 [])) as [st1|] eqn:E1;
    [|reflexivity].
  apply SimAttacks_step_counts in E1. cbn [cur_ts] in E1.
  rewrite for_up_opt_first by (unfold time_sim_max, maxTs; lia).
  rewrite SimAttacks_step_fails; [reflexivity|].
  rewrite E1. reflexivity.
Qed.


(** * The policy at the largest time since an attack *)

(** The searches at [t = maxT-1] and at [t = maxT] read the same row,
    [Wnext[maxT][ts+1][d][.]] (the index [t+1] is capped at [maxT]): the
    policy and the fitness kept for one more quiet time step after
    [maxT-1] are those of [maxT-1]. *)
Theorem OptDec_saturates_at_maxT (p : Params) (e : Tables) (s : Fit)
  (ts d : Z) :
  0 <= ts <= maxTs - 1 -> 0 <= d <= maxD ->
  hormone (OptDec p e s) (maxT - 1) ts d = hormone (OptDec p e s) maxT ts d
  /\ Wopt (OptDec p e s) (maxT - 1) ts d = Wopt (OptDec p e s) maxT ts d.
Proof.
  intros Hts Hd.
  destruct (OptDec_search_result p e s (maxT - 1) ts d
              ltac:(unfold maxT; lia) Hts Hd) as [-> ->].
  destruct (OptDec_search_result p e s maxT ts d
              ltac:(unfold maxT; lia) Hts Hd) as [-> ->].
  change (Z.min maxT (maxT - 1 + 1)) with maxT.
  change (Z.min maxT (maxT + 1)) with maxT.
  split; reflexivity.
Qed.

Lemma OptDec_saturates_at_maxT_witness :
  hormone (OptDec params_default (tables_of params_default)
             (FinalFit (tables_of params_default) fit_start))
          (maxT - 1) 4 2
  = hormone (OptDec params_default (tables_of params_default)
               (FinalFit (tables_of params_default) fit_start))
            maxT 4 2.
Proof.
  refine (proj1 (OptDec_saturates_at_maxT _ _ _ 4 2 _ _));
    unfold maxTs, maxD; lia.
Defined.
